(** * process_audio.py: VAD, speaker-count estimation, diarization,
      interval alignment and transcript merging.

    Shallow embedding of [src/py/process_audio.py].

    Modelling conventions.
    - Python floats (seconds, energies, scores) are exact rationals [Q];
      rounding, NaN and infinities are outside the model.  Every property
      below is about comparisons and control flow, not about rounding.
    - Python ints are [Z]; list indices that come from [enumerate] are
      [Z] as well, since they are multiplied with floats.
    - A Python [str] is the list of its Unicode code points ([Py.str]);
      [Py.lit] reads a literal of the source.
    - A raised exception (ZeroDivisionError, IndexError, the ValueError
      of a library call) is [None].
    - numpy, librosa and scikit-learn are external libraries: their
      kernels are taken as records of functions ([NumPy], [Librosa],
      [Sklearn]), so every theorem holds for whatever those kernels
      return; a librosa or scikit-learn call may also raise. *)

From Stdlib Require Import ZArith QArith Qround Bool List String Ascii Lia Lqa.
From Stdlib Require Import Sorting.Sorted Sorting.Permutation.
Import ListNotations.

Local Open Scope Q_scope.

(* ================================================================== *)
(** * Python primitives *)
(* ================================================================== *)

Module Py.

(** [a < b] on floats. *)
Definition Qltb (a b : Q) : bool := negb (Qle_bool b a).

(** [min(a, b)]: Python returns [b] only when [b < a]. *)
Definition min (a b : Q) : Q := if Qltb b a then b else a.

(** [max(a, b)]: Python returns [b] only when [b > a]. *)
Definition max (a b : Q) : Q := if Qltb a b then b else a.

(** [abs(x)] *)
Definition abs (x : Q) : Q := if Qltb x 0 then - x else x.

(** [int(x)] on a float: truncation toward zero. *)
Definition int (x : Q) : Z := Z.quot (Qnum x) (Zpos (Qden x)).

(** Truthiness of a number: [bool(x)] is [x != 0]. *)
Definition truthy (x : Q) : bool := negb (Qeq_bool x 0).

(** [a or b] on two results of [dict.get] (absent key or JSON null is
    [None]); a present but falsy [a] yields [b]. *)
Definition or_ (a b : option Q) : option Q :=
  match a with
  | Some x => if truthy x then Some x else b
  | None => b
  end.

(** [d.get(key, default)] for a key that is absent ([None]) or bound. *)
Definition get {A : Type} (v : option A) (default : A) : A :=
  match v with Some x => x | None => default end.

(** [range(start, stop, step)] for [step > 0]. *)
Definition range (start stop step : Z) : list Z :=
  let n := ((stop - start + step - 1) / step)%Z in
  map (fun i => (start + Z.of_nat i * step)%Z) (seq 0 (Z.to_nat n)).

(** [xs[start:start+n]] for [0 <= start]. *)
Definition slice {A : Type} (xs : list A) (start n : Z) : list A :=
  firstn (Z.to_nat n) (skipn (Z.to_nat start) xs).

(** [len(xs)] *)
Definition len {A : Type} (xs : list A) : Z := Z.of_nat (List.length xs).

(** [xs[-1]] together with [xs[:-1]]; [None] on the empty list. *)
Fixpoint split_last {A : Type} (xs : list A) : option (list A * A) :=
  match xs with
  | [] => None
  | x :: rest =>
      match split_last rest with
      | None => Some ([], x)
      | Some (init, l) => Some (x :: init, l)
      end
  end.

(** A [str]: the sequence of its Unicode code points. *)
Definition str : Type := list N.

(** A string literal of the source (ASCII). *)
Definition lit (s : string) : str :=
  map N_of_ascii (list_ascii_of_string s).

(** The code points [str.strip()] removes: those of [str.isspace]. *)
Definition isspace (c : N) : bool :=
  ((9 <=? c) && (c <=? 13) || (28 <=? c) && (c <=? 32)
   || (c =? 133) || (c =? 160) || (c =? 5760)
   || (8192 <=? c) && (c <=? 8202)
   || (c =? 8232) || (c =? 8233) || (c =? 8239) || (c =? 8287)
   || (c =? 12288))%N.

Fixpoint lstrip (s : str) : str :=
  match s with
  | [] => []
  | c :: rest => if isspace c then lstrip rest else s
  end.

Fixpoint rstrip (s : str) : str :=
  match s with
  | [] => []
  | c :: rest =>
      match rstrip rest with
      | [] => if isspace c then [] else [c]
      | r => c :: r
      end
  end.

(** [s.strip()] *)
Definition strip (s : str) : str := rstrip (lstrip s).

(** [not s] on a string *)
Definition is_empty (s : str) : bool :=
  match s with [] => true | _ => false end.

(** [int(np.argmin(xs))]: index of the first minimal element. *)
Fixpoint argmin_from (idx best_idx : nat) (best : Q) (xs : list Q) : nat :=
  match xs with
  | [] => best_idx
  | x :: rest =>
      if Qltb x best then argmin_from (S idx) idx x rest
      else argmin_from (S idx) best_idx best rest
  end.

Definition argmin (xs : list Q) : nat :=
  match xs with
  | [] => O
  | x :: rest => argmin_from 1 0 x rest
  end.

(** [len(set(labels))] *)
Definition distinct_count (labels : list Z) : Z :=
  len (nodup Z.eq_dec labels).

End Py.

(* ================================================================== *)
(** * Data model *)
(* ================================================================== *)

(** [@dataclass SpeechSegment]; the field [end] is spelled [end_]. *)
Record SpeechSegment : Type := mkSpeechSegment {
  start : Q;
  end_ : Q;
  speaker : Z;
  text : Py.str
}.

(** A transcript segment as the ASR engine yields it: the merger reads
    [seg.start], [seg.end] and [seg.text] only. *)
Record Utterance : Type := mkUtterance {
  u_start : Q;
  u_end : Q;
  u_text : Py.str
}.

(** A VAD interval, the Python tuple [(start, end)]. *)
Definition Interval : Type := (Q * Q)%type.

(** The [vad] option dictionary: each key is absent or bound to a number. *)
Record VadOptions : Type := mkVadOptions {
  frame_length : option Q;
  hop_length : option Q;
  threshold_multiplier : option Q;
  min_speech : option Q;
  min_silence : option Q;
  thr : option Q;
  threshold : option Q
}.

(** The [diarization] option dictionary. *)
Record DiarOptions : Type := mkDiarOptions {
  min_speakers : option Z;
  max_speakers : option Z;
  num_speakers : option Z
}.

(** [DEFAULT_VAD_OPTIONS] *)
Module DEFAULT_VAD_OPTIONS.
Definition frame_length : Q := 3 # 100.
Definition hop_length : Q := 1 # 100.
Definition threshold_multiplier : Q := 1 # 2.
Definition min_speech : Q := 4 # 10.
Definition min_silence : Q := 3 # 10.
End DEFAULT_VAD_OPTIONS.

(** [DEFAULT_DIARIZATION_OPTIONS] *)
Module DEFAULT_DIARIZATION_OPTIONS.
Definition min_speakers : Z := 2.
Definition max_speakers : Z := 6.
End DEFAULT_DIARIZATION_OPTIONS.

(** The numpy kernels [energy_vad] calls. *)
Record NumPy : Type := mkNumPy {
  (** [float(np.sqrt(np.mean(frame ** 2)))] *)
  rms : list Q -> Q;
  (** the cast of one energy to [np.float32] *)
  float32 : Q -> Q;
  (** [np.mean] *)
  np_mean : list Q -> Q;
  (** [np.std] *)
  np_std : list Q -> Q
}.

(** A feature matrix: one row per interval. *)
Definition Features : Type := list (list Q).

(** The scikit-learn capabilities the estimator and the diarizer call.
    Either call may raise ([None]): the clusterer when asked for more
    clusters than there are rows, the scorer when the number of labels is
    not between 2 and the number of rows minus 1. *)
Record Sklearn : Type := mkSklearn {
  (** [AgglomerativeClustering(n_clusters=k).fit_predict(features)] *)
  fit_predict : Features -> Z -> option (list Z);
  (** [silhouette_score(features, labels)] *)
  silhouette_score : Features -> list Z -> option Q
}.

(* ================================================================== *)
(** * 4.5 Interval aligner: [assign_speaker_for_interval] *)
(* ================================================================== *)

Module Aligner.

(** [segment.start <= midpoint <= segment.end] *)
Definition contains (midpoint : Q) (segment : SpeechSegment) : bool :=
  Qle_bool (start segment) midpoint && Qle_bool midpoint (end_ segment).

(** [min(end, segment.end) - max(start, segment.start)] *)
Definition overlap (s e : Q) (segment : SpeechSegment) : Q :=
  Py.min e (end_ segment) - Py.max s (start segment).

(** The scan of lines 217-223.  [inl spk] is the early [return] of
    line 223; [inr best_index] is the state when the loop runs out. *)
Fixpoint scan (s e midpoint : Q) (idx : nat)
    (best_index : option nat) (best_overlap : Q)
    (segments : list SpeechSegment) : Z + option nat :=
  match segments with
  | [] => inr best_index
  | segment :: rest =>
      let ov := overlap s e segment in
      let '(best_index', best_overlap') :=
        if Py.Qltb best_overlap ov then (Some idx, ov)
        else (best_index, best_overlap) in
      if contains midpoint segment then inl (speaker segment)
      else scan s e midpoint (S idx) best_index' best_overlap' rest
  end.

(** [min(abs(midpoint - seg.start), abs(midpoint - seg.end))] *)
Definition boundary_distance (midpoint : Q) (seg : SpeechSegment) : Q :=
  Py.min (Py.abs (midpoint - start seg)) (Py.abs (midpoint - end_ seg)).

(** [segments[i].speaker]; [None] is the IndexError. *)
Definition speaker_at (segments : list SpeechSegment) (i : nat) : option Z :=
  option_map speaker (nth_error segments i).

Definition assign_speaker_for_interval (s e : Q)
    (segments : list SpeechSegment) : option Z :=
  match segments with
  | [] => Some 0%Z
  | _ =>
      let midpoint := (s + e) / 2 in
      match scan s e midpoint 0 None 0 segments with
      | inl spk => Some spk
      | inr (Some best_index) => speaker_at segments best_index
      | inr None =>
          let distances := map (boundary_distance midpoint) segments in
          speaker_at segments (Py.argmin distances)
      end
  end.

End Aligner.

(* ================================================================== *)
(** * 4.6 Transcript merger: [merge_transcript_segments] *)
(* ================================================================== *)

Module Merger.

(** One iteration of the loop of lines 239-249.  An IndexError of the
    aligner propagates. *)
Definition merge_step (diarized_segments : list SpeechSegment) (merge_gap : Q)
    (merged : list SpeechSegment) (seg : Utterance)
    : option (list SpeechSegment) :=
  let txt := Py.strip (u_text seg) in
  if Py.is_empty txt then Some merged
  else
    match Aligner.assign_speaker_for_interval
            (u_start seg) (u_end seg) diarized_segments with
    | None => None
    | Some spk =>
        let fresh :=
          merged ++ [mkSpeechSegment (u_start seg) (u_end seg) spk txt] in
        match Py.split_last merged with
        | Some (init, last) =>
            if (speaker last =? spk)%Z
               && Qle_bool (u_start seg - end_ last) merge_gap
            then Some (init ++
                   [mkSpeechSegment (start last) (u_end seg) (speaker last)
                      (Py.strip (text last ++ Py.lit " " ++ txt))])
            else Some fresh
        | None => Some fresh
        end
    end.

Fixpoint merge_loop (diarized_segments : list SpeechSegment) (merge_gap : Q)
    (merged : list SpeechSegment) (transcript_segments : list Utterance)
    : option (list SpeechSegment) :=
  match transcript_segments with
  | [] => Some merged
  | seg :: rest =>
      match merge_step diarized_segments merge_gap merged seg with
      | None => None
      | Some merged' => merge_loop diarized_segments merge_gap merged' rest
      end
  end.

Definition merge_transcript_segments (transcript_segments : list Utterance)
    (diarized_segments : list SpeechSegment) (merge_gap : Q)
    : option (list SpeechSegment) :=
  merge_loop diarized_segments merge_gap [] transcript_segments.

End Merger.


(* ================================================================== *)
(** * 4.1 Energy VAD: [energy_vad] *)
(* ================================================================== *)

Module Vad.

(** Line 65: [max(1, int(frame_length * sr))] *)
Definition frame_samples (sr : Z) (options : VadOptions) : Z :=
  Z.max 1 (Py.int (Py.get (frame_length options) DEFAULT_VAD_OPTIONS.frame_length
                   * inject_Z sr)).

(** Line 66: [max(1, int(hop_length * sr))] *)
Definition hop_samples (sr : Z) (options : VadOptions) : Z :=
  Z.max 1 (Py.int (Py.get (hop_length options) DEFAULT_VAD_OPTIONS.hop_length
                   * inject_Z sr)).

(** [len(audio) / sr], for [sr <> 0]. *)
Definition duration (audio : list Q) (sr : Z) : Q :=
  inject_Z (Py.len audio) / inject_Z sr.

(** Lines 71-77: one energy per frame, stored as float32. *)
Definition frame_energies (np : NumPy) (audio : list Q) (sr : Z)
    (options : VadOptions) : list Q :=
  map (fun st => float32 np (rms np (Py.slice audio st (frame_samples sr options))))
      (Py.range 0 (Py.len audio - frame_samples sr options + 1)
         (hop_samples sr options)).

(** Lines 63 and 81-84: the speech threshold. *)
Definition vad_threshold (np : NumPy) (options : VadOptions)
    (energies_np : list Q) : Q :=
  let manual_threshold := Py.or_ (thr options) (threshold options) in
  match manual_threshold with
  | Some m => m
  | None =>
      np_mean np energies_np
      + np_std np energies_np
        * Py.get (threshold_multiplier options)
            DEFAULT_VAD_OPTIONS.threshold_multiplier
  end.

(** Line 88: [energies_np > threshold] *)
Definition speech_flags (threshold : Q) (energies_np : list Q) : list bool :=
  map (fun e => Py.Qltb threshold e) energies_np.

(** Lines 98-102 and again 108-112: extend the previous interval when the
    gap to it is below [min_silence], else append a new one. *)
Definition close_segment (segments : list Interval) (seg_start seg_end : Q)
    (min_silence : Q) : list Interval :=
  match Py.split_last segments with
  | Some (init, (prev_start, prev_end)) =>
      if Py.Qltb (seg_start - prev_end) min_silence
      then init ++ [(prev_start, seg_end)]
      else segments ++ [(seg_start, seg_end)]
  | None => segments ++ [(seg_start, seg_end)]
  end.

(** Lines 92-103: the scan over [enumerate(speech_flags)]. *)
Fixpoint scan_flags (hop frame_len min_sil dur : Q) (index : Z)
    (flags : list bool) (segments : list Interval) (current_start : option Z)
    : list Interval * option Z :=
  match flags with
  | [] => (segments, current_start)
  | is_speech :: rest =>
      match is_speech, current_start with
      | true, None =>
          scan_flags hop frame_len min_sil dur (index + 1) rest
            segments (Some index)
      | false, Some cs =>
          let seg_start := inject_Z cs * hop in
          let seg_end := Py.min dur (inject_Z index * hop + frame_len) in
          scan_flags hop frame_len min_sil dur (index + 1) rest
            (close_segment segments seg_start seg_end min_sil) None
      | _, _ =>
          scan_flags hop frame_len min_sil dur (index + 1) rest
            segments current_start
      end
  end.

(** Lines 89-112: the candidate intervals before the length filter. *)
Definition candidate_segments (hop frame_len min_sil dur : Q)
    (flags : list bool) : list Interval :=
  match scan_flags hop frame_len min_sil dur 0 flags [] None with
  | (segments, Some cs) =>
      close_segment segments (inject_Z cs * hop) dur min_sil
  | (segments, None) => segments
  end.

(** Lines 114-117: keep the intervals of at least [min_speech] seconds. *)
Definition refine (min_sp : Q) (segments : list Interval) : list Interval :=
  filter (fun seg => Qle_bool min_sp (snd seg - fst seg)) segments.

(** The candidates of a whole call (lines 59-112). *)
Definition candidates (np : NumPy) (audio : list Q) (sr : Z)
    (options : VadOptions) : list Interval :=
  let energies_np := frame_energies np audio sr options in
  candidate_segments
    (Py.get (hop_length options) DEFAULT_VAD_OPTIONS.hop_length)
    (Py.get (frame_length options) DEFAULT_VAD_OPTIONS.frame_length)
    (Py.get (min_silence options) DEFAULT_VAD_OPTIONS.min_silence)
    (duration audio sr)
    (speech_flags (vad_threshold np options energies_np) energies_np).

(** [energy_vad].  Every path through the function evaluates
    [len(audio) / sr], so [sr = 0] raises ZeroDivisionError on all of
    them; nothing else in the modelled part can raise. *)
Definition energy_vad (np : NumPy) (audio : list Q) (sr : Z)
    (options : VadOptions) : option (list Interval) :=
  if (sr =? 0)%Z then None
  else
    let whole := [(0, duration audio sr)] in
    if (Py.len audio <? frame_samples sr options)%Z then Some whole
    else
      let energies_np := frame_energies np audio sr options in
      if (Py.len energies_np =? 0)%Z then Some whole
      else
        let refined :=
          refine (Py.get (min_speech options) DEFAULT_VAD_OPTIONS.min_speech)
                 (candidates np audio sr options) in
        match refined with
        | [] => Some whole
        | _ => Some refined
        end.

End Vad.

(* ================================================================== *)
(** * 4.3 Speaker count estimator: [estimate_speaker_count] *)
(* ================================================================== *)

Module Estimator.

(** [features.shape[0]] *)
Definition rows (features : Features) : Z := Py.len features.

(** The body of the loop of lines 169-179 on the state
    [(best_score, best_k)]; [None] when the clusterer or the scorer
    raises. *)
Definition sweep_step (sk : Sklearn) (features : Features)
    (state : Q * Z) (k : Z) : option (Q * Z) :=
  if ((k <=? 1) || (rows features <? k))%Z then Some state
  else
    match fit_predict sk features k with
    | None => None
    | Some labels =>
        if (Py.distinct_count labels <=? 1)%Z then Some state
        else
          match silhouette_score sk features labels with
          | None => None
          | Some score =>
              if Py.Qltb (fst state) score then Some (score, k)
              else Some state
          end
    end.

(** The loop of lines 169-179; an exception ends it. *)
Fixpoint sweep_loop (sk : Sklearn) (features : Features)
    (state : Q * Z) (ks : list Z) : option (Q * Z) :=
  match ks with
  | [] => Some state
  | k :: rest =>
      match sweep_step sk features state k with
      | None => None
      | Some state' => sweep_loop sk features state' rest
      end
  end.

(** Lines 163-185: the sweep over candidate speaker counts. *)
Definition sweep (sk : Sklearn) (features : Features)
    (diar_options : DiarOptions) : option Z :=
  let min_speakers :=
    Py.get (min_speakers diar_options) DEFAULT_DIARIZATION_OPTIONS.min_speakers in
  let max_speakers :=
    Py.get (max_speakers diar_options) DEFAULT_DIARIZATION_OPTIONS.max_speakers in
  let max_speakers := Z.min max_speakers (rows features) in
  match sweep_loop sk features (- (1), 1%Z)
          (Py.range min_speakers (max_speakers + 1) 1) with
  | None => None
  | Some state =>
      let best_k := snd state in
      Some (if (best_k <=? 1)%Z then 1%Z else best_k)
  end.

Definition estimate_speaker_count (sk : Sklearn) (features : Features)
    (diar_options : DiarOptions) : option Z :=
  if (rows features <=? 1)%Z then Some 1%Z
  else
    match num_speakers diar_options with
    | Some n =>
        (* [if num_speakers:] is the truthiness of an int *)
        if (n =? 0)%Z then sweep sk features diar_options
        else Some (Z.max 1 n)
    | None => sweep sk features diar_options
    end.

End Estimator.

(* ================================================================== *)
(** * 4.4 Diarizer: [diarize_segments] *)
(* ================================================================== *)

Module Diarizer.

(** Line 200: [SpeechSegment(start=s, end=e, speaker=int(labels[idx]))]
    over [enumerate(segments)]; [None] is the IndexError of [labels[idx]]. *)
Fixpoint label_segments (labels : list Z) (idx : nat)
    (segments : list Interval) : option (list SpeechSegment) :=
  match segments with
  | [] => Some []
  | (s, e) :: rest =>
      match nth_error labels idx, label_segments labels (S idx) rest with
      | Some l, Some tl => Some (mkSpeechSegment s e l (Py.lit "") :: tl)
      | _, _ => None
      end
  end.

(** [list.sort(key=lambda seg: seg.start)] is a stable sort: an element
    goes in front of the first element whose key is not smaller. *)
Fixpoint insert_by_start (x : SpeechSegment) (l : list SpeechSegment)
    : list SpeechSegment :=
  match l with
  | [] => [x]
  | y :: rest =>
      if Qle_bool (start x) (start y) then x :: l
      else y :: insert_by_start x rest
  end.

Definition sort_by_start (l : list SpeechSegment) : list SpeechSegment :=
  fold_right insert_by_start [] l.

Definition diarize_segments (sk : Sklearn) (segments : list Interval)
    (features : Features) (diar_options : DiarOptions)
    : option (list SpeechSegment) :=
  match segments with
  | [] => Some []
  | _ =>
      match Estimator.estimate_speaker_count sk features diar_options with
      | None => None
      | Some num_speakers =>
          if (num_speakers <=? 1)%Z
          then Some (map (fun seg =>
                            mkSpeechSegment (fst seg) (snd seg) 0 (Py.lit ""))
                       segments)
          else
            match fit_predict sk features num_speakers with
            | None => None
            | Some labels =>
                option_map sort_by_start (label_segments labels 0 segments)
            end
      end
  end.

End Diarizer.


(* ================================================================== *)
(** * More Python primitives *)
(* ================================================================== *)

Module PyMore.

(** A slice bound as [list.__getitem__] normalises it: a negative bound
    counts from the end, and both are clamped to [[0, len]]. *)
Definition slice_bound (n i : Z) : Z :=
  if (i <? 0)%Z then Z.max 0 (i + n) else Z.min i n.

(** [xs[i:j]] for arbitrary ints [i] and [j]. *)
Definition getslice {A : Type} (xs : list A) (i j : Z) : list A :=
  let lo := slice_bound (Py.len xs) i in
  let hi := slice_bound (Py.len xs) j in
  firstn (Z.to_nat (hi - lo)) (skipn (Z.to_nat lo) xs).

(** [np.pad(xs, (0, pad_width), mode='edge')] on a non-empty array: the
    last sample is repeated. *)
Definition pad_edge (xs : list Q) (pad_width : Z) : list Q :=
  xs ++ repeat (last xs 0) (Z.to_nat pad_width).

(** [np.vstack(rows)]: the rows must all have the same length, else
    ValueError ([None]). *)
Definition vstack (rows : list (list Q)) : option (list (list Q)) :=
  match rows with
  | [] => Some []
  | r :: rest =>
      if forallb (fun x => (List.length x =? List.length r)%nat) rest
      then Some rows else None
  end.

(** [a // b] on floats, for [b > 0]. *)
Definition floordiv (a b : Q) : Q := inject_Z (Qfloor (a / b)).

(** [a % b] on floats, for [b > 0]: the remainder of the floor division. *)
Definition mod_ (a b : Q) : Q := a - b * inject_Z (Qfloor (a / b)).

(** The decimal digits of a natural number, as code points. *)
Fixpoint digits (d : Decimal.uint) : Py.str :=
  match d with
  | Decimal.Nil => []
  | Decimal.D0 r => 48%N :: digits r
  | Decimal.D1 r => 49%N :: digits r
  | Decimal.D2 r => 50%N :: digits r
  | Decimal.D3 r => 51%N :: digits r
  | Decimal.D4 r => 52%N :: digits r
  | Decimal.D5 r => 53%N :: digits r
  | Decimal.D6 r => 54%N :: digits r
  | Decimal.D7 r => 55%N :: digits r
  | Decimal.D8 r => 56%N :: digits r
  | Decimal.D9 r => 57%N :: digits r
  end.

(** [s.rjust(width, '0')] *)
Definition zero_pad (width : nat) (s : Py.str) : Py.str :=
  repeat 48%N (width - List.length s) ++ s.

(** [f"{n}"] for an int. *)
Definition format_d (n : Z) : Py.str :=
  if (n <? 0)%Z then 45%N :: digits (N.to_uint (Z.abs_N n))
  else digits (N.to_uint (Z.to_N n)).

(** [f"{n:02d}"]: zero padding to two characters, the sign included. *)
Definition format_02d (n : Z) : Py.str :=
  if (n <? 0)%Z then 45%N :: zero_pad 1 (digits (N.to_uint (Z.abs_N n)))
  else zero_pad 2 (digits (N.to_uint (Z.to_N n))).

(** [s.replace('.', separator)] *)
Definition replace_dot (separator : Py.str) (s : Py.str) : Py.str :=
  flat_map (fun c => if (c =? 46)%N then separator else [c]) s.

(** [sep.join(parts)] *)
Fixpoint join (sep : Py.str) (parts : list Py.str) : Py.str :=
  match parts with
  | [] => []
  | [p] => p
  | p :: rest => p ++ sep ++ join sep rest
  end.

End PyMore.

(** The librosa kernels [extract_features] calls; either may raise
    ([None]). *)
Record Librosa : Type := mkLibrosa {
  (** [librosa.feature.mfcc(y=y, sr=sr, n_mfcc=n)]: [n] rows over time *)
  mfcc : list Q -> Z -> Z -> option (list (list Q));
  (** [librosa.feature.delta(data, order=order)] *)
  delta : list (list Q) -> Z -> option (list (list Q))
}.

(** The rendering of a float by the format specification [06.3f], a
    primitive of the Python runtime. *)
Record FloatFormat : Type := mkFloatFormat {
  format_06_3f : Q -> Py.str
}.

(** The arguments of one [srt.Subtitle(...)]; the two [timedelta] hold
    the seconds they were built from. *)
Record Subtitle : Type := mkSubtitle {
  sub_index : Z;
  sub_start : Q;
  sub_end : Q;
  sub_content : Py.str
}.

(* ================================================================== *)
(** * [format_timestamp] *)
(* ================================================================== *)

Module Timestamp.

(** Line 48: [int(value // 3600)] *)
Definition hours (value : Q) : Z := Py.int (PyMore.floordiv value 3600).

(** Line 49: [int((value % 3600) // 60)] *)
Definition minutes (value : Q) : Z :=
  Py.int (PyMore.floordiv (PyMore.mod_ value 3600) 60).

(** Line 50: [value % 60] *)
Definition seconds (value : Q) : Q := PyMore.mod_ value 60.

(** Line 51 *)
Definition format_timestamp (ff : FloatFormat) (value : Q)
    (separator : Py.str) : Py.str :=
  PyMore.replace_dot separator
    (PyMore.format_02d (hours value) ++ Py.lit ":"
     ++ PyMore.format_02d (minutes value) ++ Py.lit ":"
     ++ format_06_3f ff (seconds value)).

End Timestamp.

(* ================================================================== *)
(** * 4.2 Feature extractor: [extract_features] *)
(* ================================================================== *)

Module FeatureExtractor.

(** Line 129 *)
Definition feature_dim : Z := 78.

(** Line 128: [int(0.25 * sr)] *)
Definition min_samples (sr : Z) : Z := Py.int ((1 # 4) * inject_Z sr).

(** Lines 132-134: the samples of one interval. *)
Definition segment_slice (audio : list Q) (sr : Z) (seg : Interval) : list Q :=
  let start_idx := Z.max 0 (Py.int (fst seg * inject_Z sr)) in
  let end_idx := Z.min (Py.len audio) (Py.int (snd seg * inject_Z sr)) in
  PyMore.getslice audio start_idx end_idx.

(** Lines 138-140: a non-empty slice shorter than [min_samples] is
    padded to it. *)
Definition pad_short (sr : Z) (segment_audio : list Q) : list Q :=
  if (Py.len segment_audio <? min_samples sr)%Z
  then PyMore.pad_edge segment_audio (min_samples sr - Py.len segment_audio)
  else segment_audio.

(** Lines 142-147: the 78 statistics of one padded slice; [None] is an
    exception of librosa or the ValueError of [np.vstack] on blocks of
    different widths. *)
Definition feature_vector (np : NumPy) (lib : Librosa) (sr : Z)
    (segment_audio : list Q) : option (list Q) :=
  match mfcc lib segment_audio sr 13 with
  | None => None
  | Some m =>
      match delta lib m 1, delta lib m 2 with
      | Some d, Some d2 =>
          match PyMore.vstack (m ++ d ++ d2) with
          | None => None
          | Some stack =>
              Some (map (float32 np)
                      (map (np_mean np) stack ++ map (np_std np) stack))
          end
      | _, _ => None
      end
  end.

(** The body of the loop of lines 131-147 for one interval. *)
Definition feature_row (np : NumPy) (lib : Librosa) (audio : list Q) (sr : Z)
    (seg : Interval) : option (list Q) :=
  let segment_audio := segment_slice audio sr seg in
  if (Py.len segment_audio =? 0)%Z
  then Some (repeat 0 (Z.to_nat feature_dim))
  else feature_vector np lib sr (pad_short sr segment_audio).

(** The loop of lines 131-147; an exception of one row ends it. *)
Fixpoint feature_rows (np : NumPy) (lib : Librosa) (audio : list Q) (sr : Z)
    (feature_vectors : list (list Q)) (segments : list Interval)
    : option (list (list Q)) :=
  match segments with
  | [] => Some feature_vectors
  | seg :: rest =>
      match feature_row np lib audio sr seg with
      | None => None
      | Some row =>
          feature_rows np lib audio sr (feature_vectors ++ [row]) rest
      end
  end.

Definition extract_features (np : NumPy) (lib : Librosa) (audio : list Q)
    (sr : Z) (segments : list Interval) : option Features :=
  match feature_rows np lib audio sr [] segments with
  | None => None
  | Some [] => Some []
  | Some feature_vectors => PyMore.vstack feature_vectors
  end.

End FeatureExtractor.

(* ================================================================== *)
(** * Transcript exporter: [save_transcripts] *)
(* ================================================================== *)

Module Exporter.

(** The word in front of the speaker number (six Cyrillic letters). *)
Definition speaker_word : Py.str :=
  [1057; 1087; 1080; 1082; 1077; 1088]%N.

(** [f"Спикер {segment.speaker + 1}: {text}"] *)
Definition content_of (segment : SpeechSegment) (txt : Py.str) : Py.str :=
  speaker_word ++ Py.lit " " ++ PyMore.format_d (speaker segment + 1)
  ++ Py.lit ": " ++ txt.

(** Lines 265-266: one line of the text transcript; the two timestamps
    are joined by an en dash. *)
Definition line_of (ff : FloatFormat) (segment : SpeechSegment)
    (txt : Py.str) : Py.str :=
  let time_range :=
    Py.lit "["
    ++ Timestamp.format_timestamp ff (start segment) (Py.lit ".")
    ++ [8211%N]
    ++ Timestamp.format_timestamp ff (end_ segment) (Py.lit ".")
    ++ Py.lit "]" in
  time_range ++ Py.lit " " ++ content_of segment txt.

(** The loop of lines 261-274 over [enumerate(merged_segments, start=1)]. *)
Fixpoint export_loop (ff : FloatFormat) (index : Z)
    (txt_lines : list Py.str) (subtitles : list Subtitle)
    (merged_segments : list SpeechSegment)
    : list Py.str * list Subtitle :=
  match merged_segments with
  | [] => (txt_lines, subtitles)
  | segment :: rest =>
      let txt := Py.strip (text segment) in
      if Py.is_empty txt
      then export_loop ff (index + 1) txt_lines subtitles rest
      else
        export_loop ff (index + 1)
          (txt_lines ++ [line_of ff segment txt])
          (subtitles
           ++ [mkSubtitle index (start segment) (end_ segment)
                 (content_of segment txt)])
          rest
  end.

(** [save_transcripts] up to the two files: the text written to
    [transcript_speakers.txt] and the subtitles handed to [srt.compose]. *)
Definition save_transcripts (ff : FloatFormat)
    (merged_segments : list SpeechSegment) : Py.str * list Subtitle :=
  let '(txt_lines, subtitles) := export_loop ff 1 [] [] merged_segments in
  (PyMore.join [10%N] txt_lines, subtitles).

End Exporter.

(* ================================================================== *)
(** * [main]: the stages in sequence *)
(* ================================================================== *)

Module Main.

(** Line 308 *)
Definition target_sr : Z := 16000.

(** Line 304: [{**DEFAULT_VAD_OPTIONS, **options.get('vad', {})}] *)
Definition vad_options (user : VadOptions) : VadOptions :=
  mkVadOptions
    (Some (Py.get (frame_length user) DEFAULT_VAD_OPTIONS.frame_length))
    (Some (Py.get (hop_length user) DEFAULT_VAD_OPTIONS.hop_length))
    (Some (Py.get (threshold_multiplier user)
             DEFAULT_VAD_OPTIONS.threshold_multiplier))
    (Some (Py.get (min_speech user) DEFAULT_VAD_OPTIONS.min_speech))
    (Some (Py.get (min_silence user) DEFAULT_VAD_OPTIONS.min_silence))
    (thr user) (threshold user).

(** Line 305: [{**DEFAULT_DIARIZATION_OPTIONS, **options.get('diarization', {})}] *)
Definition diarization_options (user : DiarOptions) : DiarOptions :=
  mkDiarOptions
    (Some (Py.get (min_speakers user) DEFAULT_DIARIZATION_OPTIONS.min_speakers))
    (Some (Py.get (max_speakers user) DEFAULT_DIARIZATION_OPTIONS.max_speakers))
    (num_speakers user).

(** [DEFAULT_ASR_OPTIONS['merge_gap']] *)
Definition default_merge_gap : Q := 15 # 10.

(** Lines 314-316 and 333-337 of [main]: the stages from the loaded
    audio and the utterances of the transcription model to the merged
    segments.  The audio is loaded at [target_sr]. *)
Definition pipeline (np : NumPy) (lib : Librosa) (sk : Sklearn)
    (audio : list Q) (transcript_segments : list Utterance)
    (vad_user : VadOptions) (diar_user : DiarOptions) (merge_gap : option Q)
    : option (list SpeechSegment) :=
  match Vad.energy_vad np audio target_sr (vad_options vad_user) with
  | None => None
  | Some segments =>
      match FeatureExtractor.extract_features np lib audio target_sr segments with
      | None => None
      | Some features =>
          match Diarizer.diarize_segments sk segments features
                  (diarization_options diar_user) with
          | None => None
          | Some diarized_segments =>
              Merger.merge_transcript_segments transcript_segments
                diarized_segments (Py.get merge_gap default_merge_gap)
          end
      end
  end.

End Main.

(* ================================================================== *)
(** * Predicates used to state the properties *)
(* ================================================================== *)

(** The midpoint of the utterance [[s, e)] lies in the closed interval of
    [segment]. *)
Definition midpoint_in (s e : Q) (segment : SpeechSegment) : Prop :=
  start segment <= (s + e) / 2 /\ (s + e) / 2 <= end_ segment.

(** The segment the three-tier policy of the aligner may pick: one that
    contains the midpoint; or, when none does, one of largest overlap, the
    overlap being positive; or, when none overlaps either, one whose
    nearer boundary is nearest to the midpoint. *)
Definition chosen_by_policy (s e : Q) (segments : list SpeechSegment)
    (seg : SpeechSegment) : Prop :=
  midpoint_in s e seg
  \/ (Forall (fun x => ~ midpoint_in s e x) segments
      /\ 0 < Aligner.overlap s e seg
      /\ Forall (fun x => Aligner.overlap s e x <= Aligner.overlap s e seg)
           segments)
  \/ (Forall (fun x => ~ midpoint_in s e x) segments
      /\ Forall (fun x => Aligner.overlap s e x <= 0) segments
      /\ Forall (fun x => Aligner.boundary_distance ((s + e) / 2) seg
                          <= Aligner.boundary_distance ((s + e) / 2) x)
           segments).

(** A VAD interval lies inside the buffer: [0 <= start <= end <= dur]. *)
Definition interval_within (dur : Q) (iv : Interval) : Prop :=
  0 <= fst iv /\ fst iv <= snd iv /\ snd iv <= dur.

(** Sorted by start time: every earlier interval starts no later than
    every later one. *)
Definition sorted_by_start (l : list Interval) : Prop :=
  ForallOrdPairs (fun a b => fst a <= fst b) l.

(** Two intervals do not overlap: one ends before the other starts (a
    shared boundary point is allowed). *)
Definition apart (a b : Interval) : Prop :=
  snd a <= fst b \/ snd b <= fst a.

(** Pairwise non-overlapping. *)
Definition non_overlapping (l : list Interval) : Prop :=
  ForallOrdPairs apart l.

(** [a] starts and ends no later than [b] starts. *)
Definition precedes (a b : Interval) : Prop :=
  fst a <= fst b /\ snd a <= fst b.

(** Every interval precedes every later one. *)
Definition chained (l : list Interval) : Prop :=
  ForallOrdPairs precedes l.

(** The earliest frame index the next candidate can start at. *)
Definition next_start (index : Z) (current_start : option Z) : Z :=
  match current_start with Some cs => cs | None => index end.

(** The interval of a diarized segment. *)
Definition interval_of (seg : SpeechSegment) : Interval :=
  (start seg, end_ seg).

(** A candidate speaker count the sweep scores: above 1, at most the row
    count, and with a clustering of more than one label. *)
Definition valid_candidate (sk : Sklearn) (features : Features) (k : Z) : bool :=
  ((1 <? k) && (k <=? Estimator.rows features))%Z
  && match fit_predict sk features k with
     | Some labels => (1 <? Py.distinct_count labels)%Z
     | None => false
     end.

(** The cluster-quality score of candidate [k], when both library calls
    return. *)
Definition score_of (sk : Sklearn) (features : Features) (k : Z) : option Q :=
  match fit_predict sk features k with
  | Some labels => silhouette_score sk features labels
  | None => None
  end.

(** The text of a merged segment as the merger leaves it: non-empty and
    without surrounding whitespace. *)
Definition trimmed_text (t : Py.str) : Prop :=
  t <> [] /\ Py.strip t = t.

(** Every text of the list is non-empty and trimmed. *)
Definition all_trimmed (merged : list SpeechSegment) : Prop :=
  Forall (fun seg => trimmed_text (text seg)) merged.

(** The part of [interval_within] the scan maintains on every candidate:
    a start that is not negative and an end within the buffer. *)
Definition bounded (dur : Q) (iv : Interval) : Prop :=
  0 <= fst iv /\ snd iv <= dur.

(** The counts the sweep visits and scores. *)
Definition sweep_candidate (sk : Sklearn) (features : Features)
    (diar_options : DiarOptions) (k : Z) : Prop :=
  (Py.get (min_speakers diar_options) DEFAULT_DIARIZATION_OPTIONS.min_speakers
   <= k
   <= Z.min (Py.get (max_speakers diar_options)
               DEFAULT_DIARIZATION_OPTIONS.max_speakers)
            (Estimator.rows features))%Z
  /\ valid_candidate sk features k = true.

(** Sortedness of diarized segments, on their start field. *)
Definition starts_ascend (l : list SpeechSegment) : Prop :=
  ForallOrdPairs (fun a b => start a <= start b) l.

(* ================================================================== *)
(** * Reference numerics and concrete inputs *)
(* ================================================================== *)

Module Reference.

Definition Qsum (l : list Q) : Q := fold_right Qplus 0 l.

Definition Qmean (l : list Q) : Q := Qred (Qsum l / inject_Z (Py.len l)).

(** Square root on rationals: exact on squares of rationals, rounded
    down to a multiple of [1 / Qden q] otherwise. *)
Definition Qsqrt (q : Q) : Q :=
  let r := Qred q in
  Qred (Z.sqrt (Qnum r * Zpos (Qden r)) # Qden r).

Definition rms (frame : list Q) : Q :=
  Qsqrt (Qmean (map (fun x => x * x) frame)).

Definition std (l : list Q) : Q :=
  let m := Qmean l in
  Qsqrt (Qmean (map (fun x => (x - m) * (x - m)) l)).

(** numpy with exact means and the square root above; float32 storage
    keeps the small dyadic values of the examples unchanged. *)
Definition numpy : NumPy := mkNumPy rms (fun x => x) Qmean std.

(** No option supplied: every key falls back to its default. *)
Definition no_vad_options : VadOptions :=
  mkVadOptions None None None None None None None.

(** [{"hop_length": -0.01}] *)
Definition negative_hop : VadOptions :=
  mkVadOptions None (Some (- (1 # 100))) None None None None None.

(** [{"thr": 0}] *)
Definition thr_zero : VadOptions :=
  mkVadOptions None None None None None (Some 0) None.

(** [{"threshold": 0}] *)
Definition threshold_zero : VadOptions :=
  mkVadOptions None None None None None None (Some 0).

(** Three one-dimensional feature rows: two close together, one far. *)
Definition three_rows : Features := [[0]; [1]; [10]].

(** scikit-learn on [three_rows].  Two clusters: the two close rows
    share a label, and the silhouette values are 9/10, 8/9 and 0
    (singleton cluster), whose mean is 161/270.  Three clusters: one label
    per row, for which the scorer raises (as many labels as rows).  More
    clusters than rows: the clusterer raises. *)
Definition sklearn_three_rows : Sklearn :=
  mkSklearn
    (fun _ k =>
       if (k =? 1)%Z then Some [0; 0; 0]%Z
       else if (k =? 2)%Z then Some [0; 0; 1]%Z
       else if (k =? 3)%Z then Some [0; 1; 2]%Z
       else None)
    (fun features labels =>
       if ((2 <=? Py.distinct_count labels)
           && (Py.distinct_count labels <=? Py.len features - 1))%Z
       then Some (161 # 270) else None).

(** [{"num_speakers": 0, "min_speakers": 2, "max_speakers": 2}] *)
Definition num_speakers_zero : DiarOptions :=
  mkDiarOptions (Some 2%Z) (Some 2%Z) (Some 0%Z).

(** [{"num_speakers": 1}] *)
Definition one_speaker : DiarOptions :=
  mkDiarOptions None None (Some 1%Z).

(** [{"num_speakers": 3}] *)
Definition three_speakers : DiarOptions :=
  mkDiarOptions None None (Some 3%Z).

(** [{"min_speakers": 2, "max_speakers": 2}] *)
Definition two_speakers_at_most : DiarOptions :=
  mkDiarOptions (Some 2%Z) (Some 2%Z) None.

(** Two intervals given latest first, and their two feature rows. *)
Definition unsorted_intervals : list Interval := [(5, 6); (0, 1)].

Definition two_rows : Features := [[0]; [10]].

(** One diarized turn of speaker 0 over the first two seconds. *)
Definition one_turn : list SpeechSegment :=
  [mkSpeechSegment 0 2 0 (Py.lit "")].

(** Two diarized turns of two speakers. *)
Definition two_turns : list SpeechSegment :=
  [mkSpeechSegment 0 2 0 (Py.lit ""); mkSpeechSegment 3 5 1 (Py.lit "")].

(** The utterances of the end-to-end scenario. *)
Definition hello_world : list Utterance :=
  [mkUtterance 0 1 (Py.lit "hello");
   mkUtterance (12 # 10) 2 (Py.lit " world ")].

End Reference.


(* ================================================================== *)
(** * Further predicates and concrete inputs *)
(* ================================================================== *)

(** Of two VAD intervals in order, the later one starts no earlier than
    the first starts, and at least [min_sil] after the first ends. *)
Definition separated (min_sil : Q) (a b : Interval) : Prop :=
  fst a <= fst b /\ min_sil <= fst b - snd a.

(** The frames of lines 72-73, before their energies are taken. *)
Definition vad_frames (audio : list Q) (sr : Z) (options : VadOptions)
    : list (list Q) :=
  map (fun st => Py.slice audio st (Vad.frame_samples sr options))
      (Py.range 0 (Py.len audio - Vad.frame_samples sr options + 1)
         (Vad.hop_samples sr options)).

(** Librosa returns, with the shapes it documents: [mfcc] gives
    [n_mfcc] rows of one common width, and [delta] an array of the shape
    it was given. *)
Definition librosa_shapes (lib : Librosa) : Prop :=
  (forall y sr n, exists m t,
      mfcc lib y sr n = Some m
      /\ map (@List.length Q) m = repeat t (Z.to_nat n))
  /\ (forall m order, exists d,
      delta lib m order = Some d
      /\ map (@List.length Q) d = map (@List.length Q) m).

(** The default diarization options: no key supplied. *)
Definition default_diar_options : DiarOptions :=
  mkDiarOptions None None None.

(** A property of every two neighbours of a list. *)
Fixpoint adjacent {A : Type} (R : A -> A -> Prop) (l : list A) : Prop :=
  match l with
  | a :: (b :: _) as rest => R a b /\ adjacent R rest
  | _ => True
  end.

(** Two merged turns in a row that the coalescing rule keeps apart: the
    speakers differ, or the second starts more than [gap] after the end
    of the first. *)
Definition kept_apart (gap : Q) (a b : SpeechSegment) : Prop :=
  speaker a <> speaker b \/ gap < start b - end_ a.

(** A merged turn spans utterances of the list: it starts with one and
    ends with one, both non-blank and assigned to the turn's speaker. *)
Definition spans_utterances (diar : list SpeechSegment) (us : list Utterance)
    (seg : SpeechSegment) : Prop :=
  (exists u, In u us /\ Py.strip (u_text u) <> [] /\ start seg = u_start u
     /\ Aligner.assign_speaker_for_interval (u_start u) (u_end u) diar
        = Some (speaker seg))
  /\ (exists v, In v us /\ Py.strip (u_text v) <> [] /\ end_ seg = u_end v
       /\ Aligner.assign_speaker_for_interval (u_start v) (u_end v) diar
          = Some (speaker seg)).

(** The trimmed texts of the utterances that are not blank, in order. *)
Definition nonblank_texts (us : list Utterance) : list Py.str :=
  filter (fun t => negb (Py.is_empty t)) (map (fun u => Py.strip (u_text u)) us).

(** The segments [save_transcripts] writes, with their positions counted
    from [index]. *)
Fixpoint exported (index : Z) (merged : list SpeechSegment)
    : list (Z * SpeechSegment) :=
  match merged with
  | [] => []
  | segment :: rest =>
      if Py.is_empty (Py.strip (text segment))
      then exported (index + 1) rest
      else (index, segment) :: exported (index + 1) rest
  end.

(** The subtitle and the text line [save_transcripts] builds for the
    segment at position [index]. *)
Definition subtitle_of (entry : Z * SpeechSegment) : Subtitle :=
  mkSubtitle (fst entry) (start (snd entry)) (end_ (snd entry))
    (Exporter.content_of (snd entry) (Py.strip (text (snd entry)))).

Definition txt_line_of (ff : FloatFormat) (entry : Z * SpeechSegment) : Py.str :=
  Exporter.line_of ff (snd entry) (Py.strip (text (snd entry))).

(** The segments of a list with their positions counted from [index]. *)
Fixpoint enumerate_from (index : Z) (merged : list SpeechSegment)
    : list (Z * SpeechSegment) :=
  match merged with
  | [] => []
  | segment :: rest => (index, segment) :: enumerate_from (index + 1) rest
  end.

Module Samples.

(** A stand-in for librosa that has the documented shapes: two frames
    per coefficient, and a delta that copies its input. *)
Definition librosa : Librosa :=
  mkLibrosa (fun _ _ n => Some (repeat [0; 0] (Z.to_nat n)))
    (fun m _ => Some m).

(** A float rendering for whole seconds below ten: [d] becomes
    [0d.000]. *)
Definition whole_seconds : FloatFormat :=
  mkFloatFormat
    (fun q => Py.lit "0" ++ PyMore.format_d (Qfloor q) ++ Py.lit ".000").

(** [{"frame_length": 1, "hop_length": 1, "thr": 0.5}]: at one sample
    per second every sample is a frame. *)
Definition one_second_frames : VadOptions :=
  mkVadOptions (Some 1) (Some 1) None None None (Some (1 # 2)) None.

(** Two bursts, of one and of two samples. *)
Definition two_bursts : list Q := [0; 1; 0; 0; 1; 1].

(** [{"frame_length": 1/16000, "hop_length": 1/16000, "thr": 0.5,
    "min_speech": 0, "min_silence": 0}]: at 16 kHz every sample is a
    frame, and no interval is dropped or joined to its neighbour. *)
Definition sample_frames : VadOptions :=
  mkVadOptions (Some (1 # 16000)) (Some (1 # 16000)) None (Some 0) (Some 0)
    (Some (1 # 2)) None.

(** Three bursts of one sample each. *)
Definition three_bursts : list Q := [0; 1; 0; 1; 0; 1; 0].

(** Two utterances of the same turn, a blank one between them. *)
Definition with_blank : list Utterance :=
  [mkUtterance 0 1 (Py.lit "hello"); mkUtterance 1 (11 # 10) (Py.lit "  ");
   mkUtterance (12 # 10) 2 (Py.lit " world ")].

(** Two utterances of two different turns. *)
Definition two_speakers_talk : list Utterance :=
  [mkUtterance 0 1 (Py.lit "hello"); mkUtterance (35 # 10) 4 (Py.lit "hi")].

End Samples.

(* ================================================================== *)
(** * Comparison and list facts *)
(* ================================================================== *)

Lemma Qltb_lt (a b : Q) : Py.Qltb a b = true <-> a < b.
Proof.
  unfold Py.Qltb. rewrite negb_true_iff.
  split; intro H.
  - apply Qnot_le_lt. intro Hle. apply Qle_bool_iff in Hle. congruence.
  - destruct (Qle_bool b a) eqn:E; [|reflexivity].
    apply Qle_bool_iff in E. exfalso. apply (Qlt_not_le _ _ H E).
Qed.

Lemma Qltb_ge (a b : Q) : Py.Qltb a b = false <-> b <= a.
Proof.
  unfold Py.Qltb. rewrite negb_false_iff. apply Qle_bool_iff.
Qed.

Lemma Qle_bool_false (a b : Q) : Qle_bool a b = false <-> b < a.
Proof.
  rewrite <- Qltb_lt. unfold Py.Qltb.
  destruct (Qle_bool a b); simpl; split; congruence.
Qed.

Lemma min_le_l (a b : Q) : Py.min a b <= a.
Proof.
  unfold Py.min. destruct (Py.Qltb b a) eqn:E.
  - apply Qltb_lt in E. apply Qlt_le_weak, E.
  - apply Qle_refl.
Qed.

Lemma split_last_app {A : Type} (init : list A) (l : A) :
  Py.split_last (init ++ [l]) = Some (init, l).
Proof.
  induction init as [|x init IH]; simpl; [reflexivity|].
  rewrite IH. reflexivity.
Qed.

Lemma split_last_some {A : Type} (xs init : list A) (l : A) :
  Py.split_last xs = Some (init, l) -> xs = init ++ [l].
Proof.
  revert init l. induction xs as [|x xs IH]; intros init l H; simpl in H.
  - discriminate.
  - destruct (Py.split_last xs) as [[i' l']|] eqn:E.
    + inversion H; subst. simpl. f_equal. apply IH. reflexivity.
    + inversion H; subst. destruct xs as [|y ys]; [reflexivity|].
      simpl in E. destruct (Py.split_last ys) as [[? ?]|]; discriminate.
Qed.

Lemma split_last_none {A : Type} (xs : list A) :
  Py.split_last xs = None -> xs = [].
Proof.
  destruct xs as [|x xs]; [reflexivity|]. simpl.
  destruct (Py.split_last xs) as [[? ?]|]; discriminate.
Qed.

Lemma in_range_unit (a b k : Z) :
  In k (Py.range a b 1) <-> (a <= k < b)%Z.
Proof.
  unfold Py.range. rewrite in_map_iff. split.
  - intros [i [Hi Hin]]. apply in_seq in Hin.
    rewrite Z.div_1_r in Hin. lia.
  - intros H. exists (Z.to_nat (k - a)). split; [lia|].
    apply in_seq. rewrite Z.div_1_r. lia.
Qed.

(* ================================================================== *)
(** * Interval aligner *)
(* ================================================================== *)

Lemma contains_midpoint_in (s e : Q) (segment : SpeechSegment) :
  Aligner.contains ((s + e) / 2) segment = true <-> midpoint_in s e segment.
Proof.
  unfold Aligner.contains, midpoint_in.
  rewrite andb_true_iff, !Qle_bool_iff. tauto.
Qed.

Lemma scan_first_match (s e m : Q) (pre : list SpeechSegment) :
  forall (seg : SpeechSegment) (post : list SpeechSegment)
         (idx : nat) (bi : option nat) (bo : Q),
    (forall x, In x pre -> Aligner.contains m x = false) ->
    Aligner.contains m seg = true ->
    Aligner.scan s e m idx bi bo (pre ++ seg :: post) = inl (speaker seg).
Proof.
  induction pre as [|p pre IH]; intros seg post idx bi bo Hpre Hseg; simpl.
  - destruct (Py.Qltb bo (Aligner.overlap s e seg)); rewrite Hseg; reflexivity.
  - assert (Hp : Aligner.contains m p = false) by (apply Hpre; left; reflexivity).
    destruct (Py.Qltb bo (Aligner.overlap s e p)); rewrite Hp;
      apply IH; auto; intros x Hx; apply Hpre; right; exact Hx.
Qed.

(** An early return hands back the speaker of a scanned segment that
    contains the midpoint. *)
Lemma scan_inl_member (s e m : Q) (segments : list SpeechSegment) :
  forall idx bi bo spk,
    Aligner.scan s e m idx bi bo segments = inl spk ->
    exists seg,
      In seg segments /\ speaker seg = spk /\ Aligner.contains m seg = true.
Proof.
  induction segments as [|x rest IH]; intros idx bi bo spk H; simpl in H.
  - discriminate.
  - destruct (Aligner.contains m x) eqn:C.
    + destruct (Py.Qltb bo (Aligner.overlap s e x)); inversion H;
        exists x; (split; [left; reflexivity|split; [reflexivity|exact C]]).
    + destruct (Py.Qltb bo (Aligner.overlap s e x)); apply IH in H;
        destruct H as [seg [Hin Hs]]; exists seg; (split; [right|]; assumption).
Qed.

(** When the scan runs out, no segment contains the midpoint, and the
    best index is either the one it started with (no overlap above the
    starting best) or the position of a segment of largest overlap. *)
Lemma scan_inr_best (s e m : Q) (segments : list SpeechSegment) :
  forall idx bi bo r,
    Aligner.scan s e m idx bi bo segments = inr r ->
    Forall (fun x => Aligner.contains m x = false) segments
    /\ ((r = bi
         /\ Forall (fun x => Aligner.overlap s e x <= bo) segments)
        \/ (exists i seg,
              r = Some i /\ (idx <= i)%nat
              /\ nth_error segments (i - idx) = Some seg
              /\ bo < Aligner.overlap s e seg
              /\ Forall (fun x => Aligner.overlap s e x
                                  <= Aligner.overlap s e seg) segments)).
Proof.
  induction segments as [|x rest IH]; intros idx bi bo r H; simpl in H.
  - inversion H; subst. split; [constructor|]. left. split; [reflexivity|constructor].
  - destruct (Aligner.contains m x) eqn:C;
      [destruct (Py.Qltb bo (Aligner.overlap s e x)); discriminate|].
    destruct (Py.Qltb bo (Aligner.overlap s e x)) eqn:L.
    + apply Qltb_lt in L. apply IH in H.
      destruct H as [Hc [[-> Hall]|[i [seg [-> [Hi [Hn [Hlt Hall]]]]]]]];
        (split; [constructor; assumption|]); right.
      * exists idx, x. split; [reflexivity|]. split; [lia|].
        rewrite Nat.sub_diag. split; [reflexivity|]. split; [exact L|].
        constructor; [apply Qle_refl|exact Hall].
      * exists i, seg. split; [reflexivity|]. split; [lia|].
        replace (i - idx)%nat with (S (i - S idx)) by lia.
        split; [exact Hn|]. split; [lra|].
        constructor; [lra|exact Hall].
    + apply Qltb_ge in L. apply IH in H.
      destruct H as [Hc [[-> Hall]|[i [seg [-> [Hi [Hn [Hlt Hall]]]]]]]];
        (split; [constructor; assumption|]).
      * left. split; [reflexivity|]. constructor; assumption.
      * right. exists i, seg. split; [reflexivity|]. split; [lia|].
        replace (i - idx)%nat with (S (i - S idx)) by lia.
        split; [exact Hn|]. split; [exact Hlt|].
        constructor; [lra|exact Hall].
Qed.

(** [argmin_from] keeps the starting index when nothing is smaller than
    the starting best, and otherwise points at a least element. *)
Lemma argmin_from_spec (xs : list Q) :
  forall idx best_idx best,
    let r := Py.argmin_from idx best_idx best xs in
    (r = best_idx /\ Forall (fun x => best <= x) xs)
    \/ (exists d,
          (idx <= r)%nat /\ nth_error xs (r - idx) = Some d
          /\ d < best /\ Forall (fun x => d <= x) xs).
Proof.
  induction xs as [|x rest IH]; intros idx best_idx best; simpl.
  - left. split; [reflexivity|constructor].
  - destruct (Py.Qltb x best) eqn:L.
    + apply Qltb_lt in L. right.
      destruct (IH (S idx) idx x) as [[Hr Hall]|[d [Hi [Hn [Hlt Hall]]]]].
      * exists x. rewrite Hr, Nat.sub_diag. split; [lia|].
        split; [reflexivity|]. split; [exact L|].
        constructor; [apply Qle_refl|exact Hall].
      * exists d. split; [lia|].
        replace (Py.argmin_from (S idx) idx x rest - idx)%nat
          with (S (Py.argmin_from (S idx) idx x rest - S idx)) by lia.
        split; [exact Hn|]. split; [lra|]. constructor; [lra|exact Hall].
    + apply Qltb_ge in L.
      destruct (IH (S idx) best_idx best) as [[Hr Hall]|[d [Hi [Hn [Hlt Hall]]]]].
      * left. split; [exact Hr|]. constructor; assumption.
      * right. exists d. split; [lia|].
        replace (Py.argmin_from (S idx) best_idx best rest - idx)%nat
          with (S (Py.argmin_from (S idx) best_idx best rest - S idx)) by lia.
        split; [exact Hn|]. split; [exact Hlt|]. constructor; [lra|exact Hall].
Qed.

Lemma argmin_spec (xs : list Q) :
  xs <> [] ->
  exists d, nth_error xs (Py.argmin xs) = Some d /\ Forall (fun x => d <= x) xs.
Proof.
  destruct xs as [|x rest]; [congruence|]. intros _. simpl.
  destruct (argmin_from_spec rest 1 0 x) as [[Hr Hall]|[d [Hi [Hn [Hlt Hall]]]]].
  - exists x. rewrite Hr. split; [reflexivity|].
    constructor; [apply Qle_refl|exact Hall].
  - exists d.
    replace (Py.argmin_from 1 0 x rest)
      with (S (Py.argmin_from 1 0 x rest - 1)) at 1 by lia.
    split; [exact Hn|]. constructor; [lra|exact Hall].
Qed.

(** The aligner on a sequence split at the first segment that contains
    the midpoint. *)
Lemma assign_speaker_at_first_match (s e : Q) (pre : list SpeechSegment)
    (seg : SpeechSegment) (post : list SpeechSegment) :
  Forall (fun x => ~ midpoint_in s e x) pre ->
  midpoint_in s e seg ->
  Aligner.assign_speaker_for_interval s e (pre ++ seg :: post)
  = Some (speaker seg).
Proof.
  intros Hpre Hseg.
  unfold Aligner.assign_speaker_for_interval.
  destruct (pre ++ seg :: post) eqn:E.
  - destruct pre; discriminate.
  - rewrite <- E. rewrite scan_first_match; [reflexivity| |].
    + intros x Hx. destruct (Aligner.contains ((s + e) / 2) x) eqn:C; [|reflexivity].
      apply contains_midpoint_in in C. rewrite Forall_forall in Hpre.
      exfalso. exact (Hpre x Hx C).
    + apply contains_midpoint_in. exact Hseg.
Qed.

(** A sequence with a segment that contains the midpoint splits at the
    first such segment. *)
Lemma first_containing_segment (s e : Q) (segments : list SpeechSegment) :
  Exists (midpoint_in s e) segments ->
  exists pre seg post,
    segments = pre ++ seg :: post
    /\ Forall (fun x => ~ midpoint_in s e x) pre
    /\ midpoint_in s e seg.
Proof.
  induction segments as [|x rest IH]; intro H.
  - inversion H.
  - destruct (Aligner.contains ((s + e) / 2) x) eqn:C.
    + exists [], x, rest. split; [reflexivity|]. split; [constructor|].
      apply contains_midpoint_in. exact C.
    + assert (Hx : ~ midpoint_in s e x).
      { intro Hm. apply contains_midpoint_in in Hm. congruence. }
      inversion H as [? ? Hm|? ? Hrest]; subst; [contradiction|].
      destruct (IH Hrest) as [pre [seg [post [-> [Hpre Hseg]]]]].
      exists (x :: pre), seg, post. split; [reflexivity|].
      split; [constructor; assumption|exact Hseg].
Qed.

(** C1.  If the midpoint of the utterance lies in the closed interval of
    some diarized segment, [assign_speaker_for_interval] returns the
    speaker of the first such segment in scan order: the sequence splits
    as [pre ++ seg :: post] where no segment of [pre] contains the
    midpoint, [seg] does, and the result is the speaker of [seg], whatever
    the overlaps of the other segments with the utterance are.  (This
    needs no sortedness of the sequence.) *)
Theorem assign_speaker_first_containing_segment :
  forall (s e : Q) (segments : list SpeechSegment),
    Exists (midpoint_in s e) segments ->
    exists pre seg post,
      segments = pre ++ seg :: post
      /\ Forall (fun x => ~ midpoint_in s e x) pre
      /\ midpoint_in s e seg
      /\ Aligner.assign_speaker_for_interval s e segments
         = Some (speaker seg).
Proof.
  intros s e segments H.
  destruct (first_containing_segment s e segments H)
    as [pre [seg [post [-> [Hpre Hseg]]]]].
  exists pre, seg, post. split; [reflexivity|]. split; [exact Hpre|].
  split; [exact Hseg|]. apply assign_speaker_at_first_match; assumption.
Qed.

Lemma assign_speaker_first_containing_segment_witness :
  exists pre seg post,
    [mkSpeechSegment 0 2 0 []; mkSpeechSegment 3 5 1 [];
     mkSpeechSegment 3 4 2 []] = pre ++ seg :: post
    /\ Forall (fun x => ~ midpoint_in (5 # 2) (7 # 2) x) pre
    /\ midpoint_in (5 # 2) (7 # 2) seg
    /\ Aligner.assign_speaker_for_interval (5 # 2) (7 # 2)
         [mkSpeechSegment 0 2 0 []; mkSpeechSegment 3 5 1 [];
          mkSpeechSegment 3 4 2 []]
       = Some (speaker seg).
Proof.
  apply (assign_speaker_first_containing_segment (5 # 2) (7 # 2)).
  apply Exists_cons_tl, Exists_cons_hd.
  unfold midpoint_in; simpl. split; discriminate.
Defined.

(** On a non-empty sequence the aligner returns the speaker of one of the
    given segments, chosen by the three-tier policy. *)
Lemma assign_speaker_policy (s e : Q) (segments : list SpeechSegment) :
  segments <> [] ->
  exists seg,
    In seg segments
    /\ Aligner.assign_speaker_for_interval s e segments = Some (speaker seg)
    /\ chosen_by_policy s e segments seg.
Proof.
  intros Hne. unfold Aligner.assign_speaker_for_interval.
  destruct segments as [|x rest] eqn:E; [congruence|]. rewrite <- E in *.
  assert (Hnc : Forall (fun x => Aligner.contains ((s + e) / 2) x = false) segments ->
                Forall (fun x => ~ midpoint_in s e x) segments).
  { apply Forall_impl. intros y Hy Hm.
    apply contains_midpoint_in in Hm. congruence. }
  destruct (Aligner.scan s e ((s + e) / 2) 0 None 0 segments) as [spk|r] eqn:S.
  - apply scan_inl_member in S. destruct S as [seg [Hin [Hs Hc]]].
    exists seg. split; [exact Hin|]. split; [congruence|].
    left. apply contains_midpoint_in. exact Hc.
  - apply scan_inr_best in S.
    destruct S as [Hc [[-> Hall]|[i [seg [-> [_ [Hn [Hlt Hall]]]]]]]].
    + destruct (argmin_spec
                  (map (Aligner.boundary_distance ((s + e) / 2)) segments))
        as [d [Hn Hmin]]; [rewrite E; discriminate|].
      rewrite nth_error_map in Hn.
      destruct (nth_error segments
                  (Py.argmin (map (Aligner.boundary_distance ((s + e) / 2))
                                segments))) as [seg|] eqn:Hseg;
        [|discriminate].
      inversion Hn; subst d.
      exists seg. split; [eapply nth_error_In; exact Hseg|].
      split; [unfold Aligner.speaker_at; rewrite Hseg; reflexivity|].
      right. right. split; [apply Hnc, Hc|]. split; [exact Hall|].
      rewrite Forall_map in Hmin. exact Hmin.
    + rewrite Nat.sub_0_r in Hn.
      exists seg. split; [eapply nth_error_In; exact Hn|].
      split; [unfold Aligner.speaker_at; rewrite Hn; reflexivity|].
      right. left. split; [apply Hnc, Hc|]. split; assumption.
Qed.

Lemma assign_speaker_returns (s e : Q) (segments : list SpeechSegment) :
  exists spk, Aligner.assign_speaker_for_interval s e segments = Some spk.
Proof.
  destruct segments as [|x rest] eqn:E.
  - exists 0%Z. reflexivity.
  - destruct (assign_speaker_policy s e (x :: rest)) as [seg [_ [H _]]];
      [discriminate|]. exists (speaker seg). exact H.
Qed.

(** C10.  [assign_speaker_for_interval] always returns (no index error):
    speaker 0 on an empty sequence, and otherwise the speaker of some
    segment of the given sequence, namely one that contains the midpoint,
    or (none containing it) one of largest positive overlap, or (no
    positive overlap either) one whose nearer boundary is nearest to the
    midpoint. *)
Theorem assign_speaker_total_and_from_input :
  forall (s e : Q) (segments : list SpeechSegment),
    (segments = [] ->
       Aligner.assign_speaker_for_interval s e segments = Some 0%Z)
    /\ (segments <> [] ->
       exists seg,
         In seg segments
         /\ Aligner.assign_speaker_for_interval s e segments
            = Some (speaker seg)
         /\ chosen_by_policy s e segments seg).
Proof.
  intros s e segments. split.
  - intros ->. reflexivity.
  - apply assign_speaker_policy.
Qed.


(** The three tiers on two turns [[0, 2]] (speaker 0) and [[3, 5]]
    (speaker 1): a midpoint inside the second turn; a midpoint in the gap
    with the larger overlap on the second turn; no overlap and the second
    turn nearer; no overlap and a tie of distances, where the first turn
    wins. *)
Example assign_speaker_two_turns :
  Aligner.assign_speaker_for_interval 3 4 Reference.two_turns = Some 1%Z
  /\ Aligner.assign_speaker_for_interval 1 (42 # 10) Reference.two_turns
     = Some 1%Z
  /\ Aligner.assign_speaker_for_interval (21 # 10) 3 Reference.two_turns
     = Some 1%Z
  /\ Aligner.assign_speaker_for_interval 2 3 Reference.two_turns = Some 0%Z.
Proof. repeat split; reflexivity. Qed.


(* ================================================================== *)
(** * [str.strip] *)
(* ================================================================== *)

Lemma lstrip_head (s : Py.str) (c : N) (r : Py.str) :
  Py.lstrip s = c :: r -> Py.isspace c = false.
Proof.
  induction s as [|d s IH]; simpl; intro H; [discriminate|].
  destruct (Py.isspace d) eqn:E; [auto|]. inversion H; subst. exact E.
Qed.

Lemma lstrip_nonspace (c : N) (r : Py.str) :
  Py.isspace c = false -> Py.lstrip (c :: r) = c :: r.
Proof. intro H. simpl. rewrite H. reflexivity. Qed.

Lemma rstrip_nonspace (c : N) (r : Py.str) :
  Py.isspace c = false -> Py.rstrip (c :: r) = c :: Py.rstrip r.
Proof.
  intro H. simpl. destruct (Py.rstrip r); [rewrite H|]; reflexivity.
Qed.

Lemma rstrip_idempotent (s : Py.str) : Py.rstrip (Py.rstrip s) = Py.rstrip s.
Proof.
  induction s as [|c s IH]; simpl; [reflexivity|].
  destruct (Py.rstrip s) as [|d r] eqn:E.
  - destruct (Py.isspace c) eqn:C; simpl; [reflexivity|]. rewrite C. reflexivity.
  - change (Py.rstrip (c :: d :: r))
      with (match Py.rstrip (d :: r) with
            | [] => if Py.isspace c then [] else [c]
            | r' => c :: r'
            end).
    rewrite IH. reflexivity.
Qed.

Lemma strip_idempotent (s : Py.str) : Py.strip (Py.strip s) = Py.strip s.
Proof.
  unfold Py.strip. destruct (Py.lstrip s) as [|c r] eqn:E; [reflexivity|].
  pose proof (lstrip_head _ _ _ E) as C.
  rewrite (rstrip_nonspace c r C), (lstrip_nonspace _ _ C).
  rewrite <- (rstrip_nonspace c r C). apply rstrip_idempotent.
Qed.

(** A trimmed text starts with a character that is not whitespace and is
    a fixed point of [rstrip]. *)
Lemma trimmed_text_shape (t : Py.str) :
  trimmed_text t ->
  exists c r, t = c :: r /\ Py.isspace c = false /\ Py.rstrip t = t.
Proof.
  intros [Hne Hs]. unfold Py.strip in Hs.
  destruct (Py.lstrip t) as [|c r] eqn:E.
  - simpl in Hs. congruence.
  - pose proof (lstrip_head _ _ _ E) as C.
    rewrite (rstrip_nonspace c r C) in Hs.
    exists c, (Py.rstrip r). split; [auto|]. split; [exact C|].
    rewrite <- Hs at 1. rewrite <- (rstrip_nonspace c r C).
    rewrite rstrip_idempotent, (rstrip_nonspace c r C). exact Hs.
Qed.

Lemma strip_trimmed (s : Py.str) :
  Py.strip s <> [] -> trimmed_text (Py.strip s).
Proof. intro H. split; [exact H|apply strip_idempotent]. Qed.

Lemma rstrip_append (x y : Py.str) :
  y <> [] -> Py.rstrip y = y -> Py.rstrip (x ++ y) = x ++ y.
Proof.
  intros Hne Hy. induction x as [|c x IH]; simpl; [exact Hy|].
  rewrite IH. destruct (x ++ y) eqn:E; [|reflexivity].
  apply app_eq_nil in E. destruct E. congruence.
Qed.

(** Joining two trimmed texts with one space gives a trimmed text, so the
    [strip] of line 246 leaves the joined text unchanged. *)
Lemma strip_joined (a b : Py.str) :
  trimmed_text a -> trimmed_text b ->
  Py.strip (a ++ Py.lit " " ++ b) = a ++ Py.lit " " ++ b.
Proof.
  intros Ha Hb.
  destruct (trimmed_text_shape a Ha) as [c [r [-> [C _]]]].
  destruct (trimmed_text_shape b Hb) as [d [r' [Eb [_ Rb]]]].
  unfold Py.strip.
  rewrite <- app_comm_cons, (lstrip_nonspace _ _ C).
  rewrite app_comm_cons, app_assoc.
  apply rstrip_append; [subst b; discriminate|exact Rb].
Qed.

Lemma joined_trimmed (a b : Py.str) :
  trimmed_text a -> trimmed_text b ->
  trimmed_text (Py.strip (a ++ Py.lit " " ++ b)).
Proof.
  intros Ha Hb. apply strip_trimmed. rewrite (strip_joined a b Ha Hb).
  destruct (trimmed_text_shape a Ha) as [c [r [-> _]]]. discriminate.
Qed.

Lemma is_empty_true (s : Py.str) : Py.is_empty s = true <-> s = [].
Proof. destruct s; simpl; split; congruence. Qed.


(* ================================================================== *)
(** * Transcript merger *)
(* ================================================================== *)

Lemma merge_step_returns diar gap merged u :
  exists merged', Merger.merge_step diar gap merged u = Some merged'.
Proof.
  unfold Merger.merge_step.
  destruct (Py.is_empty (Py.strip (u_text u))); [eauto|].
  destruct (assign_speaker_returns (u_start u) (u_end u) diar) as [spk ->].
  destruct (Py.split_last merged) as [[init last]|]; [|eauto].
  destruct ((speaker last =? spk)%Z
            && Qle_bool (u_start u - end_ last) gap); eauto.
Qed.

Lemma merge_loop_returns diar gap us :
  forall merged, exists out, Merger.merge_loop diar gap merged us = Some out.
Proof.
  induction us as [|u us IH]; intro merged; simpl; [eauto|].
  destruct (merge_step_returns diar gap merged u) as [m' ->]. apply IH.
Qed.

Lemma merge_loop_app diar gap a b :
  forall merged,
    Merger.merge_loop diar gap merged (a ++ b)
    = match Merger.merge_loop diar gap merged a with
      | Some merged' => Merger.merge_loop diar gap merged' b
      | None => None
      end.
Proof.
  induction a as [|u a IH]; intro merged; simpl; [reflexivity|].
  destruct (Merger.merge_step diar gap merged u); [apply IH|reflexivity].
Qed.

Lemma merge_step_trimmed diar gap merged u merged' :
  all_trimmed merged ->
  Merger.merge_step diar gap merged u = Some merged' ->
  all_trimmed merged'.
Proof.
  unfold Merger.merge_step, all_trimmed. intros Hall H.
  destruct (Py.is_empty (Py.strip (u_text u))) eqn:Em.
  - inversion H; subst. exact Hall.
  - assert (Ht : trimmed_text (Py.strip (u_text u))).
    { apply strip_trimmed. intro Hs. rewrite Hs in Em. discriminate. }
    destruct (Aligner.assign_speaker_for_interval (u_start u) (u_end u) diar)
      as [spk|]; [|discriminate].
    assert (Hfresh : Forall (fun seg => trimmed_text (text seg))
              (merged ++ [mkSpeechSegment (u_start u) (u_end u) spk
                            (Py.strip (u_text u))])).
    { apply Forall_app. split; [exact Hall|]. constructor; [exact Ht|constructor]. }
    destruct (Py.split_last merged) as [[init last]|] eqn:Es.
    + apply split_last_some in Es. subst merged.
      apply Forall_app in Hall. destruct Hall as [Hinit Hlast].
      inversion Hlast as [|? ? Hl _]; subst.
      destruct ((speaker last =? spk)%Z
                && Qle_bool (u_start u - end_ last) gap);
        inversion H; subst; [|exact Hfresh].
      apply Forall_app. split; [exact Hinit|].
      constructor; [|constructor]. simpl. apply joined_trimmed; assumption.
    + inversion H; subst. exact Hfresh.
Qed.

Lemma merge_loop_trimmed diar gap us :
  forall merged out,
    all_trimmed merged ->
    Merger.merge_loop diar gap merged us = Some out ->
    all_trimmed out.
Proof.
  induction us as [|u us IH]; intros merged out Hall H; simpl in H.
  - inversion H; subst. exact Hall.
  - destruct (Merger.merge_step diar gap merged u) as [m'|] eqn:E; [|discriminate].
    eapply IH; [|exact H]. eapply merge_step_trimmed; eauto.
Qed.

(** The coalescing branch of one step, with the joined text spelled out. *)
Lemma merge_step_coalesce diar gap init last u :
  trimmed_text (text last) ->
  Py.strip (u_text u) <> [] ->
  Aligner.assign_speaker_for_interval (u_start u) (u_end u) diar
    = Some (speaker last) ->
  u_start u - end_ last <= gap ->
  Merger.merge_step diar gap (init ++ [last]) u
  = Some (init ++ [mkSpeechSegment (start last) (u_end u) (speaker last)
                     (text last ++ Py.lit " " ++ Py.strip (u_text u))]).
Proof.
  intros Hl Hne Hspk Hgap. unfold Merger.merge_step.
  destruct (Py.is_empty (Py.strip (u_text u))) eqn:Em.
  - apply is_empty_true in Em. congruence.
  - rewrite Hspk, split_last_app, Z.eqb_refl.
    apply Qle_bool_iff in Hgap. rewrite Hgap. cbn [andb].
    rewrite strip_joined; [reflexivity|exact Hl|apply strip_trimmed; exact Hne].
Qed.

(** C2.  When the utterances processed so far left [init ++ [last]], and
    the next utterance has non-empty trimmed text, resolves to the speaker
    of [last] and starts at most [merge_gap] after the end of [last], no
    segment is added: [last] keeps its start and speaker, its end becomes
    the utterance's end and its text becomes the old text, one space and
    the new trimmed text; the remaining utterances continue from there. *)
Theorem merge_coalesces_same_speaker_within_gap :
  forall (diar : list SpeechSegment) (gap : Q) (pre : list Utterance)
         (u : Utterance) (init : list SpeechSegment) (last : SpeechSegment),
    Merger.merge_transcript_segments pre diar gap = Some (init ++ [last]) ->
    Py.strip (u_text u) <> [] ->
    Aligner.assign_speaker_for_interval (u_start u) (u_end u) diar
      = Some (speaker last) ->
    u_start u - end_ last <= gap ->
    let extended :=
      mkSpeechSegment (start last) (u_end u) (speaker last)
        (text last ++ Py.lit " " ++ Py.strip (u_text u)) in
    Merger.merge_transcript_segments (pre ++ [u]) diar gap
      = Some (init ++ [extended])
    /\ forall post,
         Merger.merge_transcript_segments (pre ++ u :: post) diar gap
         = Merger.merge_loop diar gap (init ++ [extended]) post.
Proof.
  intros diar gap pre u init last Hpre Hne Hspk Hgap extended.
  unfold Merger.merge_transcript_segments in *.
  assert (Hl : trimmed_text (text last)).
  { assert (Hall : all_trimmed (init ++ [last])).
    { eapply merge_loop_trimmed; [|exact Hpre]. constructor. }
    apply Forall_app in Hall. destruct Hall as [_ Hall].
    inversion Hall; assumption. }
  assert (Hstep := merge_step_coalesce diar gap init last u Hl Hne Hspk Hgap).
  split; [|intro post]; rewrite merge_loop_app, Hpre; simpl; rewrite Hstep;
    reflexivity.
Qed.

Lemma merge_coalesces_same_speaker_within_gap_witness :
  Merger.merge_transcript_segments
    ([mkUtterance 0 1 (Py.lit "hello")]
     ++ [mkUtterance (12 # 10) 2 (Py.lit " world ")])
    Reference.one_turn (15 # 10)
  = Some ([] ++ [mkSpeechSegment 0 2 0 (Py.lit "hello world")]).
Proof.
  apply (merge_coalesces_same_speaker_within_gap Reference.one_turn (15 # 10)
           [mkUtterance 0 1 (Py.lit "hello")]
           (mkUtterance (12 # 10) 2 (Py.lit " world "))
           [] (mkSpeechSegment 0 1 0 (Py.lit "hello"))).
  - reflexivity.
  - discriminate.
  - reflexivity.
  - discriminate.
Defined.

(** The end-to-end scenario: "hello" on [[0, 1]] and "world" on
    [[1.2, 2]], both in one diarized turn of speaker 0, with a merge gap
    of 1.5 seconds. *)
Example merge_hello_world :
  Merger.merge_transcript_segments Reference.hello_world Reference.one_turn
    (15 # 10)
  = Some [mkSpeechSegment 0 2 0 (Py.lit "hello world")].
Proof. reflexivity. Qed.

(** C9.  An utterance whose trimmed text is empty leaves no trace: the
    merge of a list with such an utterance anywhere in it equals the merge
    of the list without it (so it adds nothing, extends nothing and does
    not split utterances that would otherwise coalesce); and merging
    always returns, with every returned segment having non-empty text. *)
Theorem merge_skips_blank_and_keeps_text_nonempty :
  forall (diar : list SpeechSegment) (gap : Q),
    (forall pre u post,
       Py.strip (u_text u) = [] ->
       Merger.merge_transcript_segments (pre ++ u :: post) diar gap
       = Merger.merge_transcript_segments (pre ++ post) diar gap)
    /\ (forall us,
       exists out,
         Merger.merge_transcript_segments us diar gap = Some out
         /\ Forall (fun seg => text seg <> []) out).
Proof.
  intros diar gap. unfold Merger.merge_transcript_segments. split.
  - intros pre u post Hblank.
    rewrite !merge_loop_app.
    destruct (Merger.merge_loop diar gap [] pre) as [m|]; [|reflexivity].
    simpl. unfold Merger.merge_step. rewrite Hblank. reflexivity.
  - intro us. destruct (merge_loop_returns diar gap us []) as [out Hout].
    exists out. split; [exact Hout|].
    assert (Hall : all_trimmed out).
    { eapply merge_loop_trimmed; [|exact Hout]. constructor. }
    eapply Forall_impl; [|exact Hall]. intros seg [Hne _]. exact Hne.
Qed.


(* ================================================================== *)
(** * Energy VAD *)
(* ================================================================== *)

Lemma scan_flags_silence hop frame_len min_sil dur (flags : list bool) :
  Forall (fun f => f = false) flags ->
  forall index segments,
    Vad.scan_flags hop frame_len min_sil dur index flags segments None
    = (segments, None).
Proof.
  induction 1 as [|f flags Hf _ IH]; intros index segments; simpl.
  - reflexivity.
  - subst f. apply IH.
Qed.

Lemma candidates_silence hop frame_len min_sil dur (flags : list bool) :
  Forall (fun f => f = false) flags ->
  Vad.candidate_segments hop frame_len min_sil dur flags = [].
Proof.
  intro H. unfold Vad.candidate_segments.
  rewrite scan_flags_silence by exact H. reflexivity.
Qed.

Lemma refine_all_short (min_sp : Q) (segments : list Interval) :
  Forall (fun iv => snd iv - fst iv < min_sp) segments ->
  Vad.refine min_sp segments = [].
Proof.
  induction 1 as [|iv segments Hiv _ IH]; simpl; [reflexivity|].
  apply Qle_bool_false in Hiv. rewrite Hiv. exact IH.
Qed.

Lemma refine_in (min_sp : Q) (segments : list Interval) (iv : Interval) :
  In iv (Vad.refine min_sp segments) ->
  In iv segments /\ min_sp <= snd iv - fst iv.
Proof.
  unfold Vad.refine. rewrite filter_In, Qle_bool_iff. tauto.
Qed.

(** C3.  For a non-zero sample rate [energy_vad] returns, and what it
    returns is never empty.  In each degenerate case (buffer shorter than
    one frame, no frame at all, no frame above the threshold, every
    candidate interval shorter than [min_speech]) it returns exactly the
    one interval [(0, duration)]. *)
Theorem energy_vad_never_empty_and_falls_back :
  forall (np : NumPy) (audio : list Q) (sr : Z) (options : VadOptions),
    sr <> 0%Z ->
    exists intervals,
      Vad.energy_vad np audio sr options = Some intervals
      /\ intervals <> []
      /\ let whole := [(0, Vad.duration audio sr)] in
         let energies_np := Vad.frame_energies np audio sr options in
         let flags :=
           Vad.speech_flags (Vad.vad_threshold np options energies_np)
             energies_np in
         let min_sp :=
           Py.get (min_speech options) DEFAULT_VAD_OPTIONS.min_speech in
         ((Py.len audio < Vad.frame_samples sr options)%Z -> intervals = whole)
         /\ (energies_np = [] -> intervals = whole)
         /\ (Forall (fun f => f = false) flags -> intervals = whole)
         /\ (Forall (fun iv => snd iv - fst iv < min_sp)
               (Vad.candidates np audio sr options) ->
             intervals = whole).
Proof.
  intros np audio sr options Hsr.
  unfold Vad.energy_vad.
  apply Z.eqb_neq in Hsr. rewrite Hsr.
  destruct (Py.len audio <? Vad.frame_samples sr options)%Z eqn:Eshort.
  { eexists. split; [reflexivity|]. split; [discriminate|].
    cbv zeta. repeat split; reflexivity. }
  apply Z.ltb_ge in Eshort.
  destruct (Py.len (Vad.frame_energies np audio sr options) =? 0)%Z eqn:Ezero.
  { eexists. split; [reflexivity|]. split; [discriminate|].
    cbv zeta. repeat split; reflexivity. }
  apply Z.eqb_neq in Ezero.
  destruct (Vad.refine _ (Vad.candidates np audio sr options))
    as [|iv rest] eqn:Eref.
  { eexists. split; [reflexivity|]. split; [discriminate|].
    cbv zeta. repeat split; reflexivity. }
  eexists. split; [reflexivity|]. split; [discriminate|].
  cbv zeta. repeat split.
  - intro H. lia.
  - intro H. rewrite H in Ezero. exfalso. apply Ezero. reflexivity.
  - intro H. unfold Vad.candidates in Eref.
    rewrite candidates_silence in Eref by exact H. discriminate.
  - intro H. rewrite refine_all_short in Eref by exact H. discriminate.
Qed.

Lemma energy_vad_never_empty_and_falls_back_witness :
  exists intervals,
    Vad.energy_vad Reference.numpy [0; 0; 0] 1 Reference.no_vad_options
      = Some intervals
    /\ intervals <> []
    /\ intervals = [(0, Vad.duration [0; 0; 0] 1)].
Proof.
  destruct (energy_vad_never_empty_and_falls_back Reference.numpy [0; 0; 0] 1
              Reference.no_vad_options) as [l [H1 [H2 [_ [_ [H3 _]]]]]].
  - discriminate.
  - exists l. split; [exact H1|]. split; [exact H2|].
    apply H3. repeat constructor.
Defined.

Lemma close_segment_bounded dur segments seg_start seg_end min_sil :
  Forall (bounded dur) segments ->
  0 <= seg_start -> seg_end <= dur ->
  Forall (bounded dur) (Vad.close_segment segments seg_start seg_end min_sil).
Proof.
  intros Hall Hs He. unfold Vad.close_segment.
  assert (Hnew : Forall (bounded dur) (segments ++ [(seg_start, seg_end)])).
  { apply Forall_app. split; [exact Hall|].
    constructor; [split; assumption|constructor]. }
  destruct (Py.split_last segments) as [[init [prev_start prev_end]]|] eqn:E;
    [|exact Hnew].
  destruct (Py.Qltb (seg_start - prev_end) min_sil); [|exact Hnew].
  apply split_last_some in E. subst segments.
  apply Forall_app in Hall. destruct Hall as [Hinit Hprev].
  apply Forall_app. split; [exact Hinit|].
  inversion Hprev as [|? ? [Hp _] _]; subst.
  constructor; [split; [exact Hp|exact He]|constructor].
Qed.

Lemma index_times_hop_nonneg (i : Z) (hop : Q) :
  (0 <= i)%Z -> 0 <= hop -> 0 <= inject_Z i * hop.
Proof.
  intros Hi Hh. apply Qmult_le_0_compat; [|exact Hh].
  rewrite Zle_Qle in Hi. exact Hi.
Qed.

Lemma scan_flags_bounded hop frame_len min_sil dur (flags : list bool) :
  0 <= hop ->
  forall index segments current_start segments' current_start',
    (0 <= index)%Z ->
    Forall (bounded dur) segments ->
    (forall cs, current_start = Some cs -> (0 <= cs)%Z) ->
    Vad.scan_flags hop frame_len min_sil dur index flags segments current_start
      = (segments', current_start') ->
    Forall (bounded dur) segments'
    /\ (forall cs, current_start' = Some cs -> (0 <= cs)%Z).
Proof.
  intro Hhop.
  induction flags as [|f flags IH];
    intros index segments current_start segments' current_start' Hi Hall Hcs H;
    simpl in H.
  - inversion H; subst. split; assumption.
  - destruct f, current_start as [cs|].
    + eapply IH; [| | |exact H]; [lia|exact Hall|exact Hcs].
    + eapply IH; [| | |exact H]; [lia|exact Hall|].
      intros cs E. inversion E; subst. exact Hi.
    + eapply IH; [| | |exact H]; [lia| |discriminate].
      apply close_segment_bounded; [exact Hall| |apply min_le_l].
      apply index_times_hop_nonneg; [apply Hcs; reflexivity|exact Hhop].
    + eapply IH; [| | |exact H]; [lia|exact Hall|exact Hcs].
Qed.

Lemma candidate_segments_bounded hop frame_len min_sil dur flags :
  0 <= hop ->
  Forall (bounded dur) (Vad.candidate_segments hop frame_len min_sil dur flags).
Proof.
  intro Hhop. unfold Vad.candidate_segments.
  destruct (Vad.scan_flags hop frame_len min_sil dur 0 flags [] None)
    as [segments [cs|]] eqn:E;
    destruct (scan_flags_bounded hop frame_len min_sil dur flags Hhop
                0 [] None _ _ (Z.le_refl 0) (Forall_nil _)
                ltac:(discriminate) E) as [Hall Hcs].
  - apply close_segment_bounded; [exact Hall| |apply Qle_refl].
    apply index_times_hop_nonneg; [apply Hcs; reflexivity|exact Hhop].
  - exact Hall.
Qed.

Lemma duration_nonneg (audio : list Q) (sr : Z) :
  (0 < sr)%Z -> 0 <= Vad.duration audio sr.
Proof.
  intro Hsr. unfold Vad.duration.
  apply Qle_shift_div_l.
  - change 0 with (inject_Z 0). rewrite <- Zlt_Qlt. exact Hsr.
  - rewrite Qmult_0_l. change 0 with (inject_Z 0). rewrite <- Zle_Qle.
    unfold Py.len. lia.
Qed.

(** C7 (amended).  For a positive sample rate and options whose effective
    [hop_length] and [min_speech] are not negative, every interval that
    [energy_vad] returns satisfies [0 <= start <= end <= duration]. *)
Theorem energy_vad_intervals_within_buffer :
  forall (np : NumPy) (audio : list Q) (sr : Z) (options : VadOptions)
         (intervals : list Interval),
    (0 < sr)%Z ->
    0 <= Py.get (hop_length options) DEFAULT_VAD_OPTIONS.hop_length ->
    0 <= Py.get (min_speech options) DEFAULT_VAD_OPTIONS.min_speech ->
    Vad.energy_vad np audio sr options = Some intervals ->
    Forall (interval_within (Vad.duration audio sr)) intervals.
Proof.
  intros np audio sr options intervals Hsr Hhop Hmin H.
  assert (Hwhole : Forall (interval_within (Vad.duration audio sr))
                     [(0, Vad.duration audio sr)]).
  { constructor; [|constructor]. unfold interval_within; simpl.
    pose proof (duration_nonneg audio sr Hsr).
    split; [apply Qle_refl|]. split; [assumption|apply Qle_refl]. }
  unfold Vad.energy_vad in H.
  destruct (sr =? 0)%Z; [discriminate|].
  destruct (Py.len audio <? Vad.frame_samples sr options)%Z;
    [inversion H; subst; exact Hwhole|].
  destruct (Py.len (Vad.frame_energies np audio sr options) =? 0)%Z;
    [inversion H; subst; exact Hwhole|].
  destruct (Vad.refine _ (Vad.candidates np audio sr options))
    as [|iv rest] eqn:Eref; [inversion H; subst; exact Hwhole|].
  inversion H; subst intervals. rewrite <- Eref.
  apply Forall_forall. intros x Hx. apply refine_in in Hx.
  destruct Hx as [Hin Hlen].
  assert (Hb : bounded (Vad.duration audio sr) x).
  { pose proof (candidate_segments_bounded
                  (Py.get (hop_length options) DEFAULT_VAD_OPTIONS.hop_length)
                  (Py.get (frame_length options) DEFAULT_VAD_OPTIONS.frame_length)
                  (Py.get (min_silence options) DEFAULT_VAD_OPTIONS.min_silence)
                  (Vad.duration audio sr)
                  (Vad.speech_flags
                     (Vad.vad_threshold np options
                        (Vad.frame_energies np audio sr options))
                     (Vad.frame_energies np audio sr options)) Hhop) as Hall.
    rewrite Forall_forall in Hall. apply Hall. exact Hin. }
  destruct Hb as [Hlo Hhi]. unfold interval_within.
  split; [exact Hlo|]. split; [|exact Hhi]. lra.
Qed.

Lemma energy_vad_intervals_within_buffer_witness :
  Forall (interval_within (Vad.duration [0; 1] 1)) [(1 # 100, 2)].
Proof.
  apply (energy_vad_intervals_within_buffer Reference.numpy [0; 1] 1
           Reference.no_vad_options [(1 # 100, 2)]).
  - reflexivity.
  - discriminate.
  - discriminate.
  - reflexivity.
Defined.

(** C7, as stated, fails: with [{"hop_length": -0.01}] and everything else
    at its default, a one-hertz buffer [[0, 1]] yields the interval
    [(-0.01, 2)], whose start is negative. *)
Lemma energy_vad_negative_start :
  Vad.energy_vad Reference.numpy [0; 1] 1 Reference.negative_hop
    = Some [(- (1 # 100), 2)]
  /\ ~ Forall (interval_within (Vad.duration [0; 1] 1)) [(- (1 # 100), 2)].
Proof.
  split; [reflexivity|].
  intro H. inversion H as [|? ? [H0 _] _]; subst. simpl in H0.
  revert H0. apply Qlt_not_le. reflexivity.
Qed.

(** ** Order of the intervals the VAD returns *)

Lemma ForallOrdPairs_snoc {A : Type} (R : A -> A -> Prop) (l : list A) (x : A) :
  ForallOrdPairs R (l ++ [x])
  <-> ForallOrdPairs R l /\ Forall (fun a => R a x) l.
Proof.
  induction l as [|y l IH]; simpl.
  - split; [intros _; split; constructor|intros _; repeat constructor].
  - split.
    + intro H. inversion H as [|? ? Hy Hl]; subst.
      apply IH in Hl. destruct Hl as [Hl Hx].
      apply Forall_app in Hy. destruct Hy as [Hy Hyx].
      inversion Hyx; subst.
      split; constructor; assumption.
    + intros [H Hx]. inversion H as [|? ? Hy Hl]; subst.
      inversion Hx as [|? ? Hyx Hx']; subst.
      constructor.
      * apply Forall_app. split; [exact Hy|]. constructor; [exact Hyx|constructor].
      * apply IH. split; assumption.
Qed.

Lemma ForallOrdPairs_impl {A : Type} (R R' : A -> A -> Prop) (l : list A) :
  (forall a b, R a b -> R' a b) ->
  ForallOrdPairs R l -> ForallOrdPairs R' l.
Proof.
  intros HR. induction 1 as [|x l Hx _ IH]; constructor; [|exact IH].
  eapply Forall_impl; [|exact Hx]. intros b. apply HR.
Qed.

Lemma ForallOrdPairs_filter {A : Type} (R : A -> A -> Prop) (f : A -> bool)
    (l : list A) :
  ForallOrdPairs R l -> ForallOrdPairs R (filter f l).
Proof.
  induction 1 as [|x l Hx _ IH]; simpl; [constructor|].
  destruct (f x); [|exact IH]. constructor; [|exact IH].
  apply Forall_forall. intros y Hy. apply filter_In in Hy.
  rewrite Forall_forall in Hx. apply Hx. tauto.
Qed.

(** Closing a candidate that starts no earlier than every interval so
    far keeps the list chained, and its start bounds every start. *)
Lemma close_segment_chained segments seg_start seg_end min_sil :
  0 <= min_sil ->
  chained segments ->
  Forall (fun a => fst a <= seg_start) segments ->
  chained (Vad.close_segment segments seg_start seg_end min_sil)
  /\ Forall (fun a => fst a <= seg_start)
       (Vad.close_segment segments seg_start seg_end min_sil).
Proof.
  intros Hsil Hch Hb. unfold Vad.close_segment, chained in *.
  destruct (Py.split_last segments) as [[init [prev_start prev_end]]|] eqn:E.
  - apply split_last_some in E. subst segments.
    apply ForallOrdPairs_snoc in Hch. destruct Hch as [Hinit Hprev].
    apply Forall_app in Hb. destruct Hb as [Hbi Hbp].
    inversion Hbp as [|? ? Hps _]; subst. simpl in Hps.
    destruct (Py.Qltb (seg_start - prev_end) min_sil) eqn:L.
    + split.
      * apply ForallOrdPairs_snoc. split; [exact Hinit|exact Hprev].
      * apply Forall_app. split; [exact Hbi|]. constructor; [exact Hps|constructor].
    + apply Qltb_ge in L. split.
      * apply ForallOrdPairs_snoc. split.
        -- apply ForallOrdPairs_snoc. split; assumption.
        -- apply Forall_app. split.
           ++ rewrite Forall_forall in *. intros a Ha.
              destruct (Hprev a Ha) as [_ H2]. specialize (Hbi a Ha).
              unfold precedes in *. simpl in *. split; lra.
           ++ constructor; [|constructor]. unfold precedes. simpl. split; lra.
      * apply Forall_app. split.
        -- apply Forall_app. split; assumption.
        -- constructor; [apply Qle_refl|constructor].
  - apply split_last_none in E. subst segments. simpl. split.
    + repeat constructor.
    + constructor; [apply Qle_refl|constructor].
Qed.

Lemma index_times_hop_mono (i j : Z) (hop : Q) :
  (i <= j)%Z -> 0 <= hop -> inject_Z i * hop <= inject_Z j * hop.
Proof.
  intros Hij Hh. apply Qmult_le_compat_r; [|exact Hh].
  rewrite <- Zle_Qle. exact Hij.
Qed.

Lemma scan_flags_chained hop frame_len min_sil dur (flags : list bool) :
  0 <= hop -> 0 <= min_sil ->
  forall index segments current_start segments' current_start',
    (next_start index current_start <= index)%Z ->
    chained segments ->
    Forall (fun a => fst a <= inject_Z (next_start index current_start) * hop)
      segments ->
    Vad.scan_flags hop frame_len min_sil dur index flags segments current_start
      = (segments', current_start') ->
    chained segments'
    /\ forall cs, current_start' = Some cs ->
         Forall (fun a => fst a <= inject_Z cs * hop) segments'.
Proof.
  intros Hhop Hsil.
  induction flags as [|f flags IH];
    intros index segments current_start segments' current_start' Hle Hch Hb H;
    simpl in H.
  - inversion H; subst. split; [exact Hch|].
    intros cs ->. exact Hb.
  - destruct f, current_start as [cs|]; simpl in Hle, Hb.
    + eapply IH; [| | |exact H]; simpl; [lia|exact Hch|exact Hb].
    + eapply IH; [| | |exact H]; simpl; [lia|exact Hch|exact Hb].
    + destruct (close_segment_chained segments (inject_Z cs * hop)
                  (Py.min dur (inject_Z index * hop + frame_len)) min_sil
                  Hsil Hch Hb) as [Hch' Hb'].
      eapply IH; [| | |exact H]; simpl; [lia|exact Hch'|].
      eapply Forall_impl; [|exact Hb']. intros a Ha. simpl in Ha.
      pose proof (index_times_hop_mono cs (index + 1) hop ltac:(lia) Hhop). lra.
    + eapply IH; [| | |exact H]; simpl; [lia|exact Hch|].
      eapply Forall_impl; [|exact Hb]. intros a Ha. simpl in Ha.
      pose proof (index_times_hop_mono index (index + 1) hop ltac:(lia) Hhop). lra.
Qed.

Lemma candidate_segments_chained hop frame_len min_sil dur flags :
  0 <= hop -> 0 <= min_sil ->
  chained (Vad.candidate_segments hop frame_len min_sil dur flags).
Proof.
  intros Hhop Hsil. unfold Vad.candidate_segments.
  destruct (Vad.scan_flags hop frame_len min_sil dur 0 flags [] None)
    as [segments cs] eqn:E.
  destruct (scan_flags_chained hop frame_len min_sil dur flags Hhop Hsil
              0 [] None segments cs (Z.le_refl 0)
              (FOP_nil _) (Forall_nil _) E) as [Hch Hb].
  destruct cs as [cs|]; [|exact Hch].
  apply close_segment_chained; [exact Hsil|exact Hch|apply Hb; reflexivity].
Qed.

(** With a hop and a minimal silence that are not negative, the
    intervals [energy_vad] returns are sorted by start time and pairwise
    non-overlapping: a candidate that would start before the end of the
    previous interval is merged into it (lines 98-100 and 108-110). *)
Lemma energy_vad_sorted_disjoint (np : NumPy) (audio : list Q) (sr : Z)
    (options : VadOptions) (intervals : list Interval) :
  0 <= Py.get (hop_length options) DEFAULT_VAD_OPTIONS.hop_length ->
  0 <= Py.get (min_silence options) DEFAULT_VAD_OPTIONS.min_silence ->
  Vad.energy_vad np audio sr options = Some intervals ->
  sorted_by_start intervals /\ non_overlapping intervals.
Proof.
  intros Hhop Hsil H.
  assert (Hch : chained intervals).
  { unfold Vad.energy_vad in H.
    destruct (sr =? 0)%Z; [discriminate|].
    destruct (Py.len audio <? Vad.frame_samples sr options)%Z;
      [inversion H; repeat constructor|].
    destruct (Py.len (Vad.frame_energies np audio sr options) =? 0)%Z;
      [inversion H; repeat constructor|].
    destruct (Vad.refine _ (Vad.candidates np audio sr options))
      as [|iv rest] eqn:Eref; [inversion H; repeat constructor|].
    inversion H; subst intervals. rewrite <- Eref.
    apply ForallOrdPairs_filter.
    apply candidate_segments_chained; assumption. }
  split.
  - eapply ForallOrdPairs_impl; [|exact Hch]. intros a b [H1 _]. exact H1.
  - eapply ForallOrdPairs_impl; [|exact Hch]. intros a b [_ H2]. left. exact H2.
Qed.

(** C5.  With [{"thr": 0}] and no [threshold] key, line 63 evaluates
    [0 or None] to [None], so the threshold is not the supplied 0 but
    mean + std * multiplier; the sibling key [{"threshold": 0}] is
    honoured.  On the one-hertz buffer [[0.5, 1]] the two option sets
    give different intervals. *)
Theorem vad_threshold_drops_thr_zero :
  (forall (np : NumPy) (energies_np : list Q),
     Vad.vad_threshold np Reference.thr_zero energies_np
     = np_mean np energies_np
       + np_std np energies_np * DEFAULT_VAD_OPTIONS.threshold_multiplier)
  /\ (forall (np : NumPy) (energies_np : list Q),
     Vad.vad_threshold np Reference.threshold_zero energies_np = 0)
  /\ Vad.vad_threshold Reference.numpy Reference.thr_zero
       (Vad.frame_energies Reference.numpy [1 # 2; 1] 1 Reference.thr_zero)
     == 7 # 8
  /\ Vad.energy_vad Reference.numpy [1 # 2; 1] 1 Reference.thr_zero
     = Some [(1 # 100, 2)]
  /\ Vad.energy_vad Reference.numpy [1 # 2; 1] 1 Reference.threshold_zero
     = Some [(0 # 100, 2)].
Proof.
  repeat split; reflexivity.
Qed.

(** What line 63 and lines 81-84 compute, case by case: a non-zero [thr]
    wins, else a supplied [threshold] (zero included), else the
    statistical threshold. *)
Lemma vad_threshold_cases (np : NumPy) (options : VadOptions)
    (energies_np : list Q) :
  Vad.vad_threshold np options energies_np
  = match thr options, threshold options with
    | Some x, other =>
        if Qeq_bool x 0
        then match other with
             | Some y => y
             | None =>
                 np_mean np energies_np
                 + np_std np energies_np
                   * Py.get (threshold_multiplier options)
                       DEFAULT_VAD_OPTIONS.threshold_multiplier
             end
        else x
    | None, Some y => y
    | None, None =>
        np_mean np energies_np
        + np_std np energies_np
          * Py.get (threshold_multiplier options)
              DEFAULT_VAD_OPTIONS.threshold_multiplier
    end.
Proof.
  unfold Vad.vad_threshold, Py.or_, Py.truthy.
  destruct (thr options) as [x|], (threshold options) as [y|];
    try destruct (Qeq_bool x 0); reflexivity.
Qed.

(* ================================================================== *)
(** * Speaker count estimator *)
(* ================================================================== *)

(** On a count the sweep scores, one step asks the scorer and keeps the
    better state. *)
Lemma sweep_step_valid (sk : Sklearn) (features : Features)
    (state : Q * Z) (k : Z) :
  valid_candidate sk features k = true ->
  Estimator.sweep_step sk features state k
  = match score_of sk features k with
    | None => None
    | Some score =>
        if Py.Qltb (fst state) score then Some (score, k) else Some state
    end.
Proof.
  unfold valid_candidate, score_of, Estimator.sweep_step. intro H.
  apply andb_prop in H. destruct H as [H Hd].
  apply andb_prop in H. destruct H as [H1 H2].
  apply Z.ltb_lt in H1. apply Z.leb_le in H2.
  destruct (Z.leb_spec k 1) as [?|_]; [lia|].
  destruct (Z.ltb_spec (Estimator.rows features) k) as [?|_]; [lia|].
  simpl. destruct (fit_predict sk features k) as [labels|]; [|discriminate].
  apply Z.ltb_lt in Hd.
  destruct (Z.leb_spec (Py.distinct_count labels) 1) as [?|_]; [lia|].
  reflexivity.
Qed.

(** On any other count a step that returns leaves the state as it was. *)
Lemma sweep_step_invalid (sk : Sklearn) (features : Features)
    (state state' : Q * Z) (k : Z) :
  valid_candidate sk features k = false ->
  Estimator.sweep_step sk features state k = Some state' ->
  state' = state.
Proof.
  unfold valid_candidate, Estimator.sweep_step. intros H Hs.
  destruct ((k <=? 1) || (Estimator.rows features <? k))%Z eqn:Eskip;
    [congruence|].
  apply orb_false_elim in Eskip. destruct Eskip as [E1 E2].
  apply Z.leb_gt in E1. apply Z.ltb_ge in E2.
  destruct (fit_predict sk features k) as [labels|]; [|discriminate].
  destruct (Z.leb_spec (Py.distinct_count labels) 1) as [_|Hd];
    [congruence|].
  exfalso. apply andb_false_elim in H. destruct H as [H|H].
  - apply andb_false_elim in H. destruct H as [H|H].
    + apply Z.ltb_ge in H. lia.
    + apply Z.leb_gt in H. lia.
  - apply Z.ltb_ge in H. lia.
Qed.

(** The state after a sweep over an ascending list of counts that
    returned: every scored count got a score, and either nothing beat the
    initial score, or the state holds the first candidate of highest
    score. *)
Lemma sweep_loop_spec (sk : Sklearn) (features : Features) (l : list Z) :
  StronglySorted Z.lt l ->
  forall (bs : Q) (bk : Z) (st : Q * Z),
    Estimator.sweep_loop sk features (bs, bk) l = Some st ->
    (st = (bs, bk)
     /\ forall k q, In k l -> valid_candidate sk features k = true ->
          score_of sk features k = Some q -> q <= bs)
    \/ (In (snd st) l
        /\ valid_candidate sk features (snd st) = true
        /\ score_of sk features (snd st) = Some (fst st)
        /\ bs < fst st
        /\ forall k q, In k l -> valid_candidate sk features k = true ->
             score_of sk features k = Some q ->
             q <= fst st /\ (q == fst st -> (snd st <= k)%Z)).
Proof.
  induction 1 as [|k l Hsorted IH Hk]; intros bs bk st H; simpl in H.
  - inversion H; subst. left. split; [reflexivity|]. intros k q [].
  - destruct (Estimator.sweep_step sk features (bs, bk) k) as [st1|] eqn:E1;
      [|discriminate].
    destruct (valid_candidate sk features k) eqn:V.
    + rewrite (sweep_step_valid _ _ _ _ V) in E1.
      destruct (score_of sk features k) as [sc|] eqn:Esc; [|discriminate].
      simpl fst in E1.
      destruct (Py.Qltb bs sc) eqn:L; inversion E1; subst st1; clear E1.
      * apply Qltb_lt in L.
        destruct (IH sc k st H) as [[Hst Hall]|[Hin [Hv [Hf [Hlt Hall]]]]].
        -- right. rewrite Hst. simpl.
           split; [left; reflexivity|]. split; [exact V|].
           split; [exact Esc|]. split; [exact L|].
           intros k' q [<-|Hin'] Hv' Hq.
           ++ rewrite Esc in Hq. inversion Hq; subst.
              split; [apply Qle_refl|lia].
           ++ split; [eapply Hall; eassumption|].
              intros _. rewrite Forall_forall in Hk. specialize (Hk k' Hin'). lia.
        -- right. split; [right; exact Hin|]. split; [exact Hv|].
           split; [exact Hf|]. split; [lra|].
           intros k' q [<-|Hin'] Hv' Hq.
           ++ rewrite Esc in Hq. inversion Hq; subst.
              split; [lra|]. intro Heq. lra.
           ++ eapply Hall; eassumption.
      * apply Qltb_ge in L.
        destruct (IH bs bk st H) as [[Hst Hall]|[Hin [Hv [Hf [Hlt Hall]]]]].
        -- left. split; [exact Hst|].
           intros k' q [<-|Hin'] Hv' Hq.
           ++ rewrite Esc in Hq. inversion Hq; subst. exact L.
           ++ eapply Hall; eassumption.
        -- right. split; [right; exact Hin|]. split; [exact Hv|].
           split; [exact Hf|]. split; [exact Hlt|].
           intros k' q [<-|Hin'] Hv' Hq.
           ++ rewrite Esc in Hq. inversion Hq; subst.
              split; [lra|]. intro Heq. lra.
           ++ eapply Hall; eassumption.
    + apply (sweep_step_invalid _ _ _ _ _ V) in E1. subst st1.
      destruct (IH bs bk st H) as [[Hst Hall]|[Hin [Hv [Hf [Hlt Hall]]]]].
      * left. split; [exact Hst|].
        intros k' q [<-|Hin'] Hv' Hq; [congruence|eapply Hall; eassumption].
      * right. split; [right; exact Hin|]. split; [exact Hv|].
        split; [exact Hf|]. split; [exact Hlt|].
        intros k' q [<-|Hin'] Hv' Hq; [congruence|eapply Hall; eassumption].
Qed.

Lemma range_from_sorted (n : nat) :
  forall a : Z,
    StronglySorted Z.lt
      (map (fun i => (a + Z.of_nat i * 1)%Z) (seq 0 n)).
Proof.
  induction n as [|n IH]; intro a; simpl; [constructor|].
  rewrite <- seq_shift, map_map.
  replace (map (fun x => (a + Z.of_nat (S x) * 1)%Z) (seq 0 n))
    with (map (fun i => ((a + 1) + Z.of_nat i * 1)%Z) (seq 0 n))
    by (apply map_ext; intro i; lia).
  constructor; [apply IH|].
  apply Forall_forall. intros k Hk. apply in_map_iff in Hk.
  destruct Hk as [i [<- _]]. lia.
Qed.

Lemma range_unit_sorted (a b : Z) : StronglySorted Z.lt (Py.range a b 1).
Proof. unfold Py.range. apply range_from_sorted. Qed.

Lemma sweep_candidate_in_range (sk : Sklearn) (features : Features)
    (diar_options : DiarOptions) (k : Z) :
  sweep_candidate sk features diar_options k
  <-> In k (Py.range
              (Py.get (min_speakers diar_options)
                 DEFAULT_DIARIZATION_OPTIONS.min_speakers)
              (Z.min (Py.get (max_speakers diar_options)
                        DEFAULT_DIARIZATION_OPTIONS.max_speakers)
                     (Estimator.rows features) + 1) 1)
      /\ valid_candidate sk features k = true.
Proof.
  unfold sweep_candidate. rewrite in_range_unit.
  split; intros [H1 H2]; (split; [lia|exact H2]).
Qed.

(** What a sweep that returns has selected. *)
Lemma sweep_selects (sk : Sklearn) (features : Features)
    (diar_options : DiarOptions) (r : Z) :
  Estimator.sweep sk features diar_options = Some r ->
  (r = 1%Z
   /\ forall k q, sweep_candidate sk features diar_options k ->
        score_of sk features k = Some q -> q <= - (1))
  \/ (sweep_candidate sk features diar_options r
      /\ exists qr,
           score_of sk features r = Some qr
           /\ - (1) < qr
           /\ forall k q, sweep_candidate sk features diar_options k ->
                score_of sk features k = Some q ->
                q <= qr /\ (q == qr -> (r <= k)%Z)).
Proof.
  unfold Estimator.sweep. intro H.
  set (lo := Py.get (min_speakers diar_options)
               DEFAULT_DIARIZATION_OPTIONS.min_speakers) in *.
  set (hi := Z.min (Py.get (max_speakers diar_options)
                      DEFAULT_DIARIZATION_OPTIONS.max_speakers)
                   (Estimator.rows features)) in *.
  destruct (Estimator.sweep_loop sk features (- (1), 1%Z)
              (Py.range lo (hi + 1) 1)) as [st|] eqn:E; [|discriminate].
  inversion H as [Hr]; clear H.
  destruct (sweep_loop_spec sk features (Py.range lo (hi + 1) 1)
              (range_unit_sorted lo (hi + 1)) (- (1)) 1%Z st E)
    as [[Hst Hall]|[Hin [Hv [Hf [Hlt Hall]]]]].
  - left. subst st. simpl. split; [reflexivity|].
    intros k q Hk Hq. apply sweep_candidate_in_range in Hk.
    destruct Hk as [Hin Hv]. eapply Hall; eassumption.
  - right.
    assert (Hgt : (1 < snd st)%Z).
    { unfold valid_candidate in Hv. apply andb_prop in Hv. destruct Hv as [Hv _].
      apply andb_prop in Hv. destruct Hv as [Hv _]. apply Z.ltb_lt in Hv. exact Hv. }
    destruct (Z.leb_spec (snd st) 1) as [Hle|_]; [lia|].
    split; [apply sweep_candidate_in_range; split; assumption|].
    exists (fst st). split; [exact Hf|]. split; [exact Hlt|].
    intros k q Hk Hq. apply sweep_candidate_in_range in Hk.
    destruct Hk as [Hink Hvk]. eapply Hall; eassumption.
Qed.

(** A sweep whose list holds a count on which a step raises, raises. *)
Lemma sweep_loop_raises (sk : Sklearn) (features : Features) (k : Z)
    (l : list Z) :
  In k l ->
  (forall state, Estimator.sweep_step sk features state k = None) ->
  forall state, Estimator.sweep_loop sk features state l = None.
Proof.
  intros Hin Hk. induction l as [|x l IH]; intro state; [contradiction|].
  simpl. destruct Hin as [->|Hin].
  - rewrite Hk. reflexivity.
  - destruct (Estimator.sweep_step sk features state x); [|reflexivity].
    apply IH. exact Hin.
Qed.

(** When the sweep reaches [k = rows] on a clusterer that gives every row
    a label of its own there, and a scorer that raises on as many labels
    as rows, the estimator raises. *)
Lemma estimate_raises_at_row_count :
  forall (sk : Sklearn) (features : Features) (diar_options : DiarOptions),
    num_speakers diar_options = None
    \/ num_speakers diar_options = Some 0%Z ->
    (2 <= Estimator.rows features)%Z ->
    (Py.get (min_speakers diar_options)
       DEFAULT_DIARIZATION_OPTIONS.min_speakers
     <= Estimator.rows features
     <= Py.get (max_speakers diar_options)
          DEFAULT_DIARIZATION_OPTIONS.max_speakers)%Z ->
    (forall labels,
       fit_predict sk features (Estimator.rows features) = Some labels ->
       Py.distinct_count labels = Estimator.rows features) ->
    (forall labels,
       Py.distinct_count labels = Estimator.rows features ->
       silhouette_score sk features labels = None) ->
    Estimator.estimate_speaker_count sk features diar_options = None.
Proof.
  intros sk features diar_options Hnum Hrows Hrange Hfit Hscore.
  assert (Hstep : forall state,
            Estimator.sweep_step sk features state (Estimator.rows features)
            = None).
  { intro state. unfold Estimator.sweep_step.
    destruct (Z.leb_spec (Estimator.rows features) 1) as [?|_]; [lia|].
    rewrite Z.ltb_irrefl. simpl.
    destruct (fit_predict sk features (Estimator.rows features))
      as [labels|] eqn:Ef; [|reflexivity].
    pose proof (Hfit labels eq_refl) as Hd.
    destruct (Z.leb_spec (Py.distinct_count labels) 1) as [?|_]; [lia|].
    rewrite (Hscore labels Hd). reflexivity. }
  assert (Hsweep : Estimator.sweep sk features diar_options = None).
  { unfold Estimator.sweep.
    rewrite (sweep_loop_raises sk features (Estimator.rows features));
      [reflexivity| |exact Hstep].
    apply in_range_unit. lia. }
  unfold Estimator.estimate_speaker_count.
  destruct (Z.leb_spec (Estimator.rows features) 1) as [?|_]; [lia|].
  destruct Hnum as [-> | ->]; exact Hsweep.
Qed.

(** C6.  The sweep does not deliver what the claim says at the upper end
    it names.  With no [num_speakers] in force, at least two rows and
    [min_speakers <= rows <= max_speakers], the sweep reaches [k = rows];
    the clusterer then gives every row a label of its own and the scorer,
    which is only defined for fewer labels than rows, raises: the
    estimator raises instead of returning the best count. *)
Theorem estimate_sweep_raises_at_row_count :
  forall (sk : Sklearn) (features : Features) (diar_options : DiarOptions),
    num_speakers diar_options = None
    \/ num_speakers diar_options = Some 0%Z ->
    (2 <= Estimator.rows features)%Z ->
    (Py.get (min_speakers diar_options)
       DEFAULT_DIARIZATION_OPTIONS.min_speakers
     <= Estimator.rows features
     <= Py.get (max_speakers diar_options)
          DEFAULT_DIARIZATION_OPTIONS.max_speakers)%Z ->
    (forall labels,
       fit_predict sk features (Estimator.rows features) = Some labels ->
       Py.distinct_count labels = Estimator.rows features) ->
    (forall labels,
       Py.distinct_count labels = Estimator.rows features ->
       silhouette_score sk features labels = None) ->
    Estimator.estimate_speaker_count sk features diar_options = None.
Proof. exact estimate_raises_at_row_count. Qed.

Lemma estimate_sweep_raises_at_row_count_witness :
  Estimator.estimate_speaker_count Reference.sklearn_three_rows
    Reference.three_rows default_diar_options = None.
Proof.
  apply (estimate_sweep_raises_at_row_count Reference.sklearn_three_rows
           Reference.three_rows default_diar_options).
  - left. reflexivity.
  - discriminate.
  - split; discriminate.
  - intros labels H. inversion H. reflexivity.
  - intros labels H. simpl. rewrite H. reflexivity.
Defined.

(** C4 (amended).  With at least two feature rows and a supplied
    [num_speakers] other than 0, the estimator returns
    [max(1, num_speakers)] whatever the clusterer and the scorer are (they
    are not consulted); a supplied 0 is treated as absent and the result
    is that of the sweep. *)
Theorem estimate_explicit_num_speakers :
  forall (sk : Sklearn) (features : Features) (diar_options : DiarOptions)
         (n : Z),
    (2 <= Estimator.rows features)%Z ->
    num_speakers diar_options = Some n ->
    (n <> 0%Z ->
       Estimator.estimate_speaker_count sk features diar_options
       = Some (Z.max 1 n))
    /\ (n = 0%Z ->
       Estimator.estimate_speaker_count sk features diar_options
       = Estimator.sweep sk features diar_options).
Proof.
  intros sk features diar_options n Hrows Hn.
  unfold Estimator.estimate_speaker_count. rewrite Hn.
  destruct (Z.leb_spec (Estimator.rows features) 1) as [H|_]; [lia|].
  split; intro H.
  - apply Z.eqb_neq in H. rewrite H. reflexivity.
  - subst n. reflexivity.
Qed.

Lemma estimate_explicit_num_speakers_witness :
  Estimator.estimate_speaker_count Reference.sklearn_three_rows
    Reference.three_rows Reference.three_speakers = Some (Z.max 1 3).
Proof.
  apply (estimate_explicit_num_speakers Reference.sklearn_three_rows
           Reference.three_rows Reference.three_speakers 3%Z).
  - discriminate.
  - reflexivity.
  - discriminate.
Defined.

(** C4, as stated, fails at [num_speakers = 0]: on three feature rows with
    [{"num_speakers": 0, "min_speakers": 2, "max_speakers": 2}] the sweep
    runs and the estimator returns 2, not [max(1, 0) = 1]. *)
Lemma estimate_num_speakers_zero_sweeps :
  Estimator.estimate_speaker_count Reference.sklearn_three_rows
    Reference.three_rows Reference.num_speakers_zero = Some 2%Z
  /\ Z.max 1 0 = 1%Z.
Proof. split; reflexivity. Qed.


(* ================================================================== *)
(** * Diarizer *)
(* ================================================================== *)

Lemma insert_by_start_perm (x : SpeechSegment) (l : list SpeechSegment) :
  Permutation (Diarizer.insert_by_start x l) (x :: l).
Proof.
  induction l as [|y l IH]; simpl; [reflexivity|].
  destruct (Qle_bool (start x) (start y)); [reflexivity|].
  rewrite IH. apply perm_swap.
Qed.

Lemma sort_by_start_perm (l : list SpeechSegment) :
  Permutation (Diarizer.sort_by_start l) l.
Proof.
  induction l as [|x l IH]; simpl; [reflexivity|].
  rewrite insert_by_start_perm. constructor. exact IH.
Qed.

Lemma insert_by_start_sorted (x : SpeechSegment) (l : list SpeechSegment) :
  starts_ascend l -> starts_ascend (Diarizer.insert_by_start x l).
Proof.
  unfold starts_ascend. induction l as [|y l IH]; intro H; simpl.
  - constructor; constructor.
  - inversion H as [|? ? Hy Hl]; subst.
    destruct (Qle_bool (start x) (start y)) eqn:E.
    + apply Qle_bool_iff in E. constructor; [|exact H].
      constructor; [exact E|].
      eapply Forall_impl; [|exact Hy]. intros z Hz. simpl in *. lra.
    + apply Qle_bool_false in E. constructor; [|apply IH; exact Hl].
      apply Forall_forall. intros z Hz.
      apply (Permutation_in _ (insert_by_start_perm x l)) in Hz.
      destruct Hz as [<-|Hz]; [lra|].
      rewrite Forall_forall in Hy. apply Hy. exact Hz.
Qed.

Lemma sort_by_start_sorted (l : list SpeechSegment) :
  starts_ascend (Diarizer.sort_by_start l).
Proof.
  induction l as [|x l IH]; simpl; [constructor|].
  apply insert_by_start_sorted. exact IH.
Qed.

(** The stable sort leaves a sorted list as it is. *)
Lemma sort_by_start_fixed (l : list SpeechSegment) :
  starts_ascend l -> Diarizer.sort_by_start l = l.
Proof.
  unfold starts_ascend. induction l as [|x l IH]; intro H; simpl; [reflexivity|].
  inversion H as [|? ? Hx Hl]; subst. rewrite (IH Hl).
  destruct l as [|y l]; simpl; [reflexivity|].
  inversion Hx as [|? ? Hxy _]; subst.
  apply Qle_bool_iff in Hxy. rewrite Hxy. reflexivity.
Qed.

Lemma starts_ascend_intervals (l : list SpeechSegment) :
  starts_ascend l <-> sorted_by_start (map interval_of l).
Proof.
  unfold starts_ascend, sorted_by_start.
  induction l as [|x l IH]; simpl.
  - split; constructor.
  - split; intro H; inversion H as [|? ? Hx Hl]; subst;
      (constructor; [|apply IH; exact Hl]);
      rewrite Forall_forall in *.
    + intros iv Hiv. apply in_map_iff in Hiv. destruct Hiv as [y [<- Hy]].
      apply (Hx y Hy).
    + intros y Hy. apply (Hx (interval_of y)). apply in_map. exact Hy.
Qed.

Lemma apart_sym (a b : Interval) : apart a b -> apart b a.
Proof. unfold apart. tauto. Qed.

(** Being pairwise non-overlapping does not depend on the order. *)
Lemma non_overlapping_perm (l l' : list Interval) :
  Permutation l l' -> non_overlapping l -> non_overlapping l'.
Proof.
  unfold non_overlapping.
  induction 1 as [|x l l' Hp IH|x y l|l l' l'' _ IH1 _ IH2]; intro H.
  - exact H.
  - inversion H as [|? ? Hx Hl]; subst.
    constructor; [|apply IH; exact Hl].
    eapply Permutation_Forall; eassumption.
  - inversion H as [|? ? Hy Hyl]; subst.
    inversion Hyl as [|? ? Hx Hl]; subst.
    inversion Hy as [|? ? Hyx Hyrest]; subst.
    constructor; [constructor; [apply apart_sym; exact Hyx|exact Hx]|].
    constructor; assumption.
  - auto.
Qed.

Lemma label_segments_intervals (labels : list Z) (segments : list Interval) :
  forall idx out,
    Diarizer.label_segments labels idx segments = Some out ->
    map interval_of out = segments.
Proof.
  induction segments as [|[s e] rest IH]; intros idx out H; simpl in H.
  - inversion H. reflexivity.
  - destruct (nth_error labels idx) as [l|]; [|discriminate].
    destruct (Diarizer.label_segments labels (S idx) rest) as [tl|] eqn:E;
      [|discriminate].
    inversion H; subst. simpl. unfold interval_of at 1. simpl.
    f_equal. eapply IH. exact E.
Qed.

(** [labels[idx]] fails only when there are fewer labels than intervals. *)
Lemma label_segments_none (labels : list Z) (segments : list Interval) :
  forall idx,
    Diarizer.label_segments labels idx segments = None ->
    (List.length labels < idx + List.length segments)%nat.
Proof.
  induction segments as [|[s e] rest IH]; intros idx H; simpl in H.
  - discriminate.
  - destruct (nth_error labels idx) as [l|] eqn:El.
    + destruct (Diarizer.label_segments labels (S idx) rest) as [tl|] eqn:E;
        [discriminate|].
      apply IH in E. simpl. lia.
    + apply nth_error_None in El. simpl. lia.
Qed.

Lemma single_speaker_intervals (segments : list Interval) :
  map interval_of
    (map (fun seg => mkSpeechSegment (fst seg) (snd seg) 0 (Py.lit ""))
       segments)
  = segments.
Proof.
  rewrite map_map. unfold interval_of. simpl.
  rewrite <- (map_id segments) at 2. apply map_ext. intros [s e]. reflexivity.
Qed.

(** What [diarize_segments] returns, in terms of the intervals it was
    given, and when it raises. *)
Lemma diarize_segments_intervals :
  forall (sk : Sklearn) (segments : list Interval) (features : Features)
         (diar_options : DiarOptions),
    let estimate :=
      Estimator.estimate_speaker_count sk features diar_options in
    match Diarizer.diarize_segments sk segments features diar_options with
    | Some out =>
        let intervals := map interval_of out in
        Permutation intervals segments
        /\ (non_overlapping segments <-> non_overlapping intervals)
        /\ (sorted_by_start segments ->
            intervals = segments /\ sorted_by_start intervals)
        /\ (segments <> [] -> exists k, estimate = Some k)
        /\ (forall k, estimate = Some k -> (k <= 1)%Z -> intervals = segments)
        /\ (forall k, estimate = Some k -> (1 < k)%Z ->
            sorted_by_start intervals)
    | None =>
        segments <> []
        /\ (estimate = None
            \/ exists k,
                 estimate = Some k /\ (1 < k)%Z
                 /\ (fit_predict sk features k = None
                     \/ exists labels,
                          fit_predict sk features k = Some labels
                          /\ (List.length labels < List.length segments)%nat))
    end.
Proof.
  intros sk segments features diar_options estimate.
  unfold Diarizer.diarize_segments. fold estimate.
  destruct segments as [|iv rest] eqn:Eseg.
  { cbv zeta. simpl. split; [constructor|]. split; [tauto|].
    split; [intros _; split; [reflexivity|constructor]|].
    split; [congruence|]. split; [reflexivity|]. intros. constructor. }
  rewrite <- Eseg.
  assert (Hne : segments <> []) by (rewrite Eseg; discriminate).
  clear Eseg iv rest.
  destruct estimate as [k|] eqn:Ek; [|split; [exact Hne|left; reflexivity]].
  destruct (Z.leb_spec k 1) as [Hk|Hk].
  - cbv zeta. rewrite single_speaker_intervals.
    split; [reflexivity|]. split; [tauto|]. split; [intro H; split; [reflexivity|exact H]|].
    split; [intros _; exists k; reflexivity|].
    split; [reflexivity|]. intros k' Hk' Hlt. inversion Hk'; subst. lia.
  - destruct (fit_predict sk features k) as [labels|] eqn:Ef.
    + destruct (Diarizer.label_segments labels 0 segments)
        as [labelled|] eqn:El; simpl.
      * pose proof (label_segments_intervals _ _ _ _ El) as Hiv.
        assert (Hperm : Permutation
                  (map interval_of (Diarizer.sort_by_start labelled))
                  segments).
        { rewrite <- Hiv. apply Permutation_map. apply sort_by_start_perm. }
        split; [exact Hperm|]. split.
        { split; intro H; eapply non_overlapping_perm; try exact H;
            [symmetry|]; exact Hperm. }
        split.
        { intro H. rewrite <- Hiv in H. apply starts_ascend_intervals in H.
          rewrite (sort_by_start_fixed _ H). split; [exact Hiv|].
          apply starts_ascend_intervals. exact H. }
        split; [intros _; exists k; reflexivity|].
        split; [intros k' Hk' Hle; inversion Hk'; subst; lia|].
        intros _ _ _. apply starts_ascend_intervals. apply sort_by_start_sorted.
      * split; [exact Hne|]. right. exists k. split; [reflexivity|].
        split; [exact Hk|]. right. exists labels. split; [exact Ef|].
        apply label_segments_none in El. lia.
    + split; [exact Hne|]. right. exists k. split; [reflexivity|].
      split; [exact Hk|]. left. exact Ef.
Qed.

(** Along the pipeline: the intervals of [energy_vad], for a hop and a
    minimal silence that are not negative, come back from
    [diarize_segments] in the same order, sorted by start time and
    pairwise non-overlapping. *)
Lemma vad_then_diarize_sorted_disjoint (np : NumPy) (sk : Sklearn)
    (audio : list Q) (sr : Z) (options : VadOptions) (features : Features)
    (diar_options : DiarOptions) (intervals : list Interval)
    (out : list SpeechSegment) :
  0 <= Py.get (hop_length options) DEFAULT_VAD_OPTIONS.hop_length ->
  0 <= Py.get (min_silence options) DEFAULT_VAD_OPTIONS.min_silence ->
  Vad.energy_vad np audio sr options = Some intervals ->
  Diarizer.diarize_segments sk intervals features diar_options = Some out ->
  map interval_of out = intervals
  /\ sorted_by_start (map interval_of out)
  /\ non_overlapping (map interval_of out).
Proof.
  intros Hhop Hsil Hvad Hdiar.
  destruct (energy_vad_sorted_disjoint np audio sr options intervals
              Hhop Hsil Hvad) as [Hsorted Hdisj].
  pose proof (diarize_segments_intervals sk intervals features diar_options)
    as H.
  cbv zeta in H. rewrite Hdiar in H.
  destruct H as [_ [Hno [Hso _]]].
  destruct (Hso Hsorted) as [Heq Hs].
  split; [exact Heq|]. split; [exact Hs|apply Hno; exact Hdisj].
Qed.

(** C8 (amended).  The segments [diarize_segments] returns carry the
    given intervals, reordered at most.  They are pairwise
    non-overlapping exactly when the given intervals are.  They are
    sorted by start time whenever the given intervals are (their order is
    then unchanged) or more than one speaker was estimated (the only path
    that sorts); when at most one speaker was estimated the given order
    is kept as it is.  The function raises only when the estimator or the
    clusterer raises, or the clusterer hands back fewer labels than there
    are intervals. *)
Theorem diarize_keeps_intervals_sorted_when_input_is :
  forall (sk : Sklearn) (segments : list Interval) (features : Features)
         (diar_options : DiarOptions),
    let estimate :=
      Estimator.estimate_speaker_count sk features diar_options in
    match Diarizer.diarize_segments sk segments features diar_options with
    | Some out =>
        let intervals := map interval_of out in
        Permutation intervals segments
        /\ (non_overlapping segments <-> non_overlapping intervals)
        /\ (sorted_by_start segments ->
            intervals = segments /\ sorted_by_start intervals)
        /\ (segments <> [] -> exists k, estimate = Some k)
        /\ (forall k, estimate = Some k -> (k <= 1)%Z -> intervals = segments)
        /\ (forall k, estimate = Some k -> (1 < k)%Z ->
            sorted_by_start intervals)
    | None =>
        segments <> []
        /\ (estimate = None
            \/ exists k,
                 estimate = Some k /\ (1 < k)%Z
                 /\ (fit_predict sk features k = None
                     \/ exists labels,
                          fit_predict sk features k = Some labels
                          /\ (List.length labels < List.length segments)%nat))
    end.
Proof. exact diarize_segments_intervals. Qed.

(** C8, as stated, fails on both counts.  Intervals given latest first
    come back in the same order on the single-speaker path, which does
    not sort; and intervals that overlap come back overlapping, also on
    the path that sorts (three speakers asked for on three rows). *)
Lemma diarize_single_speaker_keeps_order :
  (Diarizer.diarize_segments Reference.sklearn_three_rows
     Reference.unsorted_intervals Reference.two_rows Reference.one_speaker
   = Some [mkSpeechSegment 5 6 0 []; mkSpeechSegment 0 1 0 []]
   /\ ~ sorted_by_start
        (map interval_of
           [mkSpeechSegment 5 6 0 []; mkSpeechSegment 0 1 0 []]))
  /\ (Diarizer.diarize_segments Reference.sklearn_three_rows
        [(6, 7); (0, 5); (1, 2)] Reference.three_rows Reference.three_speakers
      = Some [mkSpeechSegment 0 5 1 []; mkSpeechSegment 1 2 2 [];
              mkSpeechSegment 6 7 0 []]
      /\ ~ non_overlapping
           (map interval_of
              [mkSpeechSegment 0 5 1 []; mkSpeechSegment 1 2 2 [];
               mkSpeechSegment 6 7 0 []])).
Proof.
  split; (split; [reflexivity|]).
  - intro H. inversion H as [|? ? Hx _]; subst.
    inversion Hx as [|? ? H56 _]; subst. simpl in H56.
    revert H56. apply Qlt_not_le. reflexivity.
  - intro H. inversion H as [|? ? Hx _]; subst.
    inversion Hx as [|? ? [H1|H1] _]; subst; simpl in H1;
      revert H1; apply Qlt_not_le; reflexivity.
Qed.


(* ================================================================== *)
(** * [format_timestamp]: the three fields *)
(* ================================================================== *)

Lemma Qfloor_unique (x : Q) (z : Z) :
  inject_Z z <= x -> x < inject_Z (z + 1) -> Qfloor x = z.
Proof.
  intros Hle Hlt.
  pose proof (Qfloor_le x) as H1. pose proof (Qlt_floor x) as H2.
  assert (Ha : inject_Z z < inject_Z (Qfloor x + 1))
    by (eapply Qle_lt_trans; eassumption).
  assert (Hb : inject_Z (Qfloor x) < inject_Z (z + 1))
    by (eapply Qle_lt_trans; eassumption).
  rewrite <- Zlt_Qlt in Ha, Hb. lia.
Qed.

Lemma int_inject_Z (z : Z) : Py.int (inject_Z z) = z.
Proof. unfold Py.int. simpl. apply Z.quot_1_r. Qed.

(** The remainder of a floor division lies in [[0, b)]. *)
Lemma mod_range (a b : Q) :
  0 < b -> 0 <= PyMore.mod_ a b /\ PyMore.mod_ a b < b.
Proof.
  intro Hb. unfold PyMore.mod_.
  pose proof (Qfloor_le (a / b)) as H1. pose proof (Qlt_floor (a / b)) as H2.
  rewrite inject_Z_plus in H2.
  assert (Hab : a == b * (a / b)) by (field; lra).
  assert (Hx : b * inject_Z (Qfloor (a / b)) <= b * (a / b))
    by (apply Qmult_le_l; assumption).
  assert (Hy : b * (a / b) < b * (inject_Z (Qfloor (a / b)) + inject_Z 1))
    by (apply Qmult_lt_l; assumption).
  change (inject_Z 1) with 1 in Hy.
  split; lra.
Qed.

(** The minutes and seconds fields stay below sixty. *)
Lemma format_timestamp_fields_range (value : Q) :
  (0 <= Timestamp.minutes value <= 59)%Z
  /\ 0 <= Timestamp.seconds value < 60.
Proof.
  unfold Timestamp.minutes, Timestamp.seconds, PyMore.floordiv.
  rewrite int_inject_Z.
  pose proof (mod_range value 3600 ltac:(reflexivity)) as Hr.
  set (r := PyMore.mod_ value 3600) in *.
  pose proof (mod_range r 60 ltac:(reflexivity)) as [Hm1 Hm2].
  unfold PyMore.mod_ in Hm1, Hm2.
  set (m := Qfloor (r / 60)) in *.
  split; [|apply mod_range; reflexivity].
  assert (Ha : inject_Z (-1) < inject_Z m)
    by (change (inject_Z (-1)) with (- (1)); lra).
  assert (Hb : inject_Z m < inject_Z 60)
    by (change (inject_Z 60) with 60; lra).
  rewrite <- Zlt_Qlt in Ha, Hb. lia.
Qed.

(** X1.  The three fields [format_timestamp] prints add up to the value
    (hours * 3600 + minutes * 60 + seconds), the minutes field is between
    0 and 59, the seconds field is in [[0, 60)], and the hours field is
    not negative for a value that is not negative. *)
Theorem format_timestamp_fields_decompose :
  forall value : Q,
    inject_Z (Timestamp.hours value) * 3600
    + inject_Z (Timestamp.minutes value) * 60
    + Timestamp.seconds value == value
    /\ (0 <= Timestamp.minutes value <= 59)%Z
    /\ 0 <= Timestamp.seconds value
    /\ Timestamp.seconds value < 60
    /\ (0 <= value -> (0 <= Timestamp.hours value)%Z).
Proof.
  intro value.
  unfold Timestamp.hours, Timestamp.minutes, Timestamp.seconds, PyMore.floordiv.
  rewrite !int_inject_Z.
  set (h := Qfloor (value / 3600)).
  assert (Hr : 0 <= PyMore.mod_ value 3600 /\ PyMore.mod_ value 3600 < 3600)
    by (apply mod_range; reflexivity).
  set (r := PyMore.mod_ value 3600) in *.
  assert (Er : r == value - 3600 * inject_Z h) by reflexivity.
  set (m := Qfloor (r / 60)).
  pose proof (mod_range r 60 ltac:(reflexivity)) as [Hm1 Hm2].
  unfold PyMore.mod_ in Hm1, Hm2. fold m in Hm1, Hm2.
  assert (Hm : (0 <= m <= 59)%Z).
  { assert (Ha : inject_Z (-1) < inject_Z m)
      by (change (inject_Z (-1)) with (- (1)); lra).
    assert (Hb : inject_Z m < inject_Z 60)
      by (change (inject_Z 60) with 60; lra).
    rewrite <- Zlt_Qlt in Ha, Hb. lia. }
  assert (Hf : Qfloor (value / 60) = (60 * h + m)%Z).
  { apply Qfloor_unique.
    - apply Qle_shift_div_l; [reflexivity|].
      rewrite inject_Z_plus, inject_Z_mult. change (inject_Z 60) with 60. lra.
    - apply Qlt_shift_div_r; [reflexivity|].
      rewrite !inject_Z_plus, inject_Z_mult. change (inject_Z 60) with 60.
      change (inject_Z 1) with 1. lra. }
  assert (Hs : PyMore.mod_ value 60
               == value - 60 * (60 * inject_Z h + inject_Z m)).
  { unfold PyMore.mod_. rewrite Hf, inject_Z_plus, inject_Z_mult.
    change (inject_Z 60) with 60. reflexivity. }
  pose proof (mod_range value 60 ltac:(reflexivity)) as [Hs0 Hs1].
  split; [rewrite Hs; lra|]. split; [exact Hm|].
  split; [exact Hs0|]. split; [exact Hs1|].
  intro Hv. subst h.
  assert (H0 : (Qfloor 0 <= Qfloor (value / 3600))%Z).
  { apply Qfloor_resp_le. apply Qle_shift_div_l; [reflexivity|lra]. }
  exact H0.
Qed.

Lemma no_dot_in_digits (sep : Py.str) (d : Decimal.uint) :
  PyMore.replace_dot sep (PyMore.digits d) = PyMore.digits d.
Proof.
  induction d; simpl; try reflexivity;
    unfold PyMore.replace_dot in *; simpl; congruence.
Qed.

Lemma replace_dot_app (sep a b : Py.str) :
  PyMore.replace_dot sep (a ++ b)
  = PyMore.replace_dot sep a ++ PyMore.replace_dot sep b.
Proof. unfold PyMore.replace_dot. apply flat_map_app. Qed.

Lemma replace_dot_format_02d (sep : Py.str) (n : Z) :
  PyMore.replace_dot sep (PyMore.format_02d n) = PyMore.format_02d n.
Proof.
  assert (Hz : forall k, PyMore.replace_dot sep (repeat 48%N k) = repeat 48%N k).
  { induction k; simpl; [reflexivity|].
    unfold PyMore.replace_dot in *. simpl. congruence. }
  unfold PyMore.format_02d, PyMore.zero_pad.
  destruct (n <? 0)%Z.
  - change (45%N :: ?l) with ([45%N] ++ l).
    rewrite !replace_dot_app, Hz, no_dot_in_digits. reflexivity.
  - rewrite replace_dot_app, Hz, no_dot_in_digits. reflexivity.
Qed.

Lemma replace_dot_by_dot (s : Py.str) :
  PyMore.replace_dot (Py.lit ".") s = s.
Proof.
  unfold PyMore.replace_dot. induction s as [|c s IH]; simpl; [reflexivity|].
  destruct (N.eqb_spec c 46) as [->|_]; simpl; rewrite IH; reflexivity.
Qed.

(** X2.  The separator of [format_timestamp] only reaches the rendered
    seconds: the result is the two-digit hours and minutes fields and the
    seconds with their dots replaced, joined by colons; the default
    separator leaves the seconds as rendered; and the minutes field is
    always exactly two characters long. *)
Theorem format_timestamp_layout :
  forall (ff : FloatFormat) (value : Q) (separator : Py.str),
    Timestamp.format_timestamp ff value separator
    = PyMore.format_02d (Timestamp.hours value) ++ Py.lit ":"
      ++ PyMore.format_02d (Timestamp.minutes value) ++ Py.lit ":"
      ++ PyMore.replace_dot separator
           (format_06_3f ff (Timestamp.seconds value))
    /\ Timestamp.format_timestamp ff value (Py.lit ".")
       = PyMore.format_02d (Timestamp.hours value) ++ Py.lit ":"
         ++ PyMore.format_02d (Timestamp.minutes value) ++ Py.lit ":"
         ++ format_06_3f ff (Timestamp.seconds value)
    /\ List.length (PyMore.format_02d (Timestamp.minutes value)) = 2%nat.
Proof.
  intros ff value separator.
  assert (Hgen : forall sep,
    Timestamp.format_timestamp ff value sep
    = PyMore.format_02d (Timestamp.hours value) ++ Py.lit ":"
      ++ PyMore.format_02d (Timestamp.minutes value) ++ Py.lit ":"
      ++ PyMore.replace_dot sep (format_06_3f ff (Timestamp.seconds value))).
  { intro sep. unfold Timestamp.format_timestamp.
    rewrite !replace_dot_app, !replace_dot_format_02d. reflexivity. }
  split; [apply Hgen|]. split; [rewrite Hgen, replace_dot_by_dot; reflexivity|].
  destruct (format_timestamp_fields_range value) as [Hm _].
  assert (Hall : forallb
            (fun k => (List.length (PyMore.format_02d (Z.of_nat k)) =? 2)%nat)
            (seq 0 60) = true) by reflexivity.
  rewrite forallb_forall in Hall.
  specialize (Hall (Z.to_nat (Timestamp.minutes value))).
  rewrite Z2Nat.id in Hall by lia.
  apply Nat.eqb_eq. apply Hall. apply in_seq. lia.
Qed.


(* ================================================================== *)
(** * Energy VAD: spacing, length and framing of the result *)
(* ================================================================== *)

Lemma close_segment_separated segments seg_start seg_end min_sil :
  ForallOrdPairs (separated min_sil) segments ->
  Forall (fun a => fst a <= seg_start) segments ->
  ForallOrdPairs (separated min_sil)
    (Vad.close_segment segments seg_start seg_end min_sil)
  /\ Forall (fun a => fst a <= seg_start)
       (Vad.close_segment segments seg_start seg_end min_sil).
Proof.
  intros Hch Hb. unfold Vad.close_segment.
  destruct (Py.split_last segments) as [[init [prev_start prev_end]]|] eqn:E.
  - apply split_last_some in E. subst segments.
    apply ForallOrdPairs_snoc in Hch. destruct Hch as [Hinit Hprev].
    apply Forall_app in Hb. destruct Hb as [Hbi Hbp].
    inversion Hbp as [|? ? Hps _]; subst. simpl in Hps.
    destruct (Py.Qltb (seg_start - prev_end) min_sil) eqn:L.
    + split.
      * apply ForallOrdPairs_snoc. split; [exact Hinit|exact Hprev].
      * apply Forall_app. split; [exact Hbi|]. constructor; [exact Hps|constructor].
    + apply Qltb_ge in L. split.
      * apply ForallOrdPairs_snoc. split.
        -- apply ForallOrdPairs_snoc. split; assumption.
        -- apply Forall_app. split.
           ++ rewrite Forall_forall in *. intros a Ha.
              destruct (Hprev a Ha) as [_ H2]. specialize (Hbi a Ha).
              unfold separated in *. simpl in *. split; lra.
           ++ constructor; [|constructor]. unfold separated. simpl. split; lra.
      * apply Forall_app. split.
        -- apply Forall_app. split; assumption.
        -- constructor; [apply Qle_refl|constructor].
  - apply split_last_none in E. subst segments. simpl. split.
    + repeat constructor.
    + constructor; [apply Qle_refl|constructor].
Qed.

Lemma scan_flags_separated hop frame_len min_sil dur (flags : list bool) :
  0 <= hop ->
  forall index segments current_start segments' current_start',
    (next_start index current_start <= index)%Z ->
    ForallOrdPairs (separated min_sil) segments ->
    Forall (fun a => fst a <= inject_Z (next_start index current_start) * hop)
      segments ->
    Vad.scan_flags hop frame_len min_sil dur index flags segments current_start
      = (segments', current_start') ->
    ForallOrdPairs (separated min_sil) segments'
    /\ forall cs, current_start' = Some cs ->
         Forall (fun a => fst a <= inject_Z cs * hop) segments'.
Proof.
  intros Hhop.
  induction flags as [|f flags IH];
    intros index segments current_start segments' current_start' Hle Hch Hb H;
    simpl in H.
  - inversion H; subst. split; [exact Hch|].
    intros cs ->. exact Hb.
  - destruct f, current_start as [cs|]; simpl in Hle, Hb.
    + eapply IH; [| | |exact H]; simpl; [lia|exact Hch|exact Hb].
    + eapply IH; [| | |exact H]; simpl; [lia|exact Hch|exact Hb].
    + destruct (close_segment_separated segments (inject_Z cs * hop)
                  (Py.min dur (inject_Z index * hop + frame_len)) min_sil
                  Hch Hb) as [Hch' Hb'].
      eapply IH; [| | |exact H]; simpl; [lia|exact Hch'|].
      eapply Forall_impl; [|exact Hb']. intros a Ha. simpl in Ha.
      pose proof (index_times_hop_mono cs (index + 1) hop ltac:(lia) Hhop). lra.
    + eapply IH; [| | |exact H]; simpl; [lia|exact Hch|].
      eapply Forall_impl; [|exact Hb]. intros a Ha. simpl in Ha.
      pose proof (index_times_hop_mono index (index + 1) hop ltac:(lia) Hhop). lra.
Qed.

Lemma candidate_segments_separated hop frame_len min_sil dur flags :
  0 <= hop ->
  ForallOrdPairs (separated min_sil)
    (Vad.candidate_segments hop frame_len min_sil dur flags).
Proof.
  intros Hhop. unfold Vad.candidate_segments.
  destruct (Vad.scan_flags hop frame_len min_sil dur 0 flags [] None)
    as [segments cs] eqn:E.
  destruct (scan_flags_separated hop frame_len min_sil dur flags Hhop
              0 [] None segments cs (Z.le_refl 0)
              (FOP_nil _) (Forall_nil _) E) as [Hch Hb].
  destruct cs as [cs|]; [|exact Hch].
  apply close_segment_separated; [exact Hch|apply Hb; reflexivity].
Qed.

(** What [energy_vad] returns is the whole-buffer interval or the
    candidates that passed the length filter. *)
Lemma energy_vad_cases (np : NumPy) (audio : list Q) (sr : Z)
    (options : VadOptions) (intervals : list Interval) :
  Vad.energy_vad np audio sr options = Some intervals ->
  intervals = [(0, Vad.duration audio sr)]
  \/ intervals
     = Vad.refine (Py.get (min_speech options) DEFAULT_VAD_OPTIONS.min_speech)
         (Vad.candidates np audio sr options).
Proof.
  unfold Vad.energy_vad. intro H.
  destruct (sr =? 0)%Z; [discriminate|].
  destruct (Py.len audio <? Vad.frame_samples sr options)%Z;
    [inversion H; left; reflexivity|].
  destruct (Py.len (Vad.frame_energies np audio sr options) =? 0)%Z;
    [inversion H; left; reflexivity|].
  destruct (Vad.refine _ (Vad.candidates np audio sr options))
    as [|iv rest] eqn:Eref; inversion H; [left|right]; reflexivity.
Qed.

(** X3.  With a hop that is not negative, the intervals [energy_vad]
    returns are sorted by start time and every interval starts at least
    [min_silence] after each earlier interval ends (closer candidates
    were merged); for a [min_silence] that is not negative they are
    therefore pairwise non-overlapping. *)
Theorem energy_vad_intervals_spaced :
  forall (np : NumPy) (audio : list Q) (sr : Z) (options : VadOptions)
         (intervals : list Interval),
    0 <= Py.get (hop_length options) DEFAULT_VAD_OPTIONS.hop_length ->
    Vad.energy_vad np audio sr options = Some intervals ->
    let min_sil :=
      Py.get (min_silence options) DEFAULT_VAD_OPTIONS.min_silence in
    ForallOrdPairs (separated min_sil) intervals
    /\ sorted_by_start intervals
    /\ (0 <= min_sil -> non_overlapping intervals).
Proof.
  intros np audio sr options intervals Hhop H min_sil.
  assert (Hsep : ForallOrdPairs (separated min_sil) intervals).
  { destruct (energy_vad_cases np audio sr options intervals H) as [->| ->].
    - repeat constructor.
    - apply ForallOrdPairs_filter. unfold Vad.candidates.
      apply candidate_segments_separated. exact Hhop. }
  split; [exact Hsep|]. split.
  - eapply ForallOrdPairs_impl; [|exact Hsep]. intros a b [H1 _]. exact H1.
  - intro Hsil. eapply ForallOrdPairs_impl; [|exact Hsep].
    intros a b [_ H2]. left. lra.
Qed.

Lemma energy_vad_intervals_spaced_witness :
  ForallOrdPairs (separated (3 # 10)) [(1, 3); (4, 6)]
  /\ sorted_by_start [(1, 3); (4, 6)]
  /\ (0 <= 3 # 10 -> non_overlapping [(1, 3); (4, 6)]).
Proof.
  apply (energy_vad_intervals_spaced Reference.numpy Samples.two_bursts 1
           Samples.one_second_frames [(1, 3); (4, 6)]).
  - discriminate.
  - reflexivity.
Defined.

(** X4.  Unless [energy_vad] falls back to the single whole-buffer
    interval, every interval it returns lasts at least [min_speech]
    seconds. *)
Theorem energy_vad_intervals_long_enough :
  forall (np : NumPy) (audio : list Q) (sr : Z) (options : VadOptions)
         (intervals : list Interval),
    Vad.energy_vad np audio sr options = Some intervals ->
    intervals = [(0, Vad.duration audio sr)]
    \/ Forall (fun iv =>
                 Py.get (min_speech options) DEFAULT_VAD_OPTIONS.min_speech
                 <= snd iv - fst iv) intervals.
Proof.
  intros np audio sr options intervals H.
  destruct (energy_vad_cases np audio sr options intervals H) as [->| ->];
    [left; reflexivity|right].
  apply Forall_forall. intros iv Hiv. apply refine_in in Hiv. tauto.
Qed.

Lemma energy_vad_intervals_long_enough_witness :
  [(1, 3); (4, 6)] = [(0, Vad.duration Samples.two_bursts 1)]
  \/ Forall (fun iv => 4 # 10 <= snd iv - fst iv) [(1, 3); (4, 6)].
Proof.
  apply (energy_vad_intervals_long_enough Reference.numpy
           Samples.two_bursts 1 Samples.one_second_frames).
  reflexivity.
Defined.

Lemma in_range_from_zero (b s k : Z) :
  (0 < s)%Z -> In k (Py.range 0 b s) -> (0 <= k /\ k < b)%Z.
Proof.
  intros Hs H. unfold Py.range in H. apply in_map_iff in H.
  destruct H as [i [<- Hi]]. apply in_seq in Hi.
  set (n := ((b - 0 + s - 1) / s)%Z) in *.
  assert (Hn : (0 < n)%Z) by lia.
  assert (Hmul : (s * n <= b - 0 + s - 1)%Z)
    by (apply Z.mul_div_le; exact Hs).
  assert (Hi' : (Z.of_nat i <= n - 1)%Z) by lia.
  assert (Hprod : (Z.of_nat i * s <= (n - 1) * s)%Z)
    by (apply Z.mul_le_mono_nonneg_r; lia).
  split; [lia|]. nia.
Qed.

Lemma slice_len {A : Type} (xs : list A) (st n : Z) :
  (0 <= st)%Z -> (0 <= n)%Z -> (st + n <= Py.len xs)%Z ->
  Py.len (Py.slice xs st n) = n.
Proof.
  intros Hst Hn Hle. unfold Py.slice, Py.len in *.
  rewrite length_firstn, length_skipn. lia.
Qed.

(** X5.  The energies are taken frame by frame: every frame holds
    exactly [frame_samples] samples (no frame runs past the end of the
    buffer), and a buffer of at least one frame yields
    [(len - frame_samples) // hop_samples + 1] energies, so at least one:
    the empty-energies return of lines 78-79 is never taken. *)
Theorem energy_vad_frames_are_full :
  forall (np : NumPy) (audio : list Q) (sr : Z) (options : VadOptions),
    Vad.frame_energies np audio sr options
    = map (fun frame => float32 np (rms np frame)) (vad_frames audio sr options)
    /\ Forall (fun frame => Py.len frame = Vad.frame_samples sr options)
         (vad_frames audio sr options)
    /\ ((Vad.frame_samples sr options <= Py.len audio)%Z ->
        Py.len (Vad.frame_energies np audio sr options)
        = ((Py.len audio - Vad.frame_samples sr options)
           / Vad.hop_samples sr options + 1)%Z
        /\ (1 <= Py.len (Vad.frame_energies np audio sr options))%Z).
Proof.
  intros np audio sr options.
  assert (Hfs : (1 <= Vad.frame_samples sr options)%Z)
    by (unfold Vad.frame_samples; lia).
  assert (Hhs : (1 <= Vad.hop_samples sr options)%Z)
    by (unfold Vad.hop_samples; lia).
  split; [unfold Vad.frame_energies, vad_frames; rewrite map_map; reflexivity|].
  split.
  - unfold vad_frames. apply Forall_forall. intros frame Hin.
    apply in_map_iff in Hin. destruct Hin as [st [<- Hst]].
    apply in_range_from_zero in Hst; [|lia].
    apply slice_len; lia.
  - intro Hlen.
    assert (Heq : Py.len (Vad.frame_energies np audio sr options)
                  = ((Py.len audio - Vad.frame_samples sr options)
                     / Vad.hop_samples sr options + 1)%Z).
    { unfold Vad.frame_energies, Py.range. unfold Py.len at 1.
      rewrite !length_map, length_seq.
      set (d := (Py.len audio - Vad.frame_samples sr options)%Z).
      set (h := Vad.hop_samples sr options) in *.
      replace (d + 1 - 0 + h - 1)%Z with (d + 1 * h)%Z by lia.
      rewrite Z.div_add by lia.
      assert (0 <= d / h)%Z by (apply Z.div_pos; lia).
      lia. }
    split; [exact Heq|]. rewrite Heq.
    assert (0 <= (Py.len audio - Vad.frame_samples sr options)
                 / Vad.hop_samples sr options)%Z
      by (apply Z.div_pos; lia).
    lia.
Qed.


(* ================================================================== *)
(** * Feature extractor *)
(* ================================================================== *)

Lemma vstack_some (rows out : list (list Q)) :
  PyMore.vstack rows = Some out -> out = rows.
Proof.
  unfold PyMore.vstack. destruct rows as [|r rest]; [congruence|].
  destruct (forallb _ rest); congruence.
Qed.

Lemma vstack_uniform (rows : list (list Q)) (t : nat) :
  Forall (fun row => List.length row = t) rows ->
  PyMore.vstack rows = Some rows.
Proof.
  intro H. unfold PyMore.vstack. destruct rows as [|r rest]; [reflexivity|].
  inversion H as [|? ? Hr Hrest]; subst.
  replace (forallb _ rest) with true; [reflexivity|].
  symmetry. apply forallb_forall. intros x Hx.
  rewrite Forall_forall in Hrest. apply Nat.eqb_eq. apply Hrest. exact Hx.
Qed.

Lemma lengths_repeat (rows : list (list Q)) (t n : nat) :
  map (@List.length Q) rows = repeat t n ->
  List.length rows = n /\ Forall (fun row => List.length row = t) rows.
Proof.
  revert n. induction rows as [|r rows IH]; intros [|n] H; simpl in H;
    try discriminate.
  - split; [reflexivity|constructor].
  - injection H as Hr Hrest. destruct (IH n Hrest) as [Hl Hall].
    split; [simpl; congruence|constructor; assumption].
Qed.

Lemma feature_rows_spec np lib audio sr (segments : list Interval) :
  forall acc out,
    FeatureExtractor.feature_rows np lib audio sr acc segments = Some out ->
    exists rows,
      out = acc ++ rows
      /\ Forall2 (fun seg row =>
                    FeatureExtractor.feature_row np lib audio sr seg = Some row)
           segments rows.
Proof.
  induction segments as [|seg rest IH]; intros acc out H; simpl in H.
  - inversion H; subst. exists []. split; [symmetry; apply app_nil_r|constructor].
  - destruct (FeatureExtractor.feature_row np lib audio sr seg) as [row|] eqn:E;
      [|discriminate].
    apply IH in H. destruct H as [rows [-> Hall]].
    exists (row :: rows). split; [rewrite <- app_assoc; reflexivity|].
    constructor; assumption.
Qed.

Lemma feature_rows_returns np lib audio sr (segments : list Interval) :
  (forall seg, exists row,
      FeatureExtractor.feature_row np lib audio sr seg = Some row) ->
  forall acc, exists out,
    FeatureExtractor.feature_rows np lib audio sr acc segments = Some out.
Proof.
  intro Hrow. induction segments as [|seg rest IH]; intro acc; simpl.
  - eauto.
  - destruct (Hrow seg) as [row ->]. apply IH.
Qed.

(** With the documented shapes, the statistics of one slice are 78
    numbers. *)
Lemma feature_vector_shape np lib sr (segment_audio : list Q) :
  librosa_shapes lib ->
  exists v,
    FeatureExtractor.feature_vector np lib sr segment_audio = Some v
    /\ List.length v = 78%nat.
Proof.
  intros [Hm Hd]. unfold FeatureExtractor.feature_vector.
  destruct (Hm segment_audio sr 13%Z) as [m [t [-> Ht]]].
  destruct (Hd m 1%Z) as [d [-> H1]]. destruct (Hd m 2%Z) as [d2 [-> H2]].
  rewrite Ht in H1, H2.
  destruct (lengths_repeat _ _ _ Ht) as [Lm Fm].
  destruct (lengths_repeat _ _ _ H1) as [L1 F1].
  destruct (lengths_repeat _ _ _ H2) as [L2 F2].
  assert (Hall : Forall (fun row => List.length row = t) (m ++ d ++ d2)).
  { apply Forall_app. split; [exact Fm|]. apply Forall_app. split; assumption. }
  rewrite (vstack_uniform _ t Hall).
  eexists. split; [reflexivity|].
  rewrite length_map, length_app, !length_map, !length_app, Lm, L1, L2.
  reflexivity.
Qed.

Lemma feature_row_shape np lib audio sr (seg : Interval) :
  librosa_shapes lib ->
  exists row,
    FeatureExtractor.feature_row np lib audio sr seg = Some row
    /\ List.length row = 78%nat.
Proof.
  intro Hlib. unfold FeatureExtractor.feature_row.
  destruct (Py.len (FeatureExtractor.segment_slice audio sr seg) =? 0)%Z.
  - eexists. split; [reflexivity|]. apply repeat_length.
  - apply feature_vector_shape. exact Hlib.
Qed.

(** The shape of what [extract_features] returns. *)
Lemma extract_features_shape :
  forall (np : NumPy) (lib : Librosa) (audio : list Q) (sr : Z)
         (segments : list Interval),
    (forall features,
       FeatureExtractor.extract_features np lib audio sr segments
         = Some features ->
       Forall2 (fun seg row =>
                  FeatureExtractor.feature_row np lib audio sr seg = Some row)
         segments features)
    /\ (librosa_shapes lib ->
        exists features,
          FeatureExtractor.extract_features np lib audio sr segments
            = Some features
          /\ List.length features = List.length segments
          /\ Forall (fun row => Py.len row = FeatureExtractor.feature_dim)
               features).
Proof.
  intros np lib audio sr segments.
  assert (Hspec : forall features,
    FeatureExtractor.extract_features np lib audio sr segments = Some features ->
    Forall2 (fun seg row =>
               FeatureExtractor.feature_row np lib audio sr seg = Some row)
      segments features).
  { intros features H. unfold FeatureExtractor.extract_features in H.
    destruct (FeatureExtractor.feature_rows np lib audio sr [] segments)
      as [out|] eqn:E; [|discriminate].
    apply feature_rows_spec in E. destruct E as [rows [-> Hall]]. simpl in *.
    destruct rows as [|r rows].
    - inversion H; subst. exact Hall.
    - apply vstack_some in H. subst. exact Hall. }
  split; [exact Hspec|]. intro Hlib.
  assert (Hrow : forall seg, exists row,
            FeatureExtractor.feature_row np lib audio sr seg = Some row).
  { intro seg. destruct (feature_row_shape np lib audio sr seg Hlib)
      as [row [E _]]. eauto. }
  destruct (feature_rows_returns np lib audio sr segments Hrow [])
    as [out Hout].
  assert (Hrows := Hout). apply feature_rows_spec in Hrows.
  destruct Hrows as [rows [-> Hall]]. simpl in *.
  assert (H78 : Forall (fun row => List.length row = 78%nat) rows).
  { clear Hout Hspec. induction Hall as [|seg row segs rows' Hsr _ IH];
      [constructor|constructor; [|exact IH]].
    destruct (feature_row_shape np lib audio sr seg Hlib) as [row' [E L]].
    congruence. }
  assert (Hex : FeatureExtractor.extract_features np lib audio sr segments
                = Some rows).
  { unfold FeatureExtractor.extract_features. rewrite Hout.
    destruct rows as [|r rows']; [reflexivity|].
    apply (vstack_uniform _ 78%nat). exact H78. }
  exists rows. split; [exact Hex|]. split.
  - symmetry. eapply Forall2_length. exact Hall.
  - eapply Forall_impl; [|exact H78]. intros row Hr.
    unfold Py.len, FeatureExtractor.feature_dim. rewrite Hr. reflexivity.
Qed.

(** X6.  Whenever [extract_features] returns, the matrix has one row per
    interval, in order; and with the shapes librosa documents (13 MFCC
    rows of one width, deltas of the same shape) it always returns, and
    every row has 78 entries. *)
Theorem extract_features_row_per_interval :
  forall (np : NumPy) (lib : Librosa) (audio : list Q) (sr : Z)
         (segments : list Interval),
    (forall features,
       FeatureExtractor.extract_features np lib audio sr segments
         = Some features ->
       Forall2 (fun seg row =>
                  FeatureExtractor.feature_row np lib audio sr seg = Some row)
         segments features)
    /\ (librosa_shapes lib ->
        exists features,
          FeatureExtractor.extract_features np lib audio sr segments
            = Some features
          /\ List.length features = List.length segments
          /\ Forall (fun row => Py.len row = FeatureExtractor.feature_dim)
               features).
Proof. exact extract_features_shape. Qed.

Lemma sample_librosa_shapes : librosa_shapes Samples.librosa.
Proof.
  split.
  - intros y sr n. exists (repeat [0; 0] (Z.to_nat n)), 2%nat.
    split; [reflexivity|].
    induction (Z.to_nat n) as [|k IH]; simpl; congruence.
  - intros m order. exists m. split; reflexivity.
Qed.

Lemma extract_features_row_per_interval_witness :
  exists features,
    FeatureExtractor.extract_features Reference.numpy Samples.librosa
      Samples.two_bursts 1 [(1, 3); (4, 6)] = Some features
    /\ List.length features = 2%nat
    /\ Forall (fun row => Py.len row = FeatureExtractor.feature_dim) features.
Proof.
  apply (extract_features_row_per_interval Reference.numpy Samples.librosa
           Samples.two_bursts 1 [(1, 3); (4, 6)]).
  exact sample_librosa_shapes.
Defined.

(** X7.  A non-empty slice goes to the feature kernels with at least
    [int(0.25 * sr)] samples: the padded buffer starts with the slice
    itself, is [max(len(slice), min_samples)] long, and everything after
    the slice is a copy of its last sample. *)
Theorem short_slices_are_padded_with_last_sample :
  forall (sr : Z) (segment_audio : list Q),
    segment_audio <> [] ->
    let padded := FeatureExtractor.pad_short sr segment_audio in
    firstn (List.length segment_audio) padded = segment_audio
    /\ Py.len padded
       = Z.max (Py.len segment_audio) (FeatureExtractor.min_samples sr)
    /\ Forall (fun x => x = last segment_audio 0)
         (skipn (List.length segment_audio) padded).
Proof.
  intros sr segment_audio Hne padded. subst padded.
  unfold FeatureExtractor.pad_short.
  destruct (Z.ltb_spec (Py.len segment_audio) (FeatureExtractor.min_samples sr))
    as [Hlt|Hge].
  - unfold PyMore.pad_edge. split; [|split].
    + rewrite firstn_app, Nat.sub_diag, firstn_all. simpl. apply app_nil_r.
    + unfold Py.len in *. rewrite length_app, repeat_length. lia.
    + rewrite skipn_app, Nat.sub_diag, skipn_all. simpl.
      apply Forall_forall. intros x Hx. apply repeat_spec in Hx. exact Hx.
  - split; [apply firstn_all|]. split; [lia|].
    rewrite skipn_all. constructor.
Qed.

Lemma short_slices_are_padded_with_last_sample_witness :
  firstn 2 (FeatureExtractor.pad_short 16 [1; 2]) = [1; 2]
  /\ Py.len (FeatureExtractor.pad_short 16 [1; 2])
     = Z.max 2 (FeatureExtractor.min_samples 16)
  /\ Forall (fun x => x = 2) (skipn 2 (FeatureExtractor.pad_short 16 [1; 2])).
Proof.
  apply (short_slices_are_padded_with_last_sample 16 [1; 2]).
  discriminate.
Defined.

Lemma int_nonneg_floor (q : Q) : 0 <= q -> Py.int q = Qfloor q.
Proof.
  intro H. unfold Py.int, Qfloor. destruct q as [n d]. simpl.
  apply Z.quot_div_nonneg; [|lia].
  unfold Qle in H. simpl in H. lia.
Qed.

(** X8.  For an interval inside the buffer ([0 <= start <= end <=
    duration], as the VAD returns them) and a positive sample rate, the
    slice of line 134 is taken without clamping or wrap-around: it is
    [audio[int(start * sr) : int(end * sr)]] with both indices inside the
    buffer, and holds [int(end * sr) - int(start * sr)] samples. *)
Theorem slice_of_interval_within_buffer :
  forall (audio : list Q) (sr : Z) (seg : Interval),
    (0 < sr)%Z ->
    interval_within (Vad.duration audio sr) seg ->
    let i := Py.int (fst seg * inject_Z sr) in
    let j := Py.int (snd seg * inject_Z sr) in
    (0 <= i <= j)%Z /\ (j <= Py.len audio)%Z
    /\ FeatureExtractor.segment_slice audio sr seg
       = firstn (Z.to_nat (j - i)) (skipn (Z.to_nat i) audio)
    /\ Py.len (FeatureExtractor.segment_slice audio sr seg) = (j - i)%Z.
Proof.
  intros audio sr [s e] Hsr [Hs [Hse He]] i j. simpl in *.
  assert (HsrQ : 0 < inject_Z sr)
    by (change 0 with (inject_Z 0); rewrite <- Zlt_Qlt; exact Hsr).
  assert (H0 : 0 <= s * inject_Z sr) by (apply Qmult_le_0_compat; lra).
  assert (H1 : s * inject_Z sr <= e * inject_Z sr)
    by (apply Qmult_le_compat_r; lra).
  assert (H2 : e * inject_Z sr <= inject_Z (Py.len audio)).
  { unfold Vad.duration in He.
    assert (Hx : e * inject_Z sr
                 <= (inject_Z (Py.len audio) / inject_Z sr) * inject_Z sr)
      by (apply Qmult_le_compat_r; lra).
    assert (Hy : (inject_Z (Py.len audio) / inject_Z sr) * inject_Z sr
                 == inject_Z (Py.len audio)) by (field; lra).
    lra. }
  assert (Hi : i = Qfloor (s * inject_Z sr))
    by (apply int_nonneg_floor; exact H0).
  assert (Hj : j = Qfloor (e * inject_Z sr))
    by (apply int_nonneg_floor; lra).
  assert (Hi0 : (0 <= i)%Z)
    by (rewrite Hi; apply (Qfloor_resp_le 0); exact H0).
  assert (Hij : (i <= j)%Z) by (rewrite Hi, Hj; apply Qfloor_resp_le; exact H1).
  assert (Hjl : (j <= Py.len audio)%Z).
  { rewrite Hj, <- (Qfloor_Z (Py.len audio)). apply Qfloor_resp_le. exact H2. }
  assert (Hslice : FeatureExtractor.segment_slice audio sr (s, e)
                   = firstn (Z.to_nat (j - i)) (skipn (Z.to_nat i) audio)).
  { unfold FeatureExtractor.segment_slice, PyMore.getslice, PyMore.slice_bound.
    simpl fst. simpl snd. fold i j.
    rewrite (Z.max_r 0 i) by lia. rewrite (Z.min_r (Py.len audio) j) by lia.
    destruct (Z.ltb_spec i 0); [lia|]. destruct (Z.ltb_spec j 0); [lia|].
    rewrite (Z.min_l i) by lia. rewrite (Z.min_l j) by lia. reflexivity. }
  split; [lia|]. split; [exact Hjl|]. split; [exact Hslice|].
  rewrite Hslice. unfold Py.len in *.
  rewrite length_firstn, length_skipn. lia.
Qed.

Lemma slice_of_interval_within_buffer_witness :
  (0 <= 1 <= 3)%Z /\ (3 <= Py.len Samples.two_bursts)%Z
  /\ FeatureExtractor.segment_slice Samples.two_bursts 1 (1, 3)
     = firstn (Z.to_nat (3 - 1)) (skipn (Z.to_nat 1) Samples.two_bursts)
  /\ Py.len (FeatureExtractor.segment_slice Samples.two_bursts 1 (1, 3))
     = (3 - 1)%Z.
Proof.
  apply (slice_of_interval_within_buffer Samples.two_bursts 1 (1, 3)).
  - reflexivity.
  - unfold interval_within. simpl. repeat split; discriminate.
Defined.


(* ================================================================== *)
(** * Speaker count estimator: range of the result *)
(* ================================================================== *)

(** A sweep raises only on a count it clusters: the clusterer raised on
    it, or the scorer raised on its multi-label clustering. *)
Lemma sweep_loop_none (sk : Sklearn) (features : Features) (l : list Z) :
  forall state,
    Estimator.sweep_loop sk features state l = None ->
    exists k,
      In k l /\ (1 < k <= Estimator.rows features)%Z
      /\ (fit_predict sk features k = None
          \/ exists labels,
               fit_predict sk features k = Some labels
               /\ (1 < Py.distinct_count labels)%Z
               /\ silhouette_score sk features labels = None).
Proof.
  induction l as [|x l IH]; intros state H; simpl in H; [discriminate|].
  destruct (Estimator.sweep_step sk features state x) as [st1|] eqn:E.
  - destruct (IH st1 H) as [k [Hin Hk]]. exists k. split; [right; exact Hin|exact Hk].
  - exists x. split; [left; reflexivity|].
    unfold Estimator.sweep_step in E.
    destruct (Z.leb_spec x 1) as [?|Hx]; [discriminate|].
    destruct (Z.ltb_spec (Estimator.rows features) x) as [?|Hr]; [discriminate|].
    simpl in E. split; [lia|].
    destruct (fit_predict sk features x) as [labels|]; [|left; reflexivity].
    right. exists labels. split; [reflexivity|].
    destruct (Z.leb_spec (Py.distinct_count labels) 1) as [?|Hd]; [discriminate|].
    split; [exact Hd|].
    destruct (silhouette_score sk features labels) as [score|]; [|reflexivity].
    destruct (Py.Qltb (fst state) score); discriminate.
Qed.

(** The result of the sweep, whether it returns or raises. *)
Lemma sweep_result (sk : Sklearn) (features : Features)
    (diar_options : DiarOptions) :
  match Estimator.sweep sk features diar_options with
  | Some r =>
      r = 1%Z
      \/ (sweep_candidate sk features diar_options r
          /\ (1 < r <= Estimator.rows features)%Z)
  | None =>
      exists k,
        (Py.get (min_speakers diar_options)
           DEFAULT_DIARIZATION_OPTIONS.min_speakers
         <= k
         <= Z.min (Py.get (max_speakers diar_options)
                     DEFAULT_DIARIZATION_OPTIONS.max_speakers)
                  (Estimator.rows features))%Z
        /\ (1 < k)%Z
        /\ (fit_predict sk features k = None
            \/ exists labels,
                 fit_predict sk features k = Some labels
                 /\ (1 < Py.distinct_count labels)%Z
                 /\ silhouette_score sk features labels = None)
  end.
Proof.
  destruct (Estimator.sweep sk features diar_options) as [r|] eqn:E.
  - destruct (sweep_selects sk features diar_options r E) as [[H _]|[H _]];
      [left; exact H|right].
    split; [exact H|]. destruct H as [_ Hv].
    unfold valid_candidate in Hv.
    apply andb_prop in Hv. destruct Hv as [Hv _].
    apply andb_prop in Hv. destruct Hv as [H1 H2].
    apply Z.ltb_lt in H1. apply Z.leb_le in H2. lia.
  - unfold Estimator.sweep in E.
    set (lo := Py.get (min_speakers diar_options)
                 DEFAULT_DIARIZATION_OPTIONS.min_speakers) in *.
    set (hi := Z.min (Py.get (max_speakers diar_options)
                        DEFAULT_DIARIZATION_OPTIONS.max_speakers)
                     (Estimator.rows features)) in *.
    destruct (Estimator.sweep_loop sk features (- (1), 1%Z)
                (Py.range lo (hi + 1) 1)) as [st|] eqn:El; [discriminate|].
    destruct (sweep_loop_none _ _ _ _ El) as [k [Hin [Hk Hwhy]]].
    apply in_range_unit in Hin. exists k.
    split; [lia|]. split; [lia|exact Hwhy].
Qed.

(** X9.  A speaker count the estimator returns is never below 1.  When no
    [num_speakers] is in force (absent, or 0), it is 1 or a count the
    sweep scored: between [min_speakers] and [min(max_speakers, rows)],
    above 1, and with a clustering of more than one label; so the sweep
    never asks for more clusters than there are feature rows.  The
    estimator raises only when no [num_speakers] is in force and, on a
    count of the sweep above 1, the clusterer raised or the scorer raised
    on a clustering of more than one label. *)
Theorem estimate_count_in_range :
  forall (sk : Sklearn) (features : Features) (diar_options : DiarOptions),
    match Estimator.estimate_speaker_count sk features diar_options with
    | Some r =>
        (1 <= r)%Z
        /\ (num_speakers diar_options = None
            \/ num_speakers diar_options = Some 0%Z ->
            r = 1%Z
            \/ (sweep_candidate sk features diar_options r
                /\ (1 < r <= Estimator.rows features)%Z))
    | None =>
        (num_speakers diar_options = None
         \/ num_speakers diar_options = Some 0%Z)
        /\ (1 < Estimator.rows features)%Z
        /\ exists k,
             (Py.get (min_speakers diar_options)
                DEFAULT_DIARIZATION_OPTIONS.min_speakers
              <= k
              <= Z.min (Py.get (max_speakers diar_options)
                          DEFAULT_DIARIZATION_OPTIONS.max_speakers)
                       (Estimator.rows features))%Z
             /\ (1 < k)%Z
             /\ (fit_predict sk features k = None
                 \/ exists labels,
                      fit_predict sk features k = Some labels
                      /\ (1 < Py.distinct_count labels)%Z
                      /\ silhouette_score sk features labels = None)
    end.
Proof.
  intros sk features diar_options.
  pose proof (sweep_result sk features diar_options) as Hsweep.
  unfold Estimator.estimate_speaker_count.
  destruct (Z.leb_spec (Estimator.rows features) 1) as [Hr|Hr].
  - split; [lia|]. intros _. left. reflexivity.
  - assert (Hcase :
      match Estimator.sweep sk features diar_options with
      | Some r =>
          (1 <= r)%Z
          /\ (r = 1%Z
              \/ (sweep_candidate sk features diar_options r
                  /\ (1 < r <= Estimator.rows features)%Z))
      | None => True
      end).
    { destruct (Estimator.sweep sk features diar_options) as [r|]; [|exact I].
      split; [destruct Hsweep as [->|[_ H]]; lia|exact Hsweep]. }
    destruct (num_speakers diar_options) as [n|] eqn:En.
    + destruct (Z.eqb_spec n 0) as [->|Hn].
      * destruct (Estimator.sweep sk features diar_options) as [r|].
        -- destruct Hcase as [H1 H2]. split; [exact H1|]. intros _. exact H2.
        -- split; [right; reflexivity|]. split; [exact Hr|exact Hsweep].
      * split; [lia|]. intros [H|H]; [discriminate|]. congruence.
    + destruct (Estimator.sweep sk features diar_options) as [r|].
      * destruct Hcase as [H1 H2]. split; [exact H1|]. intros _. exact H2.
      * split; [left; reflexivity|]. split; [exact Hr|exact Hsweep].
Qed.


(** A sweep that returns has scored every count it clusters into more
    than one label. *)
Lemma sweep_loop_scores (sk : Sklearn) (features : Features) (l : list Z) :
  forall state st,
    Estimator.sweep_loop sk features state l = Some st ->
    forall k, In k l -> valid_candidate sk features k = true ->
      exists q, score_of sk features k = Some q.
Proof.
  induction l as [|x l IH]; intros state st H k Hin Hv; [contradiction|].
  simpl in H.
  destruct (Estimator.sweep_step sk features state x) as [st1|] eqn:E;
    [|discriminate].
  destruct Hin as [->|Hin]; [|eapply IH; eassumption].
  rewrite (sweep_step_valid _ _ _ _ Hv) in E.
  destruct (score_of sk features k) as [q|]; [|discriminate].
  exists q. reflexivity.
Qed.

(** X19.  What is left of the selection rule of the sweep: whenever the
    estimator returns with no [num_speakers] in force and at least two
    rows, every count of the sweep that clustered into more than one
    label was scored, and the result is the first (smallest) of the
    counts of highest score, provided one of them scored above the
    initial -1.0; it is 1 when there is no such count. *)
Theorem estimate_returns_first_best_scored_count :
  forall (sk : Sklearn) (features : Features) (diar_options : DiarOptions)
         (r : Z),
    num_speakers diar_options = None
    \/ num_speakers diar_options = Some 0%Z ->
    (2 <= Estimator.rows features)%Z ->
    Estimator.estimate_speaker_count sk features diar_options = Some r ->
    (forall k, sweep_candidate sk features diar_options k ->
       exists q, score_of sk features k = Some q)
    /\ ((r = 1%Z
         /\ forall k q, sweep_candidate sk features diar_options k ->
              score_of sk features k = Some q -> q <= - (1))
        \/ (sweep_candidate sk features diar_options r
            /\ exists qr,
                 score_of sk features r = Some qr
                 /\ - (1) < qr
                 /\ forall k q, sweep_candidate sk features diar_options k ->
                      score_of sk features k = Some q ->
                      q <= qr /\ (q == qr -> (r <= k)%Z))).
Proof.
  intros sk features diar_options r Hnum Hrows Hest.
  assert (Hsweep : Estimator.sweep sk features diar_options = Some r).
  { unfold Estimator.estimate_speaker_count in Hest.
    destruct (Z.leb_spec (Estimator.rows features) 1) as [?|_]; [lia|].
    destruct Hnum as [Hn|Hn]; rewrite Hn in Hest; exact Hest. }
  split; [|apply sweep_selects; exact Hsweep].
  intros k Hk. apply sweep_candidate_in_range in Hk. destruct Hk as [Hin Hv].
  unfold Estimator.sweep in Hsweep.
  destruct (Estimator.sweep_loop sk features (- (1), 1%Z)
              (Py.range
                 (Py.get (min_speakers diar_options)
                    DEFAULT_DIARIZATION_OPTIONS.min_speakers)
                 (Z.min (Py.get (max_speakers diar_options)
                           DEFAULT_DIARIZATION_OPTIONS.max_speakers)
                        (Estimator.rows features) + 1) 1))
    as [st|] eqn:El; [|discriminate].
  eapply sweep_loop_scores; eassumption.
Qed.

Lemma estimate_returns_first_best_scored_count_witness :
  (forall k,
     sweep_candidate Reference.sklearn_three_rows Reference.three_rows
       Reference.two_speakers_at_most k ->
     exists q,
       score_of Reference.sklearn_three_rows Reference.three_rows k = Some q)
  /\ ((2 = 1)%Z
       /\ (forall k q,
            sweep_candidate Reference.sklearn_three_rows Reference.three_rows
              Reference.two_speakers_at_most k ->
            score_of Reference.sklearn_three_rows Reference.three_rows k
            = Some q -> q <= - (1))
      \/ (sweep_candidate Reference.sklearn_three_rows Reference.three_rows
            Reference.two_speakers_at_most 2
          /\ exists qr,
               score_of Reference.sklearn_three_rows Reference.three_rows 2
               = Some qr
               /\ - (1) < qr
               /\ forall k q,
                    sweep_candidate Reference.sklearn_three_rows
                      Reference.three_rows Reference.two_speakers_at_most k ->
                    score_of Reference.sklearn_three_rows Reference.three_rows
                      k = Some q ->
                    q <= qr /\ (q == qr -> (2 <= k)%Z))).
Proof.
  apply (estimate_returns_first_best_scored_count
           Reference.sklearn_three_rows Reference.three_rows
           Reference.two_speakers_at_most 2%Z).
  - left. reflexivity.
  - discriminate.
  - reflexivity.
Defined.


(* ================================================================== *)
(** * Diarizer: which label goes with which interval *)
(* ================================================================== *)

Lemma skipn_nth_error {A : Type} (l : list A) (i : nat) (x : A) :
  nth_error l i = Some x -> skipn i l = x :: skipn (S i) l.
Proof.
  revert i. induction l as [|y l IH]; intros [|i] H; simpl in H;
    try discriminate.
  - inversion H. reflexivity.
  - simpl. apply IH. exact H.
Qed.

Lemma label_segments_pairs (labels : list Z) (segments : list Interval) :
  forall idx out,
    Diarizer.label_segments labels idx segments = Some out ->
    map (fun seg => (interval_of seg, speaker seg)) out
    = combine segments (skipn idx labels)
    /\ Forall (fun seg => text seg = []) out.
Proof.
  induction segments as [|[s e] rest IH]; intros idx out H; simpl in H.
  - inversion H. split; [reflexivity|constructor].
  - destruct (nth_error labels idx) as [l|] eqn:El; [|discriminate].
    destruct (Diarizer.label_segments labels (S idx) rest) as [tl|] eqn:E;
      [|discriminate].
    inversion H; subst. destruct (IH _ _ E) as [Hp Ht].
    rewrite (skipn_nth_error _ _ _ El). simpl. split.
    + unfold interval_of at 1. simpl. f_equal. exact Hp.
    + constructor; [reflexivity|exact Ht].
Qed.

Lemma single_speaker_pairs (segments : list Interval) :
  map (fun seg => (interval_of seg, speaker seg))
    (map (fun seg => mkSpeechSegment (fst seg) (snd seg) 0 (Py.lit ""))
       segments)
  = combine segments (repeat 0%Z (List.length segments)).
Proof.
  induction segments as [|[s e] rest IH]; simpl; [reflexivity|].
  unfold interval_of at 1. simpl. f_equal. exact IH.
Qed.

(** X10.  In what [diarize_segments] returns, every interval keeps the
    label of its own position: the (interval, speaker) pairs of the
    result are, up to the order, the input intervals paired one by one
    with the clusterer's labels (with 0 throughout when at most one
    speaker was estimated); every text is empty.  (Without intervals
    nothing is estimated or clustered and the result is empty.) *)
Theorem diarize_pairs_each_interval_with_its_label :
  forall (sk : Sklearn) (segments : list Interval) (features : Features)
         (diar_options : DiarOptions) (out : list SpeechSegment),
    Diarizer.diarize_segments sk segments features diar_options = Some out ->
    let labels :=
      match Estimator.estimate_speaker_count sk features diar_options with
      | Some k =>
          if (k <=? 1)%Z then repeat 0%Z (List.length segments)
          else match fit_predict sk features k with
               | Some labels => labels
               | None => []
               end
      | None => []
      end in
    Permutation (map (fun seg => (interval_of seg, speaker seg)) out)
      (combine segments labels)
    /\ Forall (fun seg => text seg = []) out
    /\ (segments <> [] ->
        exists k,
          Estimator.estimate_speaker_count sk features diar_options = Some k
          /\ ((k <= 1)%Z \/ exists l, fit_predict sk features k = Some l)).
Proof.
  intros sk segments features diar_options out H labels. subst labels.
  unfold Diarizer.diarize_segments in H.
  destruct segments as [|iv rest] eqn:Eseg.
  { inversion H; subst. simpl. split; [constructor|].
    split; [constructor|]. intro Hne. congruence. }
  rewrite <- Eseg in *. clear Eseg iv rest.
  destruct (Estimator.estimate_speaker_count sk features diar_options)
    as [k|]; [|discriminate].
  destruct (Z.leb_spec k 1) as [Hk|Hk].
  - inversion H; subst. rewrite single_speaker_pairs. split; [reflexivity|].
    split.
    + apply Forall_forall. intros seg Hseg. apply in_map_iff in Hseg.
      destruct Hseg as [x [<- _]]. reflexivity.
    + intros _. exists k. split; [reflexivity|left; exact Hk].
  - destruct (fit_predict sk features k) as [labels|] eqn:Ef; [|discriminate].
    destruct (Diarizer.label_segments labels 0 segments)
      as [labelled|] eqn:El; [|discriminate].
    simpl in H. inversion H; subst.
    destruct (label_segments_pairs _ _ _ _ El) as [Hp Ht]. simpl in Hp.
    split; [|split].
    + rewrite <- Hp. apply Permutation_map. apply sort_by_start_perm.
    + eapply Permutation_Forall; [|exact Ht].
      symmetry. apply sort_by_start_perm.
    + intros _. exists k. split; [reflexivity|]. right. exists labels.
      exact Ef.
Qed.

Lemma diarize_pairs_each_interval_with_its_label_witness :
  Permutation
    [((0, 1), 1%Z); ((2, 3), 2%Z); ((5, 6), 0%Z)]
    (combine [(5, 6); (0, 1); (2, 3)] [0%Z; 1%Z; 2%Z])
  /\ Forall (fun seg => text seg = [])
       [mkSpeechSegment 0 1 1 []; mkSpeechSegment 2 3 2 [];
        mkSpeechSegment 5 6 0 []].
Proof.
  destruct (diarize_pairs_each_interval_with_its_label
              Reference.sklearn_three_rows [(5, 6); (0, 1); (2, 3)]
              Reference.three_rows Reference.three_speakers
              [mkSpeechSegment 0 1 1 []; mkSpeechSegment 2 3 2 [];
               mkSpeechSegment 5 6 0 []] eq_refl) as [Hp [Ht _]].
  split; [exact Hp|exact Ht].
Defined.


(* ================================================================== *)
(** * Interval aligner: uniform diarization and ties *)
(* ================================================================== *)

(** X11.  When every diarized segment carries the same speaker, every
    utterance interval is assigned that speaker, wherever it lies. *)
Theorem assign_speaker_of_uniform_diarization :
  forall (s e : Q) (segments : list SpeechSegment) (p : Z),
    segments <> [] ->
    Forall (fun seg => speaker seg = p) segments ->
    Aligner.assign_speaker_for_interval s e segments = Some p.
Proof.
  intros s e segments p Hne Hall.
  destruct (assign_speaker_policy s e segments Hne) as [seg [Hin [H _]]].
  rewrite Forall_forall in Hall. rewrite H, (Hall seg Hin). reflexivity.
Qed.

Lemma assign_speaker_of_uniform_diarization_witness :
  Aligner.assign_speaker_for_interval 7 9
    [mkSpeechSegment 0 2 4 []; mkSpeechSegment 3 5 4 []] = Some 4%Z.
Proof.
  apply (assign_speaker_of_uniform_diarization 7 9
           [mkSpeechSegment 0 2 4 []; mkSpeechSegment 3 5 4 []] 4%Z).
  - discriminate.
  - repeat constructor.
Defined.

Lemma scan_inr_first (s e m : Q) (segments : list SpeechSegment) :
  forall idx bi bo r,
    Aligner.scan s e m idx bi bo segments = inr r ->
    (r = bi /\ Forall (fun x => Aligner.overlap s e x <= bo) segments)
    \/ (exists pre seg post,
          segments = pre ++ seg :: post
          /\ r = Some (idx + List.length pre)%nat
          /\ bo < Aligner.overlap s e seg
          /\ Forall (fun x => Aligner.overlap s e x < Aligner.overlap s e seg)
               pre
          /\ Forall (fun x => Aligner.overlap s e x <= Aligner.overlap s e seg)
               post).
Proof.
  induction segments as [|x rest IH]; intros idx bi bo r H; simpl in H.
  - inversion H; subst. left. split; [reflexivity|constructor].
  - destruct (Aligner.contains m x) eqn:C;
      [destruct (Py.Qltb bo (Aligner.overlap s e x)); discriminate|].
    destruct (Py.Qltb bo (Aligner.overlap s e x)) eqn:L.
    + apply Qltb_lt in L. apply IH in H. right.
      destruct H as [[-> Hall]|[pre [seg [post [-> [-> [Hlt [Hpre Hpost]]]]]]]].
      * exists [], x, rest. split; [reflexivity|].
        split; [simpl; f_equal; lia|]. split; [exact L|].
        split; [constructor|exact Hall].
      * exists (x :: pre), seg, post. split; [reflexivity|].
        split; [simpl; f_equal; lia|]. split; [lra|].
        split; [constructor; assumption|exact Hpost].
    + apply Qltb_ge in L. apply IH in H.
      destruct H as [[-> Hall]|[pre [seg [post [-> [-> [Hlt [Hpre Hpost]]]]]]]].
      * left. split; [reflexivity|]. constructor; assumption.
      * right. exists (x :: pre), seg, post. split; [reflexivity|].
        split; [simpl; f_equal; lia|]. split; [exact Hlt|].
        split; [constructor; [lra|exact Hpre]|exact Hpost].
Qed.

Lemma argmin_from_first (xs : list Q) :
  forall idx best_idx best,
    let r := Py.argmin_from idx best_idx best xs in
    (r = best_idx /\ Forall (fun x => best <= x) xs)
    \/ (exists pre d post,
          xs = pre ++ d :: post
          /\ r = (idx + List.length pre)%nat
          /\ d < best
          /\ Forall (fun x => d < x) pre
          /\ Forall (fun x => d <= x) post).
Proof.
  induction xs as [|x rest IH]; intros idx best_idx best; simpl.
  - left. split; [reflexivity|constructor].
  - destruct (Py.Qltb x best) eqn:L.
    + apply Qltb_lt in L. right.
      destruct (IH (S idx) idx x)
        as [[Hr Hall]|[pre [d [post [-> [Hr [Hlt [Hpre Hpost]]]]]]]].
      * exists [], x, rest. split; [reflexivity|].
        split; [rewrite Hr; simpl; lia|]. split; [exact L|].
        split; [constructor|exact Hall].
      * exists (x :: pre), d, post. split; [reflexivity|].
        split; [rewrite Hr; simpl; lia|]. split; [lra|].
        split; [constructor; assumption|exact Hpost].
    + apply Qltb_ge in L.
      destruct (IH (S idx) best_idx best)
        as [[Hr Hall]|[pre [d [post [-> [Hr [Hlt [Hpre Hpost]]]]]]]].
      * left. split; [exact Hr|]. constructor; assumption.
      * right. exists (x :: pre), d, post. split; [reflexivity|].
        split; [rewrite Hr; simpl; lia|]. split; [exact Hlt|].
        split; [constructor; [lra|exact Hpre]|exact Hpost].
Qed.

Lemma argmin_first (xs : list Q) :
  xs <> [] ->
  exists pre d post,
    xs = pre ++ d :: post
    /\ Py.argmin xs = List.length pre
    /\ Forall (fun x => d < x) pre
    /\ Forall (fun x => d <= x) post.
Proof.
  destruct xs as [|x rest]; [congruence|]. intros _. simpl.
  destruct (argmin_from_first rest 1 0 x)
    as [[Hr Hall]|[pre [d [post [-> [Hr [Hlt [Hpre Hpost]]]]]]]].
  - exists [], x, rest. split; [reflexivity|]. split; [exact Hr|].
    split; [constructor|exact Hall].
  - exists (x :: pre), d, post. split; [reflexivity|].
    split; [rewrite Hr; reflexivity|].
    split; [constructor; assumption|exact Hpost].
Qed.

Lemma speaker_at_split (pre : list SpeechSegment) (seg : SpeechSegment)
    (post : list SpeechSegment) :
  Aligner.speaker_at (pre ++ seg :: post) (List.length pre) = Some (speaker seg).
Proof.
  unfold Aligner.speaker_at.
  rewrite nth_error_app2 by lia. rewrite Nat.sub_diag. reflexivity.
Qed.

(** X12.  When no diarized segment contains the midpoint, ties in the
    two fallbacks go to the earliest segment: with a positive overlap
    somewhere, the chosen segment has a strictly larger overlap than
    every segment before it and at least that of every segment after it;
    with no positive overlap, its boundary distance is strictly smaller
    than that of every segment before it and at most that of every
    segment after it. *)
Theorem assign_speaker_fallbacks_prefer_earliest :
  forall (s e : Q) (segments : list SpeechSegment),
    segments <> [] ->
    Forall (fun x => ~ midpoint_in s e x) segments ->
    exists pre seg post,
      segments = pre ++ seg :: post
      /\ Aligner.assign_speaker_for_interval s e segments = Some (speaker seg)
      /\ ((0 < Aligner.overlap s e seg
           /\ Forall (fun x => Aligner.overlap s e x < Aligner.overlap s e seg)
                pre
           /\ Forall (fun x => Aligner.overlap s e x <= Aligner.overlap s e seg)
                post)
          \/ (Forall (fun x => Aligner.overlap s e x <= 0) segments
              /\ Forall (fun x => Aligner.boundary_distance ((s + e) / 2) seg
                                  < Aligner.boundary_distance ((s + e) / 2) x)
                   pre
              /\ Forall (fun x => Aligner.boundary_distance ((s + e) / 2) seg
                                  <= Aligner.boundary_distance ((s + e) / 2) x)
                   post)).
Proof.
  intros s e segments Hne Hnone.
  unfold Aligner.assign_speaker_for_interval.
  destruct segments as [|x0 rest0] eqn:E; [congruence|]. rewrite <- E in *.
  destruct (Aligner.scan s e ((s + e) / 2) 0 None 0 segments) as [spk|r] eqn:S.
  - exfalso. apply scan_inl_member in S. destruct S as [seg [Hin [_ Hc]]].
    apply contains_midpoint_in in Hc. rewrite Forall_forall in Hnone.
    exact (Hnone seg Hin Hc).
  - apply scan_inr_first in S.
    destruct S as [[-> Hall]|[pre [seg [post [Hs [-> [Hlt [Hpre Hpost]]]]]]]].
    + destruct (argmin_first
                  (map (Aligner.boundary_distance ((s + e) / 2)) segments))
        as [dpre [d [dpost [Hm [Ha [Hdpre Hdpost]]]]]];
        [rewrite E; discriminate|].
      apply map_eq_app in Hm. destruct Hm as [pre [tl [Hs [Hmp Hmt]]]].
      apply map_eq_cons in Hmt. destruct Hmt as [seg [post [-> [Hd Hmpost]]]].
      exists pre, seg, post. split; [exact Hs|].
      rewrite Ha, <- Hmp, length_map. rewrite Hs at 1.
      split; [apply speaker_at_split|]. right.
      split; [exact Hall|]. subst d dpre dpost.
      rewrite Forall_map in Hdpre, Hdpost. split; assumption.
    + exists pre, seg, post. split; [exact Hs|].
      simpl. rewrite Hs at 1. split; [apply speaker_at_split|]. left.
      split; [exact Hlt|]. split; assumption.
Qed.

Lemma assign_speaker_fallbacks_prefer_earliest_witness :
  exists pre seg post,
    Reference.two_turns = pre ++ seg :: post
    /\ Aligner.assign_speaker_for_interval 2 3 Reference.two_turns
       = Some (speaker seg)
    /\ ((0 < Aligner.overlap 2 3 seg
         /\ Forall (fun x => Aligner.overlap 2 3 x < Aligner.overlap 2 3 seg)
              pre
         /\ Forall (fun x => Aligner.overlap 2 3 x <= Aligner.overlap 2 3 seg)
              post)
        \/ (Forall (fun x => Aligner.overlap 2 3 x <= 0) Reference.two_turns
            /\ Forall (fun x => Aligner.boundary_distance ((2 + 3) / 2) seg
                                < Aligner.boundary_distance ((2 + 3) / 2) x)
                 pre
            /\ Forall (fun x => Aligner.boundary_distance ((2 + 3) / 2) seg
                                <= Aligner.boundary_distance ((2 + 3) / 2) x)
                 post)).
Proof.
  apply (assign_speaker_fallbacks_prefer_earliest 2 3 Reference.two_turns).
  - discriminate.
  - repeat constructor; unfold midpoint_in; simpl; intros [H1 H2].
    + revert H2. apply Qlt_not_le. reflexivity.
    + revert H1. apply Qlt_not_le. reflexivity.
Defined.


(* ================================================================== *)
(** * Transcript merger: what the merged turns are made of *)
(* ================================================================== *)

Lemma join_cons (sep p : Py.str) (rest : list Py.str) :
  rest <> [] -> PyMore.join sep (p :: rest) = p ++ sep ++ PyMore.join sep rest.
Proof. destruct rest; [congruence|reflexivity]. Qed.

Lemma join_coalesced (sep a b : Py.str) (l rest : list Py.str) :
  PyMore.join sep (l ++ (a ++ sep ++ b) :: rest)
  = PyMore.join sep (l ++ a :: b :: rest).
Proof.
  induction l as [|p l IH].
  - simpl app. rewrite (join_cons sep a (b :: rest)) by discriminate.
    destruct rest as [|c rest]; [reflexivity|].
    rewrite !join_cons by discriminate.
    rewrite <- !app_assoc. reflexivity.
  - simpl app. rewrite !join_cons; [|destruct l; discriminate..].
    rewrite IH. reflexivity.
Qed.

Lemma nonblank_texts_cons (u : Utterance) (us : list Utterance) :
  nonblank_texts (u :: us)
  = if Py.is_empty (Py.strip (u_text u)) then nonblank_texts us
    else Py.strip (u_text u) :: nonblank_texts us.
Proof.
  unfold nonblank_texts. simpl.
  destruct (Py.is_empty (Py.strip (u_text u))); reflexivity.
Qed.

(** The three outcomes of one step of the merge loop. *)
Lemma merge_step_cases diar gap merged u merged' :
  Merger.merge_step diar gap merged u = Some merged' ->
  (Py.strip (u_text u) = [] /\ merged' = merged)
  \/ (Py.strip (u_text u) <> []
      /\ exists spk,
           Aligner.assign_speaker_for_interval (u_start u) (u_end u) diar
             = Some spk
           /\ ((exists init last,
                  merged = init ++ [last]
                  /\ speaker last = spk
                  /\ u_start u - end_ last <= gap
                  /\ merged'
                     = init ++ [mkSpeechSegment (start last) (u_end u)
                                  (speaker last)
                                  (Py.strip (text last ++ Py.lit " "
                                             ++ Py.strip (u_text u)))])
               \/ (merged'
                   = merged ++ [mkSpeechSegment (u_start u) (u_end u) spk
                                  (Py.strip (u_text u))]
                   /\ forall init last,
                        merged = init ++ [last] ->
                        speaker last <> spk \/ gap < u_start u - end_ last))).
Proof.
  unfold Merger.merge_step. intro H.
  destruct (Py.is_empty (Py.strip (u_text u))) eqn:Em.
  - left. apply is_empty_true in Em. inversion H. split; [exact Em|reflexivity].
  - right. split; [intro Hs; rewrite Hs in Em; discriminate|].
    destruct (Aligner.assign_speaker_for_interval (u_start u) (u_end u) diar)
      as [spk|]; [|discriminate].
    exists spk. split; [reflexivity|].
    destruct (Py.split_last merged) as [[init last]|] eqn:Es.
    + apply split_last_some in Es.
      destruct (Z.eqb_spec (speaker last) spk) as [Hsp|Hsp].
      * destruct (Qle_bool (u_start u - end_ last) gap) eqn:Hg; simpl in H;
          inversion H; subst merged'.
        -- left. exists init, last. apply Qle_bool_iff in Hg.
           repeat split; assumption.
        -- right. split; [reflexivity|]. intros init' last' E'.
           rewrite Es in E'. apply app_inj_tail in E'. destruct E' as [_ <-].
           right. apply Qle_bool_false. exact Hg.
      * simpl in H. inversion H; subst merged'. right.
        split; [reflexivity|]. intros init' last' E'.
        rewrite Es in E'. apply app_inj_tail in E'. destruct E' as [_ <-].
        left. exact Hsp.
    + inversion H; subst merged'. right. split; [reflexivity|].
      intros init last E'. apply split_last_none in Es. subst merged.
      destruct init; discriminate.
Qed.

Lemma merge_loop_texts diar gap (us : list Utterance) :
  forall merged out,
    all_trimmed merged ->
    Merger.merge_loop diar gap merged us = Some out ->
    PyMore.join (Py.lit " ") (map text out)
    = PyMore.join (Py.lit " ") (map text merged ++ nonblank_texts us).
Proof.
  induction us as [|u us IH]; intros merged out Hall H; simpl in H.
  - inversion H; subst. unfold nonblank_texts. simpl.
    rewrite app_nil_r. reflexivity.
  - destruct (Merger.merge_step diar gap merged u) as [merged'|] eqn:E;
      [|discriminate].
    pose proof (merge_step_trimmed _ _ _ _ _ Hall E) as Hall'.
    rewrite (IH _ _ Hall' H), nonblank_texts_cons.
    destruct (merge_step_cases _ _ _ _ _ E)
      as [[Hb ->]|[Hnb [spk [_ [[init [last [-> [_ [_ ->]]]]]|[-> _]]]]]].
    + rewrite Hb. reflexivity.
    + destruct (Py.is_empty (Py.strip (u_text u))) eqn:Em;
        [apply is_empty_true in Em; congruence|].
      apply Forall_app in Hall. destruct Hall as [_ Hl].
      inversion Hl as [|? ? Hlast _]; subst.
      rewrite !map_app. cbn [map text].
      rewrite strip_joined; [|exact Hlast|apply strip_trimmed; exact Hnb].
      rewrite <- !app_assoc. cbn [app]. apply join_coalesced.
    + destruct (Py.is_empty (Py.strip (u_text u))) eqn:Em;
        [apply is_empty_true in Em; congruence|].
      rewrite map_app. cbn [map text]. rewrite <- app_assoc. reflexivity.
Qed.

(** X13.  Merging loses and reorders no text: the texts of the merged
    segments, joined by single spaces, spell the trimmed texts of the
    non-blank utterances joined by single spaces, in their order. *)
Theorem merge_preserves_the_text :
  forall (us : list Utterance) (diar : list SpeechSegment) (gap : Q),
    exists out,
      Merger.merge_transcript_segments us diar gap = Some out
      /\ PyMore.join (Py.lit " ") (map text out)
         = PyMore.join (Py.lit " ") (nonblank_texts us).
Proof.
  intros us diar gap. unfold Merger.merge_transcript_segments.
  destruct (merge_loop_returns diar gap us []) as [out Hout].
  exists out. split; [exact Hout|].
  apply (merge_loop_texts diar gap us [] out); [constructor|exact Hout].
Qed.

Lemma adjacent_snoc {A : Type} (R : A -> A -> Prop) (init : list A)
    (last x : A) :
  adjacent R (init ++ [last]) -> R last x ->
  adjacent R ((init ++ [last]) ++ [x]).
Proof.
  induction init as [|p init IH]; intros H Hx; simpl.
  - split; [exact Hx|exact I].
  - simpl in H. destruct (init ++ [last]) as [|q tl] eqn:E.
    + destruct init; discriminate.
    + simpl. destruct H as [Hpq Htl]. split; [exact Hpq|].
      apply IH; assumption.
Qed.

Lemma adjacent_replace_last {A : Type} (R : A -> A -> Prop) (init : list A)
    (last last' : A) :
  (forall a, R a last -> R a last') ->
  adjacent R (init ++ [last]) -> adjacent R (init ++ [last']).
Proof.
  intro HR. induction init as [|p init IH]; intro H; simpl.
  - exact I.
  - simpl in H. destruct init as [|q init].
    + simpl in *. destruct H as [Hp _]. split; [apply HR; exact Hp|exact I].
    + simpl in *. destruct H as [Hpq Htl]. split; [exact Hpq|].
      apply IH. exact Htl.
Qed.

Lemma merge_loop_kept_apart diar gap (us : list Utterance) :
  forall merged out,
    adjacent (kept_apart gap) merged ->
    Merger.merge_loop diar gap merged us = Some out ->
    adjacent (kept_apart gap) out.
Proof.
  induction us as [|u us IH]; intros merged out Hadj H; simpl in H.
  - inversion H; subst. exact Hadj.
  - destruct (Merger.merge_step diar gap merged u) as [merged'|] eqn:E;
      [|discriminate].
    eapply IH; [|exact H].
    destruct (merge_step_cases _ _ _ _ _ E)
      as [[_ ->]|[_ [spk [_ [[init [last [-> [_ [_ ->]]]]]|[-> Hfar]]]]]].
    + exact Hadj.
    + eapply adjacent_replace_last; [|exact Hadj].
      intros a Ha. exact Ha.
    + destruct (Py.split_last merged) as [[init last]|] eqn:Es.
      * apply split_last_some in Es. subst merged.
        apply adjacent_snoc; [exact Hadj|].
        unfold kept_apart. simpl. apply (Hfar init last). reflexivity.
      * apply split_last_none in Es. subst merged. exact I.
Qed.

(** X14.  The merged turns are merged as far as the rule allows: any two
    turns in a row have different speakers, or the second starts more
    than [merge_gap] after the first ends. *)
Theorem merge_leaves_no_mergeable_neighbours :
  forall (us : list Utterance) (diar : list SpeechSegment) (gap : Q),
    exists out,
      Merger.merge_transcript_segments us diar gap = Some out
      /\ adjacent (kept_apart gap) out.
Proof.
  intros us diar gap. unfold Merger.merge_transcript_segments.
  destruct (merge_loop_returns diar gap us []) as [out Hout].
  exists out. split; [exact Hout|].
  apply (merge_loop_kept_apart diar gap us [] out); [exact I|exact Hout].
Qed.

Lemma merge_loop_spans diar gap (all us : list Utterance) :
  forall merged out,
    (forall u, In u us -> In u all) ->
    Forall (spans_utterances diar all) merged ->
    Merger.merge_loop diar gap merged us = Some out ->
    Forall (spans_utterances diar all) out
    /\ (List.length out
        <= List.length merged + List.length (nonblank_texts us))%nat.
Proof.
  induction us as [|u us IH]; intros merged out Hin Hall H; simpl in H.
  - inversion H; subst. split; [exact Hall|lia].
  - destruct (Merger.merge_step diar gap merged u) as [merged'|] eqn:E;
      [|discriminate].
    assert (Hu : In u all) by (apply Hin; left; reflexivity).
    assert (Hin' : forall v, In v us -> In v all)
      by (intros v Hv; apply Hin; right; exact Hv).
    rewrite nonblank_texts_cons.
    destruct (merge_step_cases _ _ _ _ _ E)
      as [[Hb ->]|[Hnb [spk [Hspk [[init [last [-> [Hsame [_ ->]]]]]|[-> _]]]]]].
    + destruct (IH _ _ Hin' Hall H) as [H1 H2].
      rewrite Hb. simpl. split; [exact H1|exact H2].
    + destruct (Py.is_empty (Py.strip (u_text u))) eqn:Em;
        [apply is_empty_true in Em; congruence|].
      assert (Hall' : Forall (spans_utterances diar all)
                (init ++ [mkSpeechSegment (start last) (u_end u) (speaker last)
                            (Py.strip (text last ++ Py.lit " "
                                       ++ Py.strip (u_text u)))])).
      { apply Forall_app in Hall. destruct Hall as [Hinit Hlast].
        apply Forall_app. split; [exact Hinit|].
        inversion Hlast as [|? ? [Hfirst _] _]; subst.
        constructor; [|constructor]. split; [exact Hfirst|].
        exists u. simpl. repeat split; try assumption; congruence. }
      destruct (IH _ _ Hin' Hall' H) as [H1 H2].
      split; [exact H1|]. rewrite !length_app in *. simpl in *. lia.
    + destruct (Py.is_empty (Py.strip (u_text u))) eqn:Em;
        [apply is_empty_true in Em; congruence|].
      assert (Hall' : Forall (spans_utterances diar all)
                (merged ++ [mkSpeechSegment (u_start u) (u_end u) spk
                              (Py.strip (u_text u))])).
      { apply Forall_app. split; [exact Hall|].
        constructor; [|constructor].
        split; exists u; simpl; repeat split; assumption. }
      destruct (IH _ _ Hin' Hall' H) as [H1 H2].
      split; [exact H1|]. rewrite !length_app in *. simpl in *. lia.
Qed.

(** X15.  Every merged turn starts at the start of a non-blank utterance
    and ends at the end of a non-blank utterance, both assigned by the
    aligner to the turn's speaker; and there are at most as many turns as
    non-blank utterances. *)
Theorem merge_turns_span_utterances :
  forall (us : list Utterance) (diar : list SpeechSegment) (gap : Q),
    exists out,
      Merger.merge_transcript_segments us diar gap = Some out
      /\ Forall (spans_utterances diar us) out
      /\ (List.length out <= List.length (nonblank_texts us))%nat.
Proof.
  intros us diar gap. unfold Merger.merge_transcript_segments.
  destruct (merge_loop_returns diar gap us []) as [out Hout].
  exists out. split; [exact Hout|].
  apply (merge_loop_spans diar gap us us [] out);
    [auto|constructor|exact Hout].
Qed.


(* ================================================================== *)
(** * Transcript exporter *)
(* ================================================================== *)

Lemma export_loop_spec (ff : FloatFormat) (merged : list SpeechSegment) :
  forall index txt_lines subtitles,
    Exporter.export_loop ff index txt_lines subtitles merged
    = (txt_lines ++ map (txt_line_of ff) (exported index merged),
       subtitles ++ map subtitle_of (exported index merged)).
Proof.
  induction merged as [|segment rest IH]; intros index txt_lines subtitles;
    simpl.
  - rewrite !app_nil_r. reflexivity.
  - destruct (Py.is_empty (Py.strip (text segment))); [apply IH|].
    rewrite IH. simpl. rewrite <- !app_assoc. reflexivity.
Qed.

Lemma exported_positions (merged : list SpeechSegment) :
  forall index i seg,
    In (i, seg) (exported index merged) ->
    (index <= i)%Z
    /\ nth_error merged (Z.to_nat (i - index)) = Some seg
    /\ Py.strip (text seg) <> [].
Proof.
  induction merged as [|segment rest IH]; intros index i seg H; simpl in H.
  - contradiction.
  - assert (Hrest : In (i, seg) (exported (index + 1) rest) ->
              (index <= i)%Z
              /\ nth_error (segment :: rest) (Z.to_nat (i - index)) = Some seg
              /\ Py.strip (text seg) <> []).
    { intro Hin. destruct (IH _ _ _ Hin) as [H1 [H2 H3]].
      split; [lia|]. split; [|exact H3].
      replace (Z.to_nat (i - index)) with (S (Z.to_nat (i - (index + 1))))
        by lia. exact H2. }
    destruct (Py.is_empty (Py.strip (text segment))) eqn:Em; [auto|].
    destruct H as [H|H]; [|auto].
    inversion H; subst. split; [lia|]. rewrite Z.sub_diag. simpl.
    split; [reflexivity|]. intro Hs. rewrite Hs in Em. discriminate.
Qed.

Lemma exported_complete (merged : list SpeechSegment) :
  forall index k seg,
    nth_error merged k = Some seg ->
    Py.strip (text seg) <> [] ->
    In ((index + Z.of_nat k)%Z, seg) (exported index merged).
Proof.
  induction merged as [|segment rest IH]; intros index k seg Hn Hs.
  - destruct k; discriminate.
  - destruct k as [|k]; simpl in Hn.
    + inversion Hn; subst. simpl.
      destruct (Py.is_empty (Py.strip (text seg))) eqn:Em;
        [apply is_empty_true in Em; congruence|].
      left. f_equal. lia.
    + replace (index + Z.of_nat (S k))%Z
        with ((index + 1) + Z.of_nat k)%Z by lia.
      cbn [exported].
      destruct (Py.is_empty (Py.strip (text segment)));
        [|right]; apply IH; assumption.
Qed.

(** X16.  [save_transcripts] builds one text line and one [srt.Subtitle]
    object for each segment whose trimmed text is not empty, in order,
    and no other; the text lines, joined by newlines, are what goes to
    [transcript_speakers.txt], and the list of objects is what is handed
    to [srt.compose].  The object built for a segment gets as [index] the
    position [i] (counted from 1) of the segment in the list given, so
    the indices handed over skip the position of a segment without text
    (how [srt.compose] numbers the blocks of the file it composes is that
    library's affair); and every segment with text has its object. *)
Theorem save_transcripts_entries :
  forall (ff : FloatFormat) (merged : list SpeechSegment),
    let entries := exported 1 merged in
    Exporter.save_transcripts ff merged
    = (PyMore.join [10%N] (map (txt_line_of ff) entries),
       map subtitle_of entries)
    /\ (forall i seg,
          In (i, seg) entries ->
          (1 <= i)%Z /\ nth_error merged (Z.to_nat (i - 1)) = Some seg
          /\ Py.strip (text seg) <> [])
    /\ (forall k seg,
          nth_error merged k = Some seg -> Py.strip (text seg) <> [] ->
          In ((1 + Z.of_nat k)%Z, seg) entries).
Proof.
  intros ff merged entries. subst entries. split; [|split].
  - unfold Exporter.save_transcripts. rewrite export_loop_spec. reflexivity.
  - intros i seg H. apply exported_positions. exact H.
  - intros k seg Hn Hs. apply exported_complete; assumption.
Qed.

Lemma exported_trimmed (merged : list SpeechSegment) :
  all_trimmed merged ->
  forall index,
    exported index merged = enumerate_from index merged
    /\ map subtitle_of (exported index merged)
       = map (fun entry =>
                mkSubtitle (fst entry) (start (snd entry)) (end_ (snd entry))
                  (Exporter.content_of (snd entry) (text (snd entry))))
           (enumerate_from index merged).
Proof.
  induction 1 as [|segment rest [Hne Hs] _ IH]; intro index; simpl.
  - split; reflexivity.
  - rewrite Hs. destruct (Py.is_empty (text segment)) eqn:Em;
      [apply is_empty_true in Em; congruence|].
    destruct (IH (index + 1)%Z) as [H1 H2].
    split; [rewrite H1; reflexivity|].
    simpl. unfold subtitle_of at 1. simpl. rewrite Hs, H2. reflexivity.
Qed.

Lemma enumerate_from_indices (merged : list SpeechSegment) :
  forall index,
    map fst (enumerate_from index merged)
    = map (fun k => (index + Z.of_nat k)%Z) (seq 0 (List.length merged))
    /\ map snd (enumerate_from index merged) = merged.
Proof.
  induction merged as [|segment rest IH]; intro index; simpl.
  - split; reflexivity.
  - destruct (IH (index + 1)%Z) as [H1 H2]. split.
    + f_equal; [lia|]. rewrite H1, <- seq_shift, map_map.
      apply map_ext. intro k. lia.
    + f_equal. exact H2.
Qed.

Lemma enumerate_from_fields (merged : list SpeechSegment) :
  forall index,
    Forall2 (fun seg sub =>
               sub_start sub = start seg /\ sub_end sub = end_ seg
               /\ sub_content sub
                  = Exporter.speaker_word ++ Py.lit " "
                    ++ PyMore.format_d (speaker seg + 1)
                    ++ Py.lit ": " ++ text seg)
      merged
      (map (fun entry =>
              mkSubtitle (fst entry) (start (snd entry)) (end_ (snd entry))
                (Exporter.content_of (snd entry) (text (snd entry))))
         (enumerate_from index merged)).
Proof.
  induction merged as [|seg rest IH]; intro index; simpl; constructor.
  - repeat split.
  - apply IH.
Qed.

(** X17.  After merging, the exporter skips nothing: the merged segments
    all have text, so [save_transcripts] produces exactly one subtitle per
    merged segment, numbered 1, 2, ... without gaps, with the segment's
    own start, end and text (the second trimming changes nothing) and the
    speaker shown as [speaker + 1]. *)
Theorem merged_segments_are_all_exported :
  forall (ff : FloatFormat) (us : list Utterance) (diar : list SpeechSegment)
         (gap : Q),
    exists out,
      Merger.merge_transcript_segments us diar gap = Some out
      /\ let subtitles := snd (Exporter.save_transcripts ff out) in
         map sub_index subtitles
         = map (fun k => (1 + Z.of_nat k)%Z) (seq 0 (List.length out))
         /\ Forall2 (fun seg sub =>
                       sub_start sub = start seg /\ sub_end sub = end_ seg
                       /\ sub_content sub
                          = Exporter.speaker_word ++ Py.lit " "
                            ++ PyMore.format_d (speaker seg + 1)
                            ++ Py.lit ": " ++ text seg)
              out subtitles.
Proof.
  intros ff us diar gap. unfold Merger.merge_transcript_segments.
  destruct (merge_loop_returns diar gap us []) as [out Hout].
  exists out. split; [exact Hout|].
  assert (Hall : all_trimmed out)
    by (eapply merge_loop_trimmed; [|exact Hout]; constructor).
  cbv zeta. unfold Exporter.save_transcripts.
  rewrite export_loop_spec. simpl snd.
  destruct (exported_trimmed out Hall 1) as [_ ->].
  destruct (enumerate_from_indices out 1) as [Hidx Hsegs].
  split.
  - rewrite map_map. simpl. exact Hidx.
  - apply enumerate_from_fields.
Qed.


(* ================================================================== *)
(** * [main]: the stages fit together *)
(* ================================================================== *)

Lemma energy_vad_returns (np : NumPy) (audio : list Q) (sr : Z)
    (options : VadOptions) :
  sr <> 0%Z ->
  exists intervals,
    Vad.energy_vad np audio sr options = Some intervals /\ intervals <> [].
Proof.
  intro Hsr. unfold Vad.energy_vad. apply Z.eqb_neq in Hsr. rewrite Hsr.
  destruct (Py.len audio <? Vad.frame_samples sr options)%Z;
    [eexists; split; [reflexivity|discriminate]|].
  destruct (Py.len (Vad.frame_energies np audio sr options) =? 0)%Z;
    [eexists; split; [reflexivity|discriminate]|].
  destruct (Vad.refine _ (Vad.candidates np audio sr options));
    eexists; split; try reflexivity; discriminate.
Qed.

(** X18.  How the stages of [main] fit together, from the loaded audio
    to the merged segments.  The VAD always returns, with at least one
    interval.  If the feature extractor returns, the matrix has one row
    per interval.  If the diarizer then returns, its segments carry the
    VAD's intervals, the merger returns, and every merged segment has
    text: the run returns.  Otherwise the run raises, and it does so only
    where a library call is involved: in the feature extractor, in the
    speaker-count estimator, in the clusterer, or at [labels[idx]] of
    line 200 when the clusterer handed back fewer labels than rows. *)
Theorem pipeline_fails_only_in_library_calls :
  forall (np : NumPy) (lib : Librosa) (sk : Sklearn) (audio : list Q)
         (transcript_segments : list Utterance) (vad_user : VadOptions)
         (diar_user : DiarOptions) (merge_gap : option Q),
    let run :=
      Main.pipeline np lib sk audio transcript_segments vad_user diar_user
        merge_gap in
    let diar_options := Main.diarization_options diar_user in
    exists segments,
      Vad.energy_vad np audio Main.target_sr (Main.vad_options vad_user)
        = Some segments
      /\ segments <> []
      /\ match FeatureExtractor.extract_features np lib audio Main.target_sr
                 segments with
         | None => run = None
         | Some features =>
             List.length features = List.length segments
             /\ match Diarizer.diarize_segments sk segments features
                        diar_options with
                | Some diarized =>
                    Permutation (map interval_of diarized) segments
                    /\ exists out,
                         run = Some out
                         /\ Forall (fun seg => text seg <> []) out
                | None =>
                    run = None
                    /\ (Estimator.estimate_speaker_count sk features
                          diar_options = None
                        \/ exists k,
                             Estimator.estimate_speaker_count sk features
                               diar_options = Some k
                             /\ (1 < k)%Z
                             /\ (fit_predict sk features k = None
                                 \/ exists labels,
                                      fit_predict sk features k = Some labels
                                      /\ (List.length labels
                                          < List.length features)%nat))
                end
         end.
Proof.
  intros np lib sk audio transcript_segments vad_user diar_user merge_gap
    run diar_options. subst run diar_options.
  destruct (energy_vad_returns np audio Main.target_sr
              (Main.vad_options vad_user) ltac:(discriminate))
    as [segments [Hvad Hne]].
  exists segments. split; [exact Hvad|]. split; [exact Hne|].
  unfold Main.pipeline. rewrite Hvad.
  destruct (FeatureExtractor.extract_features np lib audio Main.target_sr
              segments) as [features|] eqn:Hfeat; [|reflexivity].
  assert (Hlen : List.length features = List.length segments).
  { symmetry. eapply Forall2_length.
    apply (proj1 (extract_features_shape np lib audio Main.target_sr
                    segments)).
    exact Hfeat. }
  split; [exact Hlen|].
  pose proof (diarize_segments_intervals sk segments features
                (Main.diarization_options diar_user)) as Hdiar.
  cbv zeta in Hdiar.
  destruct (Diarizer.diarize_segments sk segments features
              (Main.diarization_options diar_user)) as [diarized|].
  - destruct Hdiar as [Hperm _]. split; [exact Hperm|].
    destruct (merge_loop_returns diarized
                (Py.get merge_gap Main.default_merge_gap)
                transcript_segments []) as [out Hout].
    exists out. split; [exact Hout|].
    assert (Hall : all_trimmed out)
      by (eapply merge_loop_trimmed; [|exact Hout]; constructor).
    eapply Forall_impl; [|exact Hall]. intros seg [H _]. exact H.
  - split; [reflexivity|]. destruct Hdiar as [_ [Hest|[k [Hk [Hlt Hfit]]]]];
      [left; exact Hest|right].
    exists k. split; [exact Hk|]. split; [exact Hlt|].
    destruct Hfit as [Hfit|[labels [Hfit Hshort]]]; [left; exact Hfit|right].
    exists labels. split; [exact Hfit|]. rewrite Hlen. exact Hshort.
Qed.


(** X20.  A run of [main] on which the sweep reaches the number of VAD
    intervals raises.  With no [num_speakers] in force, when the VAD
    finds at least two intervals and their number lies between
    [min_speakers] and [max_speakers] (2 to 6 intervals with the default
    options), the feature matrix has that many rows, the sweep clusters
    it into as many clusters as rows, every row gets a label of its own,
    and the scorer, defined only for fewer labels than rows, raises: the
    run ends there, before any transcript is made. *)
Theorem pipeline_raises_when_sweep_reaches_row_count :
  forall (np : NumPy) (lib : Librosa) (sk : Sklearn) (audio : list Q)
         (transcript_segments : list Utterance) (vad_user : VadOptions)
         (diar_user : DiarOptions) (merge_gap : option Q)
         (segments : list Interval) (features : Features),
    Vad.energy_vad np audio Main.target_sr (Main.vad_options vad_user)
      = Some segments ->
    FeatureExtractor.extract_features np lib audio Main.target_sr segments
      = Some features ->
    num_speakers diar_user = None \/ num_speakers diar_user = Some 0%Z ->
    (2 <= Py.len segments)%Z ->
    (Py.get (min_speakers diar_user) DEFAULT_DIARIZATION_OPTIONS.min_speakers
     <= Py.len segments
     <= Py.get (max_speakers diar_user)
          DEFAULT_DIARIZATION_OPTIONS.max_speakers)%Z ->
    (forall labels,
       fit_predict sk features (Estimator.rows features) = Some labels ->
       Py.distinct_count labels = Estimator.rows features) ->
    (forall labels,
       Py.distinct_count labels = Estimator.rows features ->
       silhouette_score sk features labels = None) ->
    Estimator.rows features = Py.len segments
    /\ Estimator.estimate_speaker_count sk features
         (Main.diarization_options diar_user) = None
    /\ Main.pipeline np lib sk audio transcript_segments vad_user diar_user
         merge_gap = None.
Proof.
  intros np lib sk audio transcript_segments vad_user diar_user merge_gap
    segments features Hvad Hfeat Hnum Hsegs Hrange Hfit Hscore.
  assert (Hrows : Estimator.rows features = Py.len segments).
  { unfold Estimator.rows, Py.len. f_equal. symmetry.
    eapply Forall2_length.
    apply (proj1 (extract_features_shape np lib audio Main.target_sr
                    segments)).
    exact Hfeat. }
  assert (Hest : Estimator.estimate_speaker_count sk features
                   (Main.diarization_options diar_user) = None).
  { apply estimate_raises_at_row_count.
    - exact Hnum.
    - rewrite Hrows. exact Hsegs.
    - rewrite Hrows. exact Hrange.
    - exact Hfit.
    - exact Hscore. }
  split; [exact Hrows|]. split; [exact Hest|].
  unfold Main.pipeline. rewrite Hvad, Hfeat.
  unfold Diarizer.diarize_segments. rewrite Hest.
  destruct segments as [|iv rest]; [|reflexivity].
  unfold Py.len in Hsegs. simpl in Hsegs. lia.
Qed.

Lemma pipeline_raises_when_sweep_reaches_row_count_witness :
  Estimator.rows (repeat (repeat 0 78) 3)
  = Py.len [(1 # 16000, 48000 # 256000000); (3 # 16000, 80000 # 256000000);
            (5 # 16000, 7 # 16000)]
  /\ Estimator.estimate_speaker_count Reference.sklearn_three_rows
       (repeat (repeat 0 78) 3) (Main.diarization_options default_diar_options)
     = None
  /\ Main.pipeline Reference.numpy Samples.librosa Reference.sklearn_three_rows
       Samples.three_bursts Reference.hello_world Samples.sample_frames
       default_diar_options None = None.
Proof.
  apply (pipeline_raises_when_sweep_reaches_row_count Reference.numpy
           Samples.librosa Reference.sklearn_three_rows Samples.three_bursts
           Reference.hello_world Samples.sample_frames default_diar_options
           None).
  - vm_compute. reflexivity.
  - vm_compute. reflexivity.
  - left. reflexivity.
  - discriminate.
  - split; discriminate.
  - intros labels H. inversion H. reflexivity.
  - intros labels H. simpl. rewrite H. reflexivity.
Defined.


(* ================================================================== *)
(** * The added stages on concrete inputs *)
(* ================================================================== *)

(** 65 seconds with a comma as separator, and 3725.5 seconds split into
    its fields. *)
Example format_timestamp_samples :
  Timestamp.format_timestamp Samples.whole_seconds 65 (Py.lit ",")
  = Py.lit "00:01:05,000"
  /\ Timestamp.hours (37255 # 10) = 1%Z
  /\ Timestamp.minutes (37255 # 10) = 2%Z
  /\ Timestamp.seconds (37255 # 10) == 55 # 10.
Proof. repeat split; reflexivity. Qed.

(** A blank utterance between two utterances of one turn does not keep
    them apart; utterances of two speakers stay two turns. *)
Example merge_samples :
  Merger.merge_transcript_segments Samples.with_blank Reference.one_turn
    (15 # 10)
  = Some [mkSpeechSegment 0 2 0 (Py.lit "hello world")]
  /\ Merger.merge_transcript_segments Samples.two_speakers_talk
       Reference.two_turns (15 # 10)
     = Some [mkSpeechSegment 0 1 0 (Py.lit "hello");
             mkSpeechSegment (35 # 10) 4 1 (Py.lit "hi")].
Proof. split; reflexivity. Qed.

(** A segment with blank text is skipped: the [index] fields of the
    [srt.Subtitle] objects handed to [srt.compose] are 1 and 3. *)
Example save_transcripts_sample :
  map sub_index
    (snd (Exporter.save_transcripts Samples.whole_seconds
            [mkSpeechSegment 0 2 0 (Py.lit "hi");
             mkSpeechSegment 2 3 1 (Py.lit "  ");
             mkSpeechSegment 3 5 1 (Py.lit "yo")]))
  = [1%Z; 3%Z].
Proof. reflexivity. Qed.

(** Python slices: a negative end counts from the back, and an interval
    past the end of the buffer gives the zero row. *)
Example slice_samples :
  PyMore.getslice [1; 2; 3; 4; 5]%Z 1 (-1) = [2; 3; 4]%Z
  /\ PyMore.getslice [1; 2; 3; 4; 5]%Z 3 2 = []
  /\ FeatureExtractor.feature_row Reference.numpy Samples.librosa
       Samples.two_bursts 1 (7, 8)
     = Some (repeat 0 78).
Proof. repeat split; reflexivity. Qed.
